(** * Bayesian Gaussian CP decomposition (imputer/BGCP.ipynb)

    A shallow embedding of the notebook's Python functions and the
    properties of its Gibbs sampler.

    Modelling conventions.
    - A float is an exact rational ([Qc], canonical rationals with Leibniz
      equality); rounding and overflow are not modelled, and no array holds
      [inf] or [nan].  A division by zero, which numpy answers with [inf]
      or [nan] and a warning, is modelled where the behaviour of the code
      is at stake (the metrics and the size test of [sample_factor]);
      elsewhere [x / 0] is [Qc]'s 0 and no statement relies on it: the
      statements on the estimates of [BGCP] are about runs with at least
      one collection sweep, and those on the sign of a metric about
      results that are finite.
    - A numpy array is a rectangular nested list.  Array operations are
      written by their index formulas over the shape of their arguments.
      numpy's shape errors are not modelled: statements about arrays carry
      the shape hypotheses under which numpy runs without raising.
    - Python-level failures of the code itself (a list index out of range,
      an unbound local, an axis out of range) are results [Raise e].
    - Random draws and [numpy.linalg.inv] are library calls; they are
      parameters of the development.  The global generator state and the
      text printed on stdout make up the [world] threaded through every
      sampling function.
    - Line numbers are those of imputer/BGCP.ipynb. *)

From Stdlib Require Import QArith Qcanon Qcabs Lia.
From stdpp Require Import base list numbers.


(** ** Arrays *)

Abbreviation vec := (list Qc).
Abbreviation mat := (list (list Qc)).
Abbreviation ten := (list (list (list Qc))).

Definition tabulate {A : Type} (n : nat) (f : nat -> A) : list A :=
  map f (seq 0 n).

Definition vget (v : vec) (i : nat) : Qc := nth i v 0%Qc.
Definition mrow (M : mat) (i : nat) : vec := nth i M [].
Definition mget (M : mat) (i j : nat) : Qc := vget (mrow M i) j.
Definition tslice (T : ten) (i : nat) : mat := nth i T [].
Definition tget (T : ten) (i j t : nat) : Qc := mget (tslice T i) j t.

Definition mk_vec (n : nat) (f : nat -> Qc) : vec := tabulate n f.
Definition mk_mat (r c : nat) (f : nat -> nat -> Qc) : mat :=
  tabulate r (fun i => mk_vec c (f i)).
Definition mk_ten (a b c : nat) (f : nat -> nat -> nat -> Qc) : ten :=
  tabulate a (fun i => mk_mat b c (f i)).

(** [a.shape] for a two- and a three-dimensional array. *)
Definition nrows (M : mat) : nat := length M.
Definition ncols (M : mat) : nat := length (mrow M 0).
Definition shape3 (T : ten) : nat * nat * nat :=
  (length T, nrows (tslice T 0), ncols (tslice T 0)).

Definition wf_vec (n : nat) (v : vec) : Prop := length v = n.
Definition wf_mat (r c : nat) (M : mat) : Prop :=
  length M = r /\ Forall (wf_vec c) M.
Definition wf_ten (a b c : nat) (T : ten) : Prop :=
  length T = a /\ Forall (wf_mat b c) T.

(** ** Python results *)

Inductive exn : Type := IndexError | UnboundLocalError | AxisError.

Inductive result (A : Type) : Type :=
  | Ok (a : A)
  | Raise (e : exn).
Arguments Ok {A} a.
Arguments Raise {A} e.

#[global] Instance exn_eq_dec : EqDecision exn.
Proof. solve_decision. Defined.
#[global] Instance result_eq_dec {A : Type} `{EqDecision A} : EqDecision (result A).
Proof. solve_decision. Defined.

(** ** Tensor unfolding *)

(** [np.moveaxis(tensor, mode, 0)] on a three-dimensional array: axis
    [mode] comes first, the other two keep their order. *)
Definition np_moveaxis_front (T : ten) (mode : nat) : result ten :=
  let '(m, n, f) := shape3 T in
  match mode with
  | 0 => Ok T
  | 1 => Ok (mk_ten n m f (fun j i t => tget T i j t))
  | 2 => Ok (mk_ten f m n (fun t i j => tget T i j t))
  | _ => Raise AxisError
  end.

(** [np.reshape(A, (rows, -1), order = 'F')]: the elements are read with
    the first index changing fastest and written the same way, so that
    element [p] of the Fortran-order enumeration lands at row [p mod rows],
    column [p / rows].  numpy infers the number of columns from [rows]; for
    [rows = 0] it cannot and raises, a shape error like the others that are
    not modelled: the statements on unfoldings are about tensors without an
    empty axis. *)
Definition np_reshape_F (A : ten) (rows : nat) : mat :=
  let '(d0, d1, d2) := shape3 A in
  let cols := (d0 * d1 * d2) / rows in
  mk_mat rows cols (fun a c =>
    let p := a + rows * c in
    tget A (p mod d0) ((p / d0) mod d1) (p / (d0 * d1))).

Definition shape_at (T : ten) (mode : nat) : nat :=
  let '(m, n, f) := shape3 T in
  match mode with 0 => m | 1 => n | _ => f end.

Definition ten2mat (T : ten) (mode : nat) : result mat :=
  match np_moveaxis_front T mode with
  | Ok A => Ok (np_reshape_F A (shape_at T mode))
  | Raise e => Raise e
  end.

(** Modelled from the spec: the re-folding of a mode-[k] unfolding, which
    the notebook does not define.  The spec fixes its convention: mode [k]
    is the leading axis of the matrix and the remaining two axes are
    flattened in Fortran order (the earlier axis changes fastest).  [dim]
    is the shape of the tensor to rebuild. *)
Definition mat2ten (M : mat) (dim : nat * nat * nat) (mode : nat) : ten :=
  let '(m, n, f) := dim in
  match mode with
  | 0 => mk_ten m n f (fun i j t => mget M i (j + n * t))
  | 1 => mk_ten m n f (fun i j t => mget M j (i + m * t))
  | _ => mk_ten m n f (fun i j t => mget M t (i + m * j))
  end.

(** ** Scalars and elementwise arithmetic *)

(** A Python [int] used as a float. *)
Definition Qn (n : nat) : Qc := Qc_of_Z (Z.of_nat n).

Definition sumQ (l : list Qc) : Qc := foldr Qcplus 0%Qc l.

(** [sum_upto n f] is the sum of [f 0], ..., [f (n - 1)]. *)
Definition sum_upto (n : nat) (f : nat -> Qc) : Qc := sumQ (tabulate n f).

Definition vadd (u v : vec) : vec := zip_with Qcplus u v.
Definition vsub (u v : vec) : vec := zip_with Qcminus u v.
Definition vmul (u v : vec) : vec := zip_with Qcmult u v.
Definition vscale (a : Qc) (v : vec) : vec := map (Qcmult a) v.
Definition vdiv (v : vec) (a : Qc) : vec := map (fun x => (x / a)%Qc) v.

Definition madd (A B : mat) : mat := zip_with vadd A B.
Definition mscale (a : Qc) (A : mat) : mat := map (vscale a) A.
Definition mdiv (A : mat) (a : Qc) : mat := map (fun r => vdiv r a) A.

Definition tadd (S T : ten) : ten := zip_with madd S T.
Definition tsub (S T : ten) : ten := zip_with (zip_with vsub) S T.
Definition tscale (a : Qc) (T : ten) : ten := map (mscale a) T.
Definition tdiv (T : ten) (a : Qc) : ten := map (fun A => mdiv A a) T.

(** [np.zeros] and [np.eye]. *)
Definition vzeros (n : nat) : vec := mk_vec n (fun _ => 0%Qc).
Definition mzeros (r c : nat) : mat := mk_mat r c (fun _ _ => 0%Qc).
Definition tzeros (dim : nat * nat * nat) : ten :=
  let '(m, n, f) := dim in mk_ten m n f (fun _ _ _ => 0%Qc).
Definition eye (n : nat) : mat :=
  mk_mat n n (fun i j => if decide (i = j) then 1%Qc else 0%Qc).

(** [M.T], [A @ B] for two matrices, [A @ v] for a matrix and a vector,
    [np.outer(u, v)] (also [np.einsum('i, j -> ij', u, v)]). *)
Definition transpose (M : mat) : mat :=
  mk_mat (ncols M) (nrows M) (fun j i => mget M i j).
Definition matmul (A B : mat) : mat :=
  mk_mat (nrows A) (ncols B) (fun i j =>
    sum_upto (ncols A) (fun l => (mget A i l * mget B l j)%Qc)).
Definition matvec (A : mat) (v : vec) : vec :=
  mk_vec (nrows A) (fun i => sum_upto (ncols A) (fun l => (mget A i l * vget v l)%Qc)).
Definition outer (u v : vec) : mat :=
  mk_mat (length u) (length v) (fun i j => (vget u i * vget v j)%Qc).

(** [np.mean(mat, axis = 0)]: the mean of every column. *)
Definition np_mean_axis0 (M : mat) : vec :=
  mk_vec (ncols M) (fun j =>
    (sum_upto (nrows M) (fun i => mget M i j) / Qn (nrows M))%Qc).

(** ** Reshaping in C order *)

(** [A.reshape(rows, -1)] of a three-dimensional array: element [q] of the
    row-major enumeration of [A] lands at row [q / cols], column
    [q mod cols]. *)
Definition np_reshape_C (A : ten) (rows : nat) : mat :=
  let '(d0, d1, d2) := shape3 A in
  let cols := (d0 * d1 * d2) / rows in
  mk_mat rows cols (fun p s =>
    let q := p * cols + s in
    tget A (q / (d1 * d2)) ((q / d2) mod d1) (q mod d2)).

(** [M.reshape([a, b, c])] of a matrix, row-major as well. *)
Definition np_reshape_C3 (M : mat) (a b c : nat) : ten :=
  mk_ten a b c (fun x y z =>
    let q := (x * b + y) * c + z in
    mget M (q / ncols M) (q mod ncols M)).

(** [np.dstack] of a list of equally shaped matrices, and of a list of
    equally long vectors (each of which numpy first views as an array of
    shape [(1, len, 1)]): the list index becomes the last axis. *)
Definition np_dstack (Ms : list mat) : ten :=
  let A := nth 0 Ms [] in
  mk_ten (nrows A) (ncols A) (length Ms) (fun a b i => mget (nth i Ms []) a b).
Definition np_dstack_vec (vs : list vec) : ten :=
  let v := nth 0 vs [] in
  mk_ten 1 (length v) (length vs) (fun _ a i => vget (nth i vs []) a).

(** [T[:, :, i]] and [M[:, i]]. *)
Definition tslice_last (T : ten) (i : nat) : mat :=
  let '(a, b, _) := shape3 T in mk_mat a b (fun x y => tget T x y i).
Definition mcol (M : mat) (i : nat) : vec :=
  mk_vec (nrows M) (fun x => mget M x i).

(** ** Linear-algebra kernels of the notebook *)

Definition einsum_ir_jr_ijr (a b : mat) : ten :=
  mk_ten (nrows a) (nrows b) (ncols a) (fun i j r => (mget a i r * mget b j r)%Qc).

Definition kr_prod (a b : mat) : mat :=
  np_reshape_C (einsum_ir_jr_ijr a b) (nrows a * nrows b).

(** A Python list indexed at [k]. *)
Definition py_index {A : Type} (l : list A) (k : nat) : result A :=
  match l !! k with
  | Some x => Ok x
  | None => Raise IndexError
  end.

Definition einsum_is_js_ts_ijt (U V X : mat) : ten :=
  mk_ten (nrows U) (nrows V) (nrows X) (fun i j t =>
    sum_upto (ncols U) (fun s => (mget U i s * mget V j s * mget X t s)%Qc)).

Definition cp_combine (var : list mat) : result ten :=
  match py_index var 0, py_index var 1, py_index var 2 with
  | Ok U, Ok V, Ok X => Ok (einsum_is_js_ts_ijt U V X)
  | Raise e, _, _ | _, Raise e, _ | _, _, Raise e => Raise e
  end.

Definition cov_mat (M : mat) : mat :=
  let dim1 := nrows M in
  let dim2 := ncols M in
  let new_mat := mzeros dim2 dim2 in
  let mat_bar := np_mean_axis0 M in
  fold_left
    (fun new_mat i =>
       madd new_mat (outer (vsub (mrow M i) mat_bar) (vsub (mrow M i) mat_bar)))
    (seq 0 dim1) new_mat.

(** ** [np.where] and indexing with its result *)

Definition idx3 : Type := nat * nat * nat.

(** All index triples of an array of shape [dim], in row-major order. *)
Definition indices3 (dim : nat * nat * nat) : list idx3 :=
  let '(m, n, f) := dim in
  flat_map (fun i =>
    flat_map (fun j => map (fun t => (i, j, t)) (seq 0 f)) (seq 0 n)) (seq 0 m).

Definition indices2 (r c : nat) : list (nat * nat) :=
  flat_map (fun i => map (fun j => (i, j)) (seq 0 c)) (seq 0 r).

Definition tat (T : ten) (p : idx3) : Qc := tget T p.1.1 p.1.2 p.2.

(** [np.where(cond)] for a condition evaluated entrywise over the shape
    [dim]. *)
Definition np_where3 (dim : nat * nat * nat) (cond : idx3 -> bool) : list idx3 :=
  List.filter cond (indices3 dim).

(** [np.where(M != 0)] for a matrix. *)
Definition np_where_nonzero2 (M : mat) : list (nat * nat) :=
  List.filter (fun p => bool_decide (mget M p.1 p.2 <> 0%Qc))
    (indices2 (nrows M) (ncols M)).

(** [T[pos]] and [T[pos] = v] for [pos] a result of [np.where]. *)
Definition tindex (T : ten) (pos : list idx3) : vec := map (tat T) pos.
Definition tassign (T : ten) (pos : list idx3) (v : Qc) : ten :=
  let '(m, n, f) := shape3 T in
  mk_ten m n f (fun i j t =>
    if bool_decide ((i, j, t) ∈ pos) then v else tget T i j t).

(** ** Results of numpy divisions that may leave the finite floats *)

(** numpy's true division does not raise on a zero divisor: it warns and
    yields [inf] or [nan].  [NonFinite] stands for either. *)
Inductive npfloat : Type :=
  | Finite (x : Qc)
  | NonFinite.

#[global] Instance npfloat_eq_dec : EqDecision npfloat.
Proof. solve_decision. Defined.

Definition np_true_divide (x y : Qc) : npfloat :=
  if decide (y = 0%Qc) then NonFinite else Finite (x / y)%Qc.

Definition np_add_ext (x y : npfloat) : npfloat :=
  match x, y with
  | Finite a, Finite b => Finite (a + b)%Qc
  | _, _ => NonFinite
  end.

Definition np_sum_ext (l : list npfloat) : npfloat :=
  foldr np_add_ext (Finite 0%Qc) l.

Definition np_divide_count (s : npfloat) (n : nat) : npfloat :=
  match s with
  | Finite x => np_true_divide x (Qn n)
  | NonFinite => NonFinite
  end.

(** ** The library interface and the sampling monad *)

(** What the notebook imports: [numpy.linalg.inv], [numpy.sqrt], and the
    three samplers, each reading and advancing the global generator. *)
Class NumpyLib : Type := {
  rng_state : Type;
  inv : mat -> mat;
  np_sqrt : Qc -> Qc;
  mvnrnd : vec -> mat -> rng_state -> vec * rng_state;
  wishart_rvs : Qc -> mat -> rng_state -> mat * rng_state;
  np_random_gamma : Qc -> Qc -> rng_state -> Qc * rng_state
}.

(** The lines [BGCP] prints. *)
Inductive line : Type :=
  | Line_Iter (n : nat)
  | Line_MAPE (x : npfloat)
  | Line_RMSE (x : npfloat)
  | Line_Imputation_MAPE (x : npfloat)
  | Line_Imputation_RMSE (x : npfloat)
  | Line_blank.

Record world `{NumpyLib} : Type := World {
  rng : rng_state;
  stdout : list line
}.

Definition M `{NumpyLib} (A : Type) : Type := world -> result A * world.

#[global] Instance result_ret : MRet result := fun A a => Ok a.
#[global] Instance result_bind : MBind result := fun A B f r =>
  match r with
  | Ok a => f a
  | Raise e => Raise e
  end.

#[global] Instance M_ret `{NumpyLib} : MRet M := fun A a w => (Ok a, w).
#[global] Instance M_bind `{NumpyLib} : MBind M := fun A B f m w =>
  match m w with
  | (Ok a, w') => f a w'
  | (Raise e, w') => (Raise e, w')
  end.

Section Monad.
Context `{NumpyLib}.

Definition liftR {A : Type} (r : result A) : M A := fun w => (r, w).

(** A call of a sampler: the draw comes back, the generator advances. *)
Definition draw {A : Type} (s : rng_state -> A * rng_state) : M A := fun w =>
  let '(a, g) := s (rng w) in (Ok a, {| rng := g; stdout := stdout w |}).

Definition print (ls : list line) : M unit := fun w =>
  (Ok tt, {| rng := rng w; stdout := stdout w ++ ls |}).

(** [for x in xs: st = body st x]. *)
Fixpoint for_loop {S X : Type} (xs : list X) (st : S) (body : S -> X -> M S) : M S :=
  match xs with
  | [] => mret st
  | x :: xs' => st' ← body st x; for_loop xs' st' body
  end.
End Monad.

(** The same loop for code that draws nothing. *)
Fixpoint for_loopR {S X : Type} (xs : list X) (st : S) (body : S -> X -> result S)
  : result S :=
  match xs with
  | [] => Ok st
  | x :: xs' => st' ← body st x; for_loopR xs' st' body
  end.

(** ** Subscripts along one axis *)

(** [T[k, :, :]], [T[:, k, :]] and [T[:, :, k]]; numpy raises [IndexError]
    when [k] is not below the size of the axis. *)
Definition np_slice0 (T : ten) (k : nat) : result mat :=
  let '(m, n, f) := shape3 T in
  if bool_decide (k < m) then Ok (tslice T k) else Raise IndexError.
Definition np_slice1 (T : ten) (k : nat) : result mat :=
  let '(m, n, f) := shape3 T in
  if bool_decide (k < n) then Ok (mk_mat m f (fun i t => tget T i k t))
  else Raise IndexError.
Definition np_slice2 (T : ten) (k : nat) : result mat :=
  let '(m, n, f) := shape3 T in
  if bool_decide (k < f) then Ok (mk_mat m n (fun i j => tget T i j k))
  else Raise IndexError.

(** ** Sampling a factor matrix *)

Definition half : Qc := Q2Qc (1 # 2).

(** [(L + L.T) / 2]. *)
Definition symmetrize (L : mat) : mat := mdiv (madd L (transpose L)) 2%Qc.

(** The three tests that force the per-row strategy on large inputs. *)
Definition strategy (sparse_tensor : ten) (dim rank vargin : nat) : nat :=
  let big := bool_decide (10 ^ 8 < Z.of_nat dim * Z.of_nat rank ^ 2)%Z in
  let '(m, n, f) := shape3 sparse_tensor in
  let size := (m * n * f)%nat in
  let big_other :=
    match dim with
    | 0 => bool_decide (0 < size)%nat && bool_decide (0 < rank)%nat
    | _ => bool_decide (Qc_of_Z (10 ^ 8) < Qn size / Qn dim * Qn (rank ^ 2))%Qc
    end in
  let vargin := if big then 1 else vargin in
  let vargin := if big_other then 1 else vargin in
  let vargin := if big then 1 else vargin in
  vargin.

(** [var1] of the dense strategy. *)
Definition dense_var1 (factor : list mat) (k : nat) : result mat :=
  match k with
  | 0 => a ← py_index factor (k + 2); b ← py_index factor (k + 1);
         Ok (transpose (kr_prod a b))
  | 1 => a ← py_index factor (k + 1); b ← py_index factor (k - 1);
         Ok (transpose (kr_prod a b))
  | 2 => a ← py_index factor (k - 1); b ← py_index factor (k - 2);
         Ok (transpose (kr_prod a b))
  | _ => Raise UnboundLocalError
  end.

(** [var3] and [var4] of the dense strategy: the stacked precision
    matrices and the matrix whose columns are the right-hand sides. *)
Definition dense_var3 (binary_k : mat) (tau : Qc) (var1 var_Lambda_hyper : mat)
    (rank dim : nat) : ten :=
  let var2 := kr_prod var1 var1 in
  tadd (tscale tau (np_reshape_C3 (matmul var2 (transpose binary_k)) rank rank dim))
       (np_dstack (replicate dim var_Lambda_hyper)).

Definition dense_var4 (sparse_k : mat) (tau : Qc) (var1 : mat)
    (var_mu_hyper : vec) (var_Lambda_hyper : mat) (dim : nat) : mat :=
  madd (matmul (mscale tau var1) (transpose sparse_k))
       (tslice (np_dstack_vec (replicate dim (matvec var_Lambda_hyper var_mu_hyper))) 0).

(** The inner loop [for t in range(len(pos0[0]))] of the per-row strategy
    for mode [k]: the running [temp1] and [temp2] over the coordinates
    [pos0] of the slice. *)
Definition sparse_temps (sparse_tensor : ten) (factor : list mat) (k rank : nat)
    (pos0 : list (nat * nat)) : result (vec * mat) :=
  for_loopR pos0 (vzeros rank, mzeros rank rank) (fun temps p =>
    let '(temp1, temp2) := temps in
    match k with
    | 0 =>
        a ← py_index factor (k + 1); b ← py_index factor (k + 2);
        let var := vmul (mrow a p.1) (mrow b p.2) in
        Ok (vadd temp1 (map (fun x => x * tget sparse_tensor k p.1 p.2)%Qc var),
            madd temp2 (outer var var))
    | 1 =>
        a ← py_index factor (k - 1); b ← py_index factor (k + 1);
        let var := vmul (mrow a p.1) (mrow b p.2) in
        Ok (vadd temp1 (map (fun x => x * tget sparse_tensor p.1 k p.2)%Qc var),
            madd temp2 (outer var var))
    | _ =>
        a ← py_index factor (k - 2); b ← py_index factor (k - 1);
        let var := vmul (mrow a p.1) (mrow b p.2) in
        Ok (vadd temp1 (map (fun x => x * tget sparse_tensor p.1 p.2 k)%Qc var),
            madd temp2 (outer var var))
    end).

(** [pos0] of the per-row strategy. *)
Definition sparse_pos0 (binary_tensor : ten) (k : nat) : result (list (nat * nat)) :=
  slice ← match k with
          | 0 => np_slice0 binary_tensor k
          | 1 => np_slice1 binary_tensor k
          | _ => np_slice2 binary_tensor k
          end;
  Ok (np_where_nonzero2 slice).

Section Samplers.
Context `{NumpyLib}.

(** The body of [for i in range(dim)] in the dense strategy. *)
Definition dense_row (var3 : ten) (var4 : mat) (Fk : mat) (i : nat) : M mat :=
  let var_Lambda := tslice_last var3 i in
  let inv_var_Lambda := inv (symmetrize var_Lambda) in
  row ← draw (mvnrnd (matvec inv_var_Lambda (mcol var4 i)) inv_var_Lambda);
  mret (<[i := row]> Fk).

(** The body of [for i in range(dim)] in the per-row strategy (lines
    407-418, 420-431 and 433-444, which differ in their subscripts only).
    The slice of the mask and the entries of the tensor are subscripted with
    [k], as the notebook writes them; [i] names the row that is assigned. *)
Definition sparse_row (sparse_tensor binary_tensor : ten) (tau : Qc)
    (factor : list mat) (var_mu0 : vec) (var_Lambda_hyper : mat) (k rank : nat)
    (Fk : mat) (i : nat) : M mat :=
  pos0 ← liftR (sparse_pos0 binary_tensor k);
  '(temp1, temp2) ← liftR (sparse_temps sparse_tensor factor k rank pos0);
  let var_Lambda := madd (mscale tau temp2) var_Lambda_hyper in
  let inv_var_Lambda := inv (symmetrize var_Lambda) in
  let var_mu := matvec inv_var_Lambda (vadd (vscale tau temp1) var_mu0) in
  row ← draw (mvnrnd var_mu inv_var_Lambda);
  mret (<[i := row]> Fk).

(** Lines 379-445.  The notebook assigns the rows of [factor[k]] in place
    and returns that matrix; here the updated matrix is the result, which
    [BGCP] stores back as [factor[k]]. *)
Definition sample_factor (sparse_tensor binary_tensor : ten) (tau : Qc)
    (factor : list mat) (var_mu_hyper : vec) (var_Lambda_hyper : mat)
    (k vargin : nat) : M mat :=
  Fk ← liftR (py_index factor k);
  let dim := nrows Fk in
  let rank := ncols Fk in
  match strategy sparse_tensor dim rank vargin with
  | 0 =>
      var1 ← liftR (dense_var1 factor k);
      binary_k ← liftR (ten2mat binary_tensor k);
      let var3 := dense_var3 binary_k tau var1 var_Lambda_hyper rank dim in
      sparse_k ← liftR (ten2mat sparse_tensor k);
      let var4 := dense_var4 sparse_k tau var1 var_mu_hyper var_Lambda_hyper dim in
      for_loop (seq 0 dim) Fk (dense_row var3 var4)
  | 1 =>
      let var_mu0 := matvec var_Lambda_hyper var_mu_hyper in
      match k with
      | 0 | 1 | 2 =>
          for_loop (seq 0 dim) Fk
            (sparse_row sparse_tensor binary_tensor tau factor var_mu0
               var_Lambda_hyper k rank)
      | _ => mret Fk
      end
  | _ => mret Fk
  end.

(** Lines 465-468.  ([var_beta] is 0 only for a [beta] that is not
    positive, which is no Gamma prior; numpy then passes the scale [inf].) *)
Definition sample_precision_tau (sparse_tensor tensor_hat : ten)
    (pos_train : list idx3) (alpha beta : Qc) : M Qc :=
  let var_alpha := (alpha + half * Qn (length (tindex sparse_tensor pos_train)))%Qc in
  let var_beta :=
    (beta + half * sumQ (map (fun x => x ^ 2)
                           (tindex (tsub sparse_tensor tensor_hat) pos_train)))%Qc in
  draw (np_random_gamma var_alpha (1 / var_beta)%Qc).

(** Lines 531-539. *)
Definition sample_hyperparameter (factor_k : mat) (mu0 : vec) (beta0 : Qc)
    (W0 : mat) (nu0 : Qc) : M (vec * mat) :=
  let dim := Qn (nrows factor_k) in
  let mat_bar := np_mean_axis0 factor_k in
  let var_mu_hyper :=
    vdiv (vadd (vscale dim mat_bar) (vscale beta0 mu0)) (dim + beta0)%Qc in
  let var_W_hyper :=
    inv (madd (madd (inv W0) (cov_mat factor_k))
              (mscale (dim * beta0 / (dim + beta0))%Qc
                      (outer (vsub mat_bar mu0) (vsub mat_bar mu0)))) in
  var_Lambda_hyper ← draw (wishart_rvs (dim + nu0)%Qc var_W_hyper);
  var_mu_hyper ← draw (mvnrnd var_mu_hyper
                         (inv (mscale (dim + beta0)%Qc var_Lambda_hyper)));
  mret (var_mu_hyper, var_Lambda_hyper).

(** ** Metrics (lines 558-562)

    Both arguments hold finite floats; [NonFinite] is the [inf] or [nan]
    of a division by zero.  With an estimate that itself holds [nan] or
    [inf], or on overflow, numpy returns a non-finite value as well; such
    inputs are outside the model. *)

Definition compute_mape (var var_hat : vec) : npfloat :=
  np_divide_count
    (np_sum_ext (zip_with np_true_divide (map Qcabs (vsub var var_hat)) var))
    (length var).

Definition compute_rmse (var var_hat : vec) : npfloat :=
  match np_true_divide (sumQ (map (fun x => x ^ 2)%Qc (vsub var var_hat)))
                       (Qn (length var)) with
  | Finite x => Finite (np_sqrt x)
  | NonFinite => NonFinite
  end.

(** ** The Gibbs sampler *)

(** The local variables of [BGCP] that its loop assigns. *)
Record locals : Type := Locals {
  factor : list mat;
  tau : Qc;
  factor_plus : list mat;
  tensor_hat_plus : ten
}.

Definition dims_of (T : ten) : list nat :=
  let '(m, n, f) := shape3 T in [m; n; f].

Section Run.
Variables (dense_tensor sparse_tensor : ten) (burn_iter gibbs_iter : nat).

Definition dim : list nat := dims_of sparse_tensor.
Definition pos_train : list idx3 :=
  np_where3 (shape3 sparse_tensor)
    (fun p => bool_decide (tat sparse_tensor p <> 0%Qc)).
Definition pos_test : list idx3 :=
  np_where3 (shape3 sparse_tensor)
    (fun p => bool_decide (tat dense_tensor p <> 0%Qc)
              && bool_decide (tat sparse_tensor p = 0%Qc)).
Definition binary_tensor : ten :=
  tassign (tzeros (shape3 sparse_tensor)) pos_train 1%Qc.

Definition alpha : Qc := Q2Qc (1 # 1000000).
Definition beta : Qc := Q2Qc (1 # 1000000).

(** Lines 602-604: the body of [for k in range(len(dim))]. *)
Definition mode_update (rank : nat) (st : locals) (k : nat) : M locals :=
  let beta0 := 1%Qc in
  let nu0 := Qn rank in
  let mu0 := vzeros rank in
  let W0 := eye rank in
  Fk ← liftR (py_index (factor st) k);
  '(var_mu_hyper, var_Lambda_hyper) ← sample_hyperparameter Fk mu0 beta0 W0 nu0;
  Fk' ← sample_factor sparse_tensor binary_tensor (tau st) (factor st)
          var_mu_hyper var_Lambda_hyper k 0;
  mret (Locals (<[k := Fk']> (factor st)) (tau st)
               (factor_plus st) (tensor_hat_plus st)).

(** Lines 610-614. *)
Definition monitor (it : nat) (tensor_hat : ten) : M unit :=
  if bool_decide ((it + 1) mod 5 = 0) && bool_decide (it < burn_iter) then
    print [Line_Iter (it + 1);
           Line_MAPE (compute_mape (tindex dense_tensor pos_test)
                                   (tindex tensor_hat pos_test));
           Line_RMSE (compute_rmse (tindex dense_tensor pos_test)
                                   (tindex tensor_hat pos_test));
           Line_blank]
  else mret tt.

(** Lines 607-609: the accumulators grow once the burn-in is over;
    the freshly drawn [tau'] is what line 606 assigned. *)
Definition accumulate (it : nat) (st : locals) (tau' : Qc) (tensor_hat : ten)
  : M locals :=
  if bool_decide (burn_iter < it + 1) then
    factor_plus' ← liftR (mapM (fun k =>
                       a ← py_index (factor_plus st) k;
                       b ← py_index (factor st) k;
                       Ok (madd a b)) (seq 0 (length dim)));
    mret (Locals (factor st) tau' factor_plus'
                 (tadd (tensor_hat_plus st) tensor_hat))
  else
    mret (Locals (factor st) tau' (factor_plus st) (tensor_hat_plus st)).

(** Lines 601-614: the body of [for it in range(burn_iter + gibbs_iter)]. *)
Definition sweep (rank : nat) (st : locals) (it : nat) : M locals :=
  st ← for_loop (seq 0 (length dim)) st (mode_update rank);
  tensor_hat ← liftR (cp_combine (factor st));
  tau' ← sample_precision_tau sparse_tensor tensor_hat pos_train alpha beta;
  st ← accumulate it st tau' tensor_hat;
  _ ← monitor it tensor_hat;
  mret st.

(** Lines 618-622: the final metrics are printed, the estimates returned. *)
Definition report (tensor_hat : ten) (factor_out : list mat) : M (ten * list mat) :=
  _ ← print [Line_Imputation_MAPE
               (compute_mape (tindex dense_tensor pos_test)
                             (tindex tensor_hat pos_test));
             Line_Imputation_RMSE
               (compute_rmse (tindex dense_tensor pos_test)
                             (tindex tensor_hat pos_test));
             Line_blank];
  mret (tensor_hat, factor_out).

(** Lines 616-622: the accumulated sums are divided by [gibbs_iter].  For
    [gibbs_iter = 0] numpy fills the estimates with [nan] and prints [nan]
    metrics; the division below is what the code computes only for
    [0 < gibbs_iter]. *)
Definition finish (st : locals) : M (ten * list mat) :=
  let factor_out := map (fun i => mdiv i (Qn gibbs_iter)) (factor_plus st) in
  let tensor_hat := tdiv (tensor_hat_plus st) (Qn gibbs_iter) in
  report tensor_hat factor_out.

(** Lines 581-599: what [BGCP] binds before its loop. *)
Definition initial (factor0 : list mat) (rank : nat) : locals :=
  let tau0 := 1%Qc in
  let factor_plus0 := map (fun d => mzeros d rank) dim in
  let tensor_hat_plus0 := tzeros (shape3 sparse_tensor) in
  Locals factor0 tau0 factor_plus0 tensor_hat_plus0.

Definition BGCP (factor0 : list mat) : M (ten * list mat) :=
  F0 ← liftR (py_index factor0 0);
  let rank := ncols F0 in
  st ← for_loop (seq 0 (burn_iter + gibbs_iter)) (initial factor0 rank) (sweep rank);
  finish st.
End Run.
End Samplers.

(** ** Reference formulas

    The definitions below restate, entry by entry, the quantities that the
    notebook's text gives for each conditional posterior.  The theorems
    compare them with what the code computes. *)

(** An index triple inside an array of shape [dim]. *)
Definition in_range3 (dim : nat * nat * nat) (p : idx3) : Prop :=
  p.1.1 < dim.1.1 /\ p.1.2 < dim.1.2 /\ p.2 < dim.2.


(** The mean of the rows of a [dim] x [rank] matrix, and the scatter of
    its rows about that mean, not divided by the number of rows. *)
Definition row_mean (dim rank : nat) (F : mat) : vec :=
  mk_vec rank (fun j => (sum_upto dim (fun i => mget F i j) / Qn dim)%Qc).

Definition row_scatter (dim rank : nat) (F : mat) : mat :=
  let mbar := row_mean dim rank F in
  mk_mat rank rank (fun a b =>
    sum_upto dim (fun i =>
      ((mget F i a - vget mbar a) * (mget F i b - vget mbar b))%Qc)).


(** ** The conditional posterior of one factor row

    For row [i] of mode [k] the text of the notebook sums over the
    coordinates of the two other modes at which the tensor is observed.
    [cofactor_pair] gives the factor matrices of those two modes, the later
    mode first, and [entry_at T k i q p] the entry of [T] at row [i] of mode
    [k], index [q] of the earlier and [p] of the later of the other modes. *)

Definition cofactor_pair (factor : list mat) (k : nat) : mat * mat :=
  match k with
  | 0 => (nth 2 factor [], nth 1 factor [])
  | 1 => (nth 2 factor [], nth 0 factor [])
  | _ => (nth 1 factor [], nth 0 factor [])
  end.

Definition entry_at (T : ten) (k i q p : nat) : Qc :=
  match k with
  | 0 => tget T i q p
  | 1 => tget T q i p
  | _ => tget T q p i
  end.

(** The size of mode [k] of an [m] x [n] x [f] tensor, and the sizes of the
    later and the earlier of its two other modes. *)
Definition dim_of (m n f k : nat) : nat :=
  match k with 0 => m | 1 => n | _ => f end.
Definition later_dim (m n f k : nat) : nat :=
  match k with 0 => f | 1 => f | _ => n end.
Definition earlier_dim (m n f k : nat) : nat :=
  match k with 0 => n | 1 => m | _ => m end.

Definition msum (rank : nat) (Ms : list mat) : mat := foldr madd (mzeros rank rank) Ms.
Definition vsum (rank : nat) (vs : list vec) : vec := foldr vadd (vzeros rank) vs.

(** The coordinates [(p, q)] observed together with row [i] of mode [k]:
    those at which the sparse tensor is not the zero sentinel. *)
Definition observed_with (sparse_tensor : ten) (factor : list mat) (k i : nat)
  : list (nat * nat) :=
  let '(P, Q) := cofactor_pair factor k in
  List.filter (fun pq => bool_decide (entry_at sparse_tensor k i pq.2 pq.1 <> 0%Qc))
    (indices2 (nrows P) (nrows Q)).

(** The row of the Khatri-Rao product of the two other modes at [(p, q)]. *)
Definition kr_row (factor : list mat) (k : nat) (pq : nat * nat) : vec :=
  let '(P, Q) := cofactor_pair factor k in vmul (mrow P pq.1) (mrow Q pq.2).

(** [tau * (sum over the observed coordinates of c c^T) + Lambda_hyper]. *)
Definition posterior_precision (sparse_tensor : ten) (tau : Qc) (factor : list mat)
    (var_Lambda_hyper : mat) (rank k i : nat) : mat :=
  madd (mscale tau
          (msum rank (map (fun pq => outer (kr_row factor k pq) (kr_row factor k pq))
                          (observed_with sparse_tensor factor k i))))
       var_Lambda_hyper.

(** [tau * (sum over the observed coordinates of y c) + Lambda_hyper mu_hyper]. *)
Definition posterior_rhs (sparse_tensor : ten) (tau : Qc) (factor : list mat)
    (var_mu_hyper : vec) (var_Lambda_hyper : mat) (rank k i : nat) : vec :=
  vadd (vscale tau
          (vsum rank (map (fun pq =>
                            vscale (entry_at sparse_tensor k i pq.2 pq.1)
                                   (kr_row factor k pq))
                          (observed_with sparse_tensor factor k i))))
       (matvec var_Lambda_hyper var_mu_hyper).


(** ** The sampler's schedule, written out

    Three descriptions of the loop of [BGCP] that make explicit what the
    loop leaves implicit in its local variables: which tau each factor
    update receives, and which samples reach the accumulators. *)

Section Schedule.
Context `{NumpyLib}.
Variables (dense_tensor sparse_tensor : ten) (burn_iter rank : nat).

(** One factor update with the precision [tau_now] given from outside. *)
Definition factor_step (tau_now : Qc) (factor : list mat) (k : nat) : M (list mat) :=
  Fk ← liftR (py_index factor k);
  '(var_mu_hyper, var_Lambda_hyper) ←
     sample_hyperparameter Fk (vzeros rank) 1%Qc (eye rank) (Qn rank);
  Fk' ← sample_factor sparse_tensor (binary_tensor sparse_tensor) tau_now factor
          var_mu_hyper var_Lambda_hyper k 0;
  mret (<[k := Fk']> factor).

(** The three factor updates of one sweep, all with the same [tau_now]. *)
Definition factor_updates (tau_now : Qc) (factor : list mat) : M (list mat) :=
  for_loop [0; 1; 2] factor (factor_step tau_now).

(** The sweeps [its], started with precision [tau_now]: every sweep hands
    [tau_now] to its three factor updates and passes the Gamma draw made at
    its end on to the next sweep. *)
Fixpoint tau_schedule (its : list nat) (tau_now : Qc) (factor_now fplus : list mat)
    (tplus : ten) : M locals :=
  match its with
  | [] => mret (Locals factor_now tau_now fplus tplus)
  | it :: its' =>
      factor' ← factor_updates tau_now factor_now;
      tensor_hat ← liftR (cp_combine factor');
      tau_next ← sample_precision_tau sparse_tensor tensor_hat
                   (pos_train sparse_tensor) alpha beta;
      st ← accumulate sparse_tensor burn_iter it
             (Locals factor' tau_now fplus tplus) tau_next tensor_hat;
      _ ← monitor dense_tensor sparse_tensor burn_iter it tensor_hat;
      tau_schedule its' tau_next (factor st) (factor_plus st) (tensor_hat_plus st)
  end.

End Schedule.






(** ** What the printed lines say *)

(** A printed MAPE is the metric of some estimate against the held-out
    entries of the reference tensor. *)
Definition mape_over_test (dense_tensor sparse_tensor : ten) (l : line) : Prop :=
  let truth := tindex dense_tensor (pos_test dense_tensor sparse_tensor) in
  match l with
  | Line_MAPE x | Line_Imputation_MAPE x =>
      exists T, x = compute_mape truth (tindex T (pos_test dense_tensor sparse_tensor))
  | _ => True
  end.

(** A computation that touches stdout only by appending lines that
    satisfy [P]. *)
Definition emits `{NumpyLib} {A : Type} (P : line -> Prop) (m : M A) : Prop :=
  forall w r w', m w = (r, w') ->
    exists ls, stdout w' = stdout w ++ ls /\ Forall P ls.

(** ** A deterministic library and small inputs, for the examples *)

(** The inverse of a 1 x 1 or 2 x 2 matrix; larger matrices do not occur in
    the examples. *)
Definition inv_small (A : mat) : mat :=
  match A with
  | [[a]] => [[(1 / a)%Qc]]
  | [[a; b]; [c; d]] =>
      let det := (a * d - b * c)%Qc in
      [[(d / det)%Qc; (- b / det)%Qc]; [(- c / det)%Qc; (a / det)%Qc]]
  | _ => A
  end.

(** Every sampler returns the mean of its distribution; the generator
    state counts the draws made so far. *)
Definition mean_lib : NumpyLib := {|
  rng_state := nat;
  inv := inv_small;
  np_sqrt := fun x => x;
  mvnrnd := fun mean _ g => (mean, S g);
  wishart_rvs := fun df scale g => (mscale df scale, S g);
  np_random_gamma := fun shape scale g => ((shape * scale)%Qc, S g)
|}.

Definition Qz (z : Z) : Qc := Qc_of_Z z.
Definition mat_of (l : list (list Z)) : mat := map (map Qz) l.
Definition ten_of (l : list (list (list Z))) : ten := map mat_of l.

(** A 2 x 2 x 3 tensor with five missing entries, its fully observed
    counterpart, and rank-2 factor matrices for its three modes. *)
Definition ex_sparse : ten :=
  ten_of [[[1; 0; 2]; [0; 3; 1]]; [[0; 2; 0]; [4; 0; 1]]]%Z.
Definition ex_dense : ten :=
  ten_of [[[1; 5; 2]; [2; 3; 1]]; [[1; 2; 3]; [4; 6; 1]]]%Z.
Definition ex_U : mat := mat_of [[1; 0]; [2; 1]]%Z.
Definition ex_V : mat := mat_of [[1; 1]; [0; 1]]%Z.
Definition ex_X : mat := mat_of [[1; 2]; [2; 0]; [1; 1]]%Z.
Definition ex_factor : list mat := [ex_U; ex_V; ex_X].
Definition ex_mu : vec := [Qz 0; Qz 0].
Definition ex_Lambda : mat := mat_of [[1; 0]; [0; 1]]%Z.
Definition ex_world : @world mean_lib := @World mean_lib 0%nat [].

(** ** The examples the notebook prints

    The inputs of the notebook's example cells (lines 128-130, 194-196 and
    260-262), whose printed output is recorded with it. *)
Definition nb_A : mat := mat_of [[1; 2]; [3; 4]]%Z.
Definition nb_B : mat := mat_of [[5; 6]; [7; 8]; [9; 10]]%Z.
Definition nb_factor : list mat :=
  [mat_of [[1; 2]; [3; 4]]%Z;
   mat_of [[1; 3]; [2; 4]; [5; 6]]%Z;
   mat_of [[1; 5]; [2; 6]; [3; 7]; [4; 8]]%Z].
Definition nb_X : ten :=
  ten_of [[[1; 2; 3; 4]; [3; 4; 5; 6]];
          [[5; 6; 7; 8]; [7; 8; 9; 10]];
          [[9; 10; 11; 12]; [11; 12; 13; 14]]]%Z.

(** ** Runs compared up to what they print *)

(** Two computations that, started from worlds with the same generator
    state, give the same result and leave the same generator state; what
    they print may differ. *)
Definition agree_off_stdout `{NumpyLib} {A : Type} (m1 m2 : M A) : Prop :=
  forall w1 w2, rng w1 = rng w2 ->
    (m1 w1).1 = (m2 w2).1 /\ rng (m1 w1).2 = rng (m2 w2).2.

(** Two outcomes that leave the same world and whose results are either
    related values or the same exception. *)
Definition outcomes_related `{NumpyLib} {A B : Type} (R : A -> B -> Prop)
    (o1 : result A * world) (o2 : result B * world) : Prop :=
  match o1.1, o2.1 with
  | Ok a, Ok b => R a b
  | Raise e1, Raise e2 => e1 = e2
  | _, _ => False
  end /\ o1.2 = o2.2.

(** A factor list with the matrices [rest] behind its first three, beside
    the list of those three. *)
Definition longer_by (rest : list mat) (F1 F2 : list mat) : Prop :=
  exists U V X, F1 = U :: V :: X :: rest /\ F2 = [U; V; X].

(** ** What [BGCP] prints *)

(** The four lines of a progress report (lines 611-614) and the three
    lines printed after the loop (lines 618-620), for given metrics. *)
Definition progress_block (it : nat) (metrics : npfloat * npfloat) : list line :=
  [Line_Iter (it + 1); Line_MAPE metrics.1; Line_RMSE metrics.2; Line_blank].
Definition final_block (metrics : npfloat * npfloat) : list line :=
  [Line_Imputation_MAPE metrics.1; Line_Imputation_RMSE metrics.2; Line_blank].

(** The test of line 610. *)
Definition reports (burn_iter it : nat) : bool :=
  bool_decide ((it + 1) mod 5 = 0) && bool_decide (it < burn_iter).

(** A library whose samplers return constants of the right shape, for
    runs of several sweeps; the generator state counts the draws. *)
Definition const_lib : NumpyLib := {|
  rng_state := nat;
  inv := fun A => A;
  np_sqrt := fun x => x;
  mvnrnd := fun mean _ g => (map (fun _ => 1%Qc) mean, S g);
  wishart_rvs := fun _ scale g => (eye (nrows scale), S g);
  np_random_gamma := fun _ _ g => (1%Qc, S g)
|}.
Definition const_world : @world const_lib := @World const_lib 0%nat [].

(** ** Shapes *)

(** What numpy and scipy promise about the shapes of the library calls:
    the inverse of a square matrix and a Wishart draw for a square scale
    matrix have the shape of their argument, and a Gaussian draw has the
    length of its mean. *)
Definition shape_laws `{NumpyLib} : Prop :=
  (forall r A, wf_mat r r A -> wf_mat r r (inv A))
  /\ (forall r mean cov g, wf_vec r mean -> wf_vec r (mvnrnd mean cov g).1)
  /\ (forall r df scale g, wf_mat r r scale -> wf_mat r r (wishart_rvs df scale g).1).

(** Three factor matrices of rank [r] for an [m] x [n] x [f] tensor. *)
Definition factor_shapes (m n f r : nat) (F : list mat) : Prop :=
  exists U V X, F = [U; V; X] /\ wf_mat m r U /\ wf_mat n r V /\ wf_mat f r X.

(** ** Further small inputs *)

(** A 2 x 2 x 2 tensor, too short along its last axis for the subscript
    [binary_tensor[:, :, 2]], and a 2 x 2 x 3 tensor whose first slice is
    entirely missing. *)
Definition ex_cube : ten := ten_of [[[1; 0]; [0; 3]]; [[0; 2]; [4; 0]]]%Z.
Definition ex_gap : ten := ten_of [[[0; 0; 0]; [0; 0; 0]]; [[0; 2; 0]; [4; 0; 1]]]%Z.

(** ** The evaluation cell (lines 659-672)

    The cell masks a sample of the observed entries of the loaded matrix
    and folds the matrix and its masked copy into tensors with 30 x 24
    entries per row.  [dense_mat] stands for the loaded matrix and
    [sample_ind] for the array [np.random.choice] returned. *)
Definition mask_observed (dense_mat : mat) (sample_ind : list nat) : result mat :=
  let pos_obs := np_where_nonzero2 dense_mat in
  picked ← mapM (py_index pos_obs) sample_ind;
  Ok (mk_mat (nrows dense_mat) (ncols dense_mat) (fun i j =>
        if bool_decide ((i, j) ∈ picked) then 0%Qc else mget dense_mat i j)).

Definition to_tensor (M : mat) : ten := np_reshape_C3 M (nrows M) 30 24.

(** A 2 x 720 matrix with three observed entries. *)
Definition ex_speed : mat :=
  mk_mat 2 720 (fun i j =>
    if bool_decide ((i, j) ∈ [(0, 0); (0, 25); (1, 719)]) then Qz 3 else 0%Qc).

(** ** Counting the draws *)

(** Any library, with a counter of sampler calls added to its generator
    state: every call of one of the three samplers advances the counter by
    one and otherwise does what the library does. *)
Definition counted (L : NumpyLib) : NumpyLib := {|
  rng_state := (@rng_state L * nat)%type;
  inv := @inv L;
  np_sqrt := @np_sqrt L;
  mvnrnd := fun mean cov gc =>
    let '(x, g) := @mvnrnd L mean cov gc.1 in (x, (g, S gc.2));
  wishart_rvs := fun df scale gc =>
    let '(x, g) := @wishart_rvs L df scale gc.1 in (x, (g, S gc.2));
  np_random_gamma := fun shape scale gc =>
    let '(x, g) := @np_random_gamma L shape scale gc.1 in (x, (g, S gc.2))
|}.

(** The number of sampler calls made so far. *)
Definition draws {L : NumpyLib} (w : @world (counted L)) : nat := (@rng (counted L) w).2.
Definition counted_world : @world (counted const_lib) :=
  @World (counted const_lib) (0%nat, 0%nat) [].
(** ** The conditional posteriors, entry by entry

    The quantities of the notebook's text written with sums of scalars
    only: no array operation of the code enters them.  The theorems on
    [sample_factor] and [sample_hyperparameter] state what reaches the
    library calls in these terms. *)






(** Entry [(a, b)] of [inv W0 + S + (dim * beta0 / (dim + beta0)) *
    (mbar - mu0) (mbar - mu0)^T], the matrix whose inverse is the scale of
    the Wishart draw. *)
Definition wishart_precision_entry `{NumpyLib} (dim rank : nat) (factor_k : mat)
    (mu0 : vec) (beta0 : Qc) (W0 : mat) (a b : nat) : Qc :=
  let mbar := row_mean dim rank factor_k in
  (mget (inv W0) a b
   + mget (row_scatter dim rank factor_k) a b
   + Qn dim * beta0 / (Qn dim + beta0)
     * ((vget mbar a - vget mu0 a) * (vget mbar b - vget mu0 b)))%Qc.

(** Hyper-parameters that are not symmetric and not zero, for the
    examples. *)
Definition ex_mu2 : vec := [Qz 1; Qz (-1)].
(** Closed decidable statements are settled by evaluation. *)
Ltac by_compute :=
  lazymatch goal with
  | |- ~ ?P => apply (bool_decide_eq_false_1 P); vm_compute; reflexivity
  | |- ?P => apply (bool_decide_eq_true_1 P); vm_compute; reflexivity
  end.

(** ** Basic facts about tabulated arrays *)

Section Tabulate.
Context {A : Type}.

Lemma length_tabulate n (f : nat -> A) : length (tabulate n f) = n.
Proof. unfold tabulate. by rewrite length_map, length_seq. Qed.

Lemma nth_tabulate n (f : nat -> A) i d :
  i < n -> nth i (tabulate n f) d = f i.
Proof.
  intros Hi. unfold tabulate.
  rewrite (nth_indep _ d (f 0)) by (rewrite length_map, length_seq; lia).
  rewrite map_nth, seq_nth; [done | lia].
Qed.

Lemma tabulate_ext n (f g : nat -> A) :
  (forall i, i < n -> f i = g i) -> tabulate n f = tabulate n g.
Proof.
  intros H. unfold tabulate. apply map_ext_in.
  intros i Hi. apply in_seq in Hi. apply H. lia.
Qed.

Lemma tabulate_nth (l : list A) d :
  tabulate (length l) (fun i => nth i l d) = l.
Proof.
  apply (nth_ext _ _ d d).
  - apply length_tabulate.
  - intros i Hi. rewrite length_tabulate in Hi. by apply nth_tabulate.
Qed.
End Tabulate.

Lemma vec_eta n (v : vec) : wf_vec n v -> v = mk_vec n (vget v).
Proof. intros <-. symmetry. apply tabulate_nth. Qed.

Lemma wf_mat_row r c M i : wf_mat r c M -> i < r -> wf_vec c (mrow M i).
Proof.
  intros [Hl Hr] Hi. rewrite Forall_forall in Hr. apply Hr.
  apply nth_In. lia.
Qed.

Lemma wf_ten_slice a b c T i : wf_ten a b c T -> i < a -> wf_mat b c (tslice T i).
Proof.
  intros [Hl Hr] Hi. rewrite Forall_forall in Hr. apply Hr.
  apply nth_In. lia.
Qed.

Lemma mat_eta r c (M : mat) : wf_mat r c M -> M = mk_mat r c (mget M).
Proof.
  intros HM. pose proof HM as [Hl _]. subst r.
  rewrite <- (tabulate_nth M []) at 1.
  apply tabulate_ext. intros i Hi.
  apply (vec_eta c). by eapply wf_mat_row.
Qed.

Lemma ten_eta a b c (T : ten) : wf_ten a b c T -> T = mk_ten a b c (tget T).
Proof.
  intros HT. pose proof HT as [Hl _]. subst a.
  rewrite <- (tabulate_nth T []) at 1.
  apply tabulate_ext. intros i Hi.
  apply (mat_eta b c). by eapply wf_ten_slice.
Qed.

Lemma vget_mk_vec n f i : i < n -> vget (mk_vec n f) i = f i.
Proof. apply nth_tabulate. Qed.

Lemma mget_mk_mat r c f i j : i < r -> j < c -> mget (mk_mat r c f) i j = f i j.
Proof.
  intros Hi Hj. unfold mget, mrow, mk_mat.
  rewrite nth_tabulate by done. by apply vget_mk_vec.
Qed.

Lemma tget_mk_ten a b c f i j t :
  i < a -> j < b -> t < c -> tget (mk_ten a b c f) i j t = f i j t.
Proof.
  intros Hi Hj Ht. unfold tget, tslice, mk_ten.
  rewrite nth_tabulate by done. by apply mget_mk_mat.
Qed.

Lemma mk_mat_ext r c f g :
  (forall i j, i < r -> j < c -> f i j = g i j) -> mk_mat r c f = mk_mat r c g.
Proof.
  intros H. apply tabulate_ext. intros i Hi.
  apply tabulate_ext. intros j Hj. by apply H.
Qed.

Lemma mk_ten_ext a b c f g :
  (forall i j t, i < a -> j < b -> t < c -> f i j t = g i j t) ->
  mk_ten a b c f = mk_ten a b c g.
Proof.
  intros H. apply tabulate_ext. intros i Hi.
  apply mk_mat_ext. intros j t Hj Ht. by apply H.
Qed.

Lemma wf_mk_vec n f : wf_vec n (mk_vec n f).
Proof. apply length_tabulate. Qed.

Lemma wf_mk_mat r c f : wf_mat r c (mk_mat r c f).
Proof.
  split; [apply length_tabulate |].
  apply Forall_forall. intros v Hv.
  apply in_map_iff in Hv as (i & <- & _). apply wf_mk_vec.
Qed.

Lemma wf_mk_ten a b c f : wf_ten a b c (mk_ten a b c f).
Proof.
  split; [apply length_tabulate |].
  apply Forall_forall. intros v Hv.
  apply in_map_iff in Hv as (i & <- & _). apply wf_mk_mat.
Qed.

(** ** Index arithmetic of the two flattening orders *)

Lemma fortran_row a r c : a < r -> (a + r * c) mod r = a.
Proof.
  intros Ha. rewrite (Nat.mul_comm r c), Nat.Div0.mod_add.
  by apply Nat.mod_small.
Qed.

Lemma fortran_col a r c : a < r -> (a + r * c) / r = c.
Proof.
  intros Ha. rewrite (Nat.mul_comm r c), Nat.div_add by lia.
  rewrite Nat.div_small by done. lia.
Qed.

Lemma fortran_col2 a r d c : a < r -> (a + r * c) / (r * d) = c / d.
Proof.
  intros Ha. rewrite <- Nat.Div0.div_div. by rewrite fortran_col.
Qed.

Lemma div_mul_cancel_l r x : 0 < r -> (r * x) / r = x.
Proof. intros Hr. rewrite Nat.mul_comm. apply Nat.div_mul. lia. Qed.

Lemma pair_div j n t : j < n -> (j + n * t) / n = t.
Proof. apply fortran_col. Qed.

Lemma pair_mod j n t : j < n -> (j + n * t) mod n = j.
Proof. apply fortran_row. Qed.

Lemma pair_lt j n t f : j < n -> t < f -> j + n * t < n * f.
Proof. intros Hj Ht. nia. Qed.

Lemma divmod_lt c n f : 0 < n -> c < n * f -> c mod n < n /\ c / n < f.
Proof.
  intros Hn Hc. split.
  - apply Nat.mod_upper_bound. lia.
  - apply Nat.Div0.div_lt_upper_bound. lia.
Qed.

(** ** Shapes *)

Lemma shape3_wf m n f T :
  wf_ten m n f T -> 0 < m -> 0 < n -> shape3 T = (m, n, f).
Proof.
  intros HT Hm Hn. unfold shape3, nrows, ncols.
  pose proof (wf_ten_slice _ _ _ _ 0 HT Hm) as HS.
  pose proof (wf_mat_row _ _ _ 0 HS Hn) as HR.
  destruct HT as [-> _], HS as [-> _]. by rewrite HR.
Qed.

Lemma nrows_mk_mat r c f : nrows (mk_mat r c f) = r.
Proof. apply length_tabulate. Qed.

Lemma ncols_mk_mat r c f : 0 < r -> ncols (mk_mat r c f) = c.
Proof.
  intros Hr. unfold ncols, mrow, mk_mat.
  rewrite nth_tabulate by done. apply length_tabulate.
Qed.

Lemma ncols_wf r c M : wf_mat r c M -> 0 < r -> ncols M = c.
Proof. intros HM Hr. by apply (wf_mat_row _ _ _ 0 HM). Qed.

Lemma nrows_wf r c M : wf_mat r c M -> nrows M = r.
Proof. by intros [? _]. Qed.

(** ** Closed forms of the three unfoldings *)

Lemma ten2mat_mode0 m n f T :
  wf_ten m n f T -> 0 < m -> 0 < n ->
  ten2mat T 0 = Ok (mk_mat m (n * f) (fun i c => tget T i (c mod n) (c / n))).
Proof.
  intros HT Hm Hn. unfold ten2mat, np_moveaxis_front, shape_at.
  rewrite (shape3_wf m n f) by done. unfold np_reshape_F.
  rewrite (shape3_wf m n f) by done. f_equal.
  replace (m * n * f / m) with (n * f)
    by (rewrite <- Nat.mul_assoc, div_mul_cancel_l; done).
  apply mk_mat_ext. intros i c Hi Hc. cbv zeta.
  by rewrite fortran_row, fortran_col, fortran_col2.
Qed.

Lemma ten2mat_mode1 m n f T :
  wf_ten m n f T -> 0 < m -> 0 < n ->
  ten2mat T 1 = Ok (mk_mat n (m * f) (fun j c => tget T (c mod m) j (c / m))).
Proof.
  intros HT Hm Hn. unfold ten2mat, np_moveaxis_front, shape_at.
  rewrite (shape3_wf m n f) by done. unfold np_reshape_F.
  rewrite (shape3_wf n m f _ (wf_mk_ten _ _ _ _)) by done. f_equal.
  replace (n * m * f / n) with (m * f)
    by (rewrite <- Nat.mul_assoc, div_mul_cancel_l; done).
  apply mk_mat_ext. intros j c Hj Hc. cbv zeta.
  rewrite fortran_row, fortran_col, fortran_col2 by done.
  destruct (divmod_lt c m f Hm Hc). by rewrite tget_mk_ten.
Qed.

Lemma ten2mat_mode2 m n f T :
  wf_ten m n f T -> 0 < m -> 0 < n ->
  ten2mat T 2 = Ok (mk_mat f (m * n) (fun t c => tget T (c mod m) (c / m) t)).
Proof.
  intros HT Hm Hn. unfold ten2mat, np_moveaxis_front, shape_at.
  rewrite (shape3_wf m n f) by done. unfold np_reshape_F. f_equal.
  destruct (decide (f = 0)) as [-> | Hf]; [done |].
  rewrite (shape3_wf f m n _ (wf_mk_ten _ _ _ _)) by lia.
  replace (f * m * n / f) with (m * n)
    by (rewrite <- Nat.mul_assoc, div_mul_cancel_l; [done | lia]).
  apply mk_mat_ext. intros t c Ht Hc. cbv zeta.
  rewrite fortran_row, fortran_col, fortran_col2 by done.
  destruct (divmod_lt c m n Hm Hc). by rewrite tget_mk_ten.
Qed.

Lemma ten2mat_Ok (T : ten) k : k < 3 -> exists M, ten2mat T k = Ok M.
Proof.
  intros Hk. unfold ten2mat, np_moveaxis_front. destruct (shape3 T) as [[? ?] ?].
  destruct k as [|[|[|k]]]; try lia; eauto.
Qed.

Lemma mat2ten_ten2mat m n f (T : ten) k M :
  wf_ten m n f T -> k < 3 -> ten2mat T k = Ok M -> mat2ten M (m, n, f) k = T.
Proof.
  intros HT Hk HM. rewrite (ten_eta m n f T HT) at 1.
  destruct k as [|[|[|k]]]; try lia; unfold mat2ten;
    apply mk_ten_ext; intros i j t Hi Hj Ht.
  - rewrite (ten2mat_mode0 m n f) in HM by (done || lia).
    injection HM as <-.
    rewrite mget_mk_mat by (done || by apply pair_lt).
    by rewrite pair_mod, pair_div.
  - rewrite (ten2mat_mode1 m n f) in HM by (done || lia).
    injection HM as <-.
    rewrite mget_mk_mat by (done || by apply pair_lt).
    by rewrite pair_mod, pair_div.
  - rewrite (ten2mat_mode2 m n f) in HM by (done || lia).
    injection HM as <-.
    rewrite mget_mk_mat by (done || by apply pair_lt).
    by rewrite pair_mod, pair_div.
Qed.

(** Two tensors of one shape with the same unfolding are equal. *)
Lemma ten2mat_injective m n f (T T' : ten) k :
  wf_ten m n f T -> wf_ten m n f T' -> k < 3 -> ten2mat T k = ten2mat T' k -> T = T'.
Proof.
  intros HT HT' Hk Heq. destruct (ten2mat_Ok T k Hk) as [M HM].
  rewrite <- (mat2ten_ten2mat m n f T k M) by done.
  rewrite Heq in HM. by rewrite (mat2ten_ten2mat m n f T' k M).
Qed.

(** C7. For every three-dimensional tensor without an empty axis and
    every mode [k] in 0, 1, 2, the mode-[k] unfolding computed by [ten2mat]
    is undone by re-folding with the same convention (mode [k] leading, the
    other two axes flattened in Fortran order): the original tensor comes
    back entry for entry.  The unfolding has as many rows as mode [k] is
    long and as many columns as the two other modes have coordinates.
    (Along an axis of length 0 numpy cannot infer the second dimension of
    the unfolding and [ten2mat] raises.) *)
Theorem ten2mat_roundtrip m n f (T : ten) k :
  wf_ten m n f T -> 0 < m -> 0 < n -> 0 < f -> k < 3 ->
  exists M,
    ten2mat T k = Ok M
    /\ mat2ten M (m, n, f) k = T
    /\ wf_mat (dim_of m n f k) (earlier_dim m n f k * later_dim m n f k) M.
Proof.
  intros HT Hm Hn _ Hk. destruct (ten2mat_Ok T k Hk) as [M HM].
  exists M. split; [done |]. split; [by apply mat2ten_ten2mat |].
  destruct k as [|[|[|k]]]; try lia; cbn [dim_of earlier_dim later_dim].
  - rewrite (ten2mat_mode0 m n f) in HM by done. injection HM as <-.
    apply wf_mk_mat.
  - rewrite (ten2mat_mode1 m n f) in HM by done. injection HM as <-.
    apply wf_mk_mat.
  - rewrite (ten2mat_mode2 m n f) in HM by done. injection HM as <-.
    apply wf_mk_mat.
Qed.

(** ** Elementwise operations and sums *)

Lemma nth_zip_with {A B C : Type} (g : A -> B -> C) u v i da db dc :
  i < length u -> i < length v ->
  nth i (zip_with g u v) dc = g (nth i u da) (nth i v db).
Proof.
  revert v i. induction u as [|a u IH]; intros [|b v] [|i] Hu Hv;
    simpl in *; try lia; [done |]. apply IH; lia.
Qed.

Lemma wf_zip_with n (g : Qc -> Qc -> Qc) u v :
  wf_vec n u -> wf_vec n v -> wf_vec n (zip_with g u v).
Proof. unfold wf_vec. intros Hu Hv. rewrite length_zip_with. lia. Qed.

Lemma vget_zip_with n (g : Qc -> Qc -> Qc) u v i :
  wf_vec n u -> wf_vec n v -> i < n ->
  vget (zip_with g u v) i = g (vget u i) (vget v i).
Proof.
  unfold wf_vec, vget. intros Hu Hv Hi.
  apply nth_zip_with; lia.
Qed.

Lemma wf_mzip r c (g : Qc -> Qc -> Qc) A B :
  wf_mat r c A -> wf_mat r c B -> wf_mat r c (zip_with (zip_with g) A B).
Proof.
  intros [HA1 HA2] [HB1 HB2]. split.
  - rewrite length_zip_with. lia.
  - clear HA1 HB1. revert B HB2.
    induction HA2 as [|a A Ha _ IH]; intros B HB; [constructor |].
    destruct HB as [|b B Hb HB]; [constructor |].
    simpl. constructor; [by apply wf_zip_with | by apply IH].
Qed.

Lemma mget_mzip r c (g : Qc -> Qc -> Qc) A B i j :
  wf_mat r c A -> wf_mat r c B -> i < r -> j < c ->
  mget (zip_with (zip_with g) A B) i j = g (mget A i j) (mget B i j).
Proof.
  intros HA HB Hi Hj. unfold mget, mrow.
  rewrite (nth_zip_with _ _ _ _ [] []) by (destruct HA, HB; lia).
  apply (vget_zip_with c); [by eapply wf_mat_row | by eapply wf_mat_row | done].
Qed.

Lemma wf_tzip a b c (g : Qc -> Qc -> Qc) S T :
  wf_ten a b c S -> wf_ten a b c T ->
  wf_ten a b c (zip_with (zip_with (zip_with g)) S T).
Proof.
  intros [HS1 HS2] [HT1 HT2]. split.
  - rewrite length_zip_with. lia.
  - clear HS1 HT1. revert T HT2.
    induction HS2 as [|x S Hx _ IH]; intros T HT; [constructor |].
    destruct HT as [|y T Hy HT]; [constructor |].
    simpl. constructor; [by apply wf_mzip | by apply IH].
Qed.

Lemma tget_tzip a b c (g : Qc -> Qc -> Qc) S T i j t :
  wf_ten a b c S -> wf_ten a b c T -> i < a -> j < b -> t < c ->
  tget (zip_with (zip_with (zip_with g)) S T) i j t = g (tget S i j t) (tget T i j t).
Proof.
  intros HS HT Hi Hj Ht. unfold tget, tslice.
  rewrite (nth_zip_with _ _ _ _ [] []) by (destruct HS, HT; lia).
  apply (mget_mzip b c); [by eapply wf_ten_slice | by eapply wf_ten_slice | done..].
Qed.

Lemma vget_map n (g : Qc -> Qc) v i :
  wf_vec n v -> i < n -> vget (map g v) i = g (vget v i).
Proof.
  unfold wf_vec, vget. intros Hv Hi.
  rewrite (nth_indep _ 0%Qc (g 0%Qc)) by (rewrite length_map; lia).
  apply map_nth.
Qed.

Lemma wf_vmap n (g : Qc -> Qc) v : wf_vec n v -> wf_vec n (map g v).
Proof. unfold wf_vec. by rewrite length_map. Qed.

Lemma wf_mmap r c (g : Qc -> Qc) A : wf_mat r c A -> wf_mat r c (map (map g) A).
Proof.
  intros [H1 H2]. split; [by rewrite length_map |].
  apply Forall_map. eapply Forall_impl; [| exact H2].
  intros v Hv. by apply wf_vmap.
Qed.

Lemma mget_mmap r c (g : Qc -> Qc) A i j :
  wf_mat r c A -> i < r -> j < c -> mget (map (map g) A) i j = g (mget A i j).
Proof.
  intros HA Hi Hj. unfold mget, mrow.
  rewrite (nth_indep _ [] (map g [])) by (rewrite length_map; destruct HA; lia).
  rewrite map_nth. apply (vget_map c); [by eapply wf_mat_row | done].
Qed.

Lemma sumQ_app l1 l2 : sumQ (l1 ++ l2) = (sumQ l1 + sumQ l2)%Qc.
Proof.
  induction l1 as [|x l1 IH]; simpl; [ring |]. rewrite IH. ring.
Qed.

Lemma sum_upto_S n f : sum_upto (S n) f = (sum_upto n f + f n)%Qc.
Proof.
  unfold sum_upto, tabulate. rewrite seq_S, map_app, sumQ_app.
  simpl. ring.
Qed.

Lemma sum_upto_ext n f g :
  (forall i, i < n -> f i = g i) -> sum_upto n f = sum_upto n g.
Proof. intros Hfg. unfold sum_upto. f_equal. by apply tabulate_ext. Qed.

Lemma sum_upto_scale n a f :
  sum_upto n (fun i => (a * f i)%Qc) = (a * sum_upto n f)%Qc.
Proof.
  induction n as [|n IH]; [unfold sum_upto; simpl; ring |].
  rewrite !sum_upto_S, IH. ring.
Qed.


(** ** The precision sampler *)



(** ** The hyperparameter sampler *)

Lemma wf_outer u v : wf_mat (length u) (length v) (outer u v).
Proof. apply wf_mk_mat. Qed.

Lemma np_mean_axis0_eq dim rank F :
  wf_mat dim rank F -> 0 < dim -> np_mean_axis0 F = row_mean dim rank F.
Proof.
  intros HF Hd. unfold np_mean_axis0, row_mean.
  by rewrite (ncols_wf dim rank), (nrows_wf dim rank).
Qed.

Lemma wf_row_mean dim rank F : wf_vec rank (row_mean dim rank F).
Proof. apply wf_mk_vec. Qed.

Lemma madd_mk_mat r c A g :
  wf_mat r c A ->
  madd A (mk_mat r c g) = mk_mat r c (fun a b => (mget A a b + g a b)%Qc).
Proof.
  intros HA.
  rewrite (mat_eta r c (madd A (mk_mat r c g)))
    by (apply wf_mzip; [done | apply wf_mk_mat]).
  apply mk_mat_ext. intros a b Ha Hb. unfold madd, vadd.
  rewrite (mget_mzip r c) by (done || apply wf_mk_mat).
  by rewrite mget_mk_mat.
Qed.

Lemma cov_mat_loop r g n acc0 :
  (forall i, i < n -> wf_mat r r (g i)) ->
  fold_left (fun acc i => madd acc (g i)) (seq 0 n) (mk_mat r r acc0) =
  mk_mat r r (fun a b => (acc0 a b + sum_upto n (fun i => mget (g i) a b))%Qc).
Proof.
  induction n as [|n IH]; intros Hg.
  - simpl. apply mk_mat_ext. intros a b _ _. unfold sum_upto. simpl. ring.
  - rewrite seq_S, fold_left_app, IH by (intros; apply Hg; lia). simpl.
    rewrite (mat_eta r r (g n)) at 1 by (apply Hg; lia).
    rewrite madd_mk_mat by apply wf_mk_mat.
    apply mk_mat_ext. intros a b Ha Hb.
    rewrite mget_mk_mat, sum_upto_S by done. ring.
Qed.

Lemma cov_mat_eq dim rank F :
  wf_mat dim rank F -> 0 < dim -> cov_mat F = row_scatter dim rank F.
Proof.
  intros HF Hd. unfold cov_mat, row_scatter, mzeros.
  rewrite (np_mean_axis0_eq dim rank), (ncols_wf dim rank), (nrows_wf dim rank)
    by done.
  assert (Hsub : forall i, i < dim ->
            wf_vec rank (vsub (mrow F i) (row_mean dim rank F))).
  { intros i Hi. apply wf_zip_with; [by eapply wf_mat_row | apply wf_row_mean]. }
  rewrite (cov_mat_loop rank
    (fun i => outer (vsub (mrow F i) (row_mean dim rank F))
                    (vsub (mrow F i) (row_mean dim rank F)))).
  - apply mk_mat_ext. intros a b Ha Hb.
    rewrite Qcplus_0_l. apply sum_upto_ext. intros i Hi.
    unfold outer. rewrite (Hsub i Hi), mget_mk_mat by done.
    unfold vsub.
    rewrite !(vget_zip_with rank)
      by (done || apply wf_row_mean || by eapply wf_mat_row).
    done.
  - intros i Hi. pose proof (wf_outer (vsub (mrow F i) (row_mean dim rank F))
      (vsub (mrow F i) (row_mean dim rank F))) as Ho.
    by rewrite (Hsub i Hi) in Ho.
Qed.

(** The two draws of [sample_hyperparameter], with the row mean and the
    row scatter in place of [np.mean] and [cov_mat]. *)
Lemma sample_hyperparameter_arrays `{NumpyLib} dim rank (factor_k : mat)
    (mu0 : vec) (beta0 : Qc) (W0 : mat) (nu0 : Qc) (w : world) :
  wf_mat dim rank factor_k -> 0 < dim -> wf_vec rank mu0 ->
  let mbar := row_mean dim rank factor_k in
  let S := row_scatter dim rank factor_k in
  let W_star :=
    inv (madd (madd (inv W0) S)
              (mscale (Qn dim * beta0 / (Qn dim + beta0))%Qc
                      (outer (vsub mbar mu0) (vsub mbar mu0)))) in
  let mu_star :=
    mk_vec rank (fun j =>
      ((Qn dim * vget mbar j + beta0 * vget mu0 j) / (Qn dim + beta0))%Qc) in
  sample_hyperparameter factor_k mu0 beta0 W0 nu0 w =
  (Lambda ← draw (wishart_rvs (Qn dim + nu0)%Qc W_star);
   mu ← draw (mvnrnd mu_star (inv (mscale (Qn dim + beta0)%Qc Lambda)));
   mret (mu, Lambda)) w.
Proof.
  intros HF Hd Hmu mbar S W_star mu_star. unfold sample_hyperparameter.
  rewrite (cov_mat_eq dim rank), (np_mean_axis0_eq dim rank),
    (nrows_wf dim rank) by done.
  fold mbar S W_star.
  replace (vdiv (vadd (vscale (Qn dim) mbar) (vscale beta0 mu0))
             (Qn dim + beta0)%Qc) with mu_star; [done |].
  symmetry. unfold mu_star.
  rewrite (vec_eta rank (vdiv _ _)).
  - apply tabulate_ext. intros j Hj. unfold vdiv, vadd, vscale.
    rewrite (vget_map rank), (vget_zip_with rank), !(vget_map rank);
      try done; try apply wf_vmap; try done; try apply wf_row_mean.
    apply wf_zip_with; apply wf_vmap; [apply wf_row_mean | done].
  - apply wf_vmap, wf_zip_with; apply wf_vmap; [apply wf_row_mean | done].
Qed.

(** ** Laws of the sampling monad, pointwise in the world *)

Section MonadLaws.
Context `{NumpyLib}.

Lemma bind_ext {A B : Type} (m : M A) (k1 k2 : A -> M B) w :
  (forall a w', m w = (Ok a, w') -> k1 a w' = k2 a w') ->
  (m ≫= k1) w = (m ≫= k2) w.
Proof.
  intros Hk. unfold mbind, M_bind.
  destruct (m w) as [[a | e] w'] eqn:Hm; [by apply Hk | done].
Qed.

Lemma bind_ext_l {A B : Type} (m1 m2 : M A) (k : A -> M B) w :
  m1 w = m2 w -> (m1 ≫= k) w = (m2 ≫= k) w.
Proof. unfold mbind, M_bind. by intros ->. Qed.

Lemma bind_assoc {A B C : Type} (m : M A) (k1 : A -> M B) (k2 : B -> M C) w :
  ((m ≫= k1) ≫= k2) w = (m ≫= (fun a => k1 a ≫= k2)) w.
Proof.
  unfold mbind, M_bind. by destruct (m w) as [[a | e] w'].
Qed.

Lemma bind_ret_r {A : Type} (m : M A) w : (m ≫= mret) w = m w.
Proof.
  unfold mbind, M_bind, mret, M_ret. by destruct (m w) as [[a | e] w'].
Qed.


Lemma bind_Raise {A B : Type} (m : M A) (k : A -> M B) w e w' :
  m w = (Raise e, w') -> (m ≫= k) w = (Raise e, w').
Proof. intros Hm. unfold mbind, M_bind. by rewrite Hm. Qed.

Lemma bind_liftR_Ok {A B : Type} (a : A) (k : A -> M B) w :
  (liftR (Ok a) ≫= k) w = k a w.
Proof. done. Qed.

End MonadLaws.

Lemma length_dim (T : ten) : length (dim T) = 3.
Proof. unfold dim, dims_of. by destruct (shape3 T) as [[? ?] ?]. Qed.

(** C3. In every sweep the modes are handled in the order 0, 1, 2.  For
    each mode the hyperparameter pair is drawn from the current factor
    matrix of that mode and then that factor matrix is redrawn, so the
    draws for modes 1 and 2 already read the matrices just redrawn for the
    earlier modes.  Only then is the tensor rebuilt by [cp_combine] from the
    three new matrices, and tau is drawn once, from the residual against
    that reconstruction. *)
Theorem sweep_order `{NumpyLib} (dense_tensor sparse_tensor : ten)
    (burn_iter rank it : nat) (A0 A1 A2 : mat) (tau0 : Qc)
    (fplus : list mat) (tplus : ten) (w : world) :
  let hyper F := sample_hyperparameter F (vzeros rank) 1%Qc (eye rank) (Qn rank) in
  let redraw := sample_factor sparse_tensor (binary_tensor sparse_tensor) tau0 in
  sweep dense_tensor sparse_tensor burn_iter rank
        (Locals [A0; A1; A2] tau0 fplus tplus) it w =
  ('(mu_0, Lambda_0) ← hyper A0;
   U ← redraw [A0; A1; A2] mu_0 Lambda_0 0 0;
   '(mu_1, Lambda_1) ← hyper A1;
   V ← redraw [U; A1; A2] mu_1 Lambda_1 1 0;
   '(mu_2, Lambda_2) ← hyper A2;
   X ← redraw [U; V; A2] mu_2 Lambda_2 2 0;
   let tensor_hat := einsum_is_js_ts_ijt U V X in
   tau' ← sample_precision_tau sparse_tensor tensor_hat (pos_train sparse_tensor)
            alpha beta;
   st ← accumulate sparse_tensor burn_iter it (Locals [U; V; X] tau0 fplus tplus)
          tau' tensor_hat;
   _ ← monitor dense_tensor sparse_tensor burn_iter it tensor_hat;
   mret st) w.
Proof.
  intros hyper redraw. subst hyper redraw. unfold sweep. rewrite length_dim.
  change (seq 0 3) with [0; 1; 2]. cbn [for_loop].
  unfold mode_update, liftR, mbind, M_bind, mret, M_ret.
  repeat (cbn [factor tau factor_plus tensor_hat_plus py_index lookup
               list_lookup list_insert insert cp_combine];
          try reflexivity;
          match goal with
          | |- context [sample_hyperparameter ?a ?b ?c ?d ?e w] =>
              destruct (sample_hyperparameter a b c d e w) as [[[? ?] | ?] w']
          | |- context [sample_factor ?a ?b ?c ?d ?e ?f ?g ?h w] =>
              destruct (sample_factor a b c d e f g h w) as [[? | ?] w']
          end; clear w; rename w' into w).
Qed.

(** ** The loop of [BGCP] against its schedule *)

Section LoopFacts.
Context `{NumpyLib}.
Variables (dense_tensor sparse_tensor : ten) (burn_iter rank : nat).

Lemma mode_update_step (st : locals) (k : nat) (w : world) :
  mode_update sparse_tensor rank st k w =
  (factor' ← factor_step sparse_tensor rank (tau st) (factor st) k;
   mret (Locals factor' (tau st) (factor_plus st) (tensor_hat_plus st))) w.
Proof.
  unfold mode_update, factor_step.
  rewrite bind_assoc. apply bind_ext. intros Fk w1 _.
  rewrite bind_assoc. apply bind_ext. intros [mu_k Lambda_k] w2 _.
  rewrite bind_assoc. apply bind_ext. intros Fk' w3 _. done.
Qed.

Lemma modes_loop (ks : list nat) (st : locals) (w : world) :
  for_loop ks st (mode_update sparse_tensor rank) w =
  (factor' ← for_loop ks (factor st) (factor_step sparse_tensor rank (tau st));
   mret (Locals factor' (tau st) (factor_plus st) (tensor_hat_plus st))) w.
Proof.
  revert st w. induction ks as [|k ks IH]; intros st w.
  - by destruct st.
  - cbn [for_loop].
    rewrite (bind_ext_l _ _ _ _ (mode_update_step st k w)), !bind_assoc.
    apply bind_ext. intros factor' w1 _.
    change (for_loop ks (Locals factor' (tau st) (factor_plus st)
                           (tensor_hat_plus st))
              (mode_update sparse_tensor rank) w1 =
            (for_loop ks factor' (factor_step sparse_tensor rank (tau st))
               ≫= (fun f' => mret (Locals f' (tau st) (factor_plus st)
                                          (tensor_hat_plus st)))) w1).
    by rewrite IH.
Qed.

Lemma accumulate_tau it st tau' tensor_hat w st' w' :
  accumulate sparse_tensor burn_iter it st tau' tensor_hat w = (Ok st', w') ->
  tau st' = tau' /\ factor st' = factor st.
Proof.
  unfold accumulate. case_bool_decide.
  - unfold mbind, M_bind, liftR, mret, M_ret.
    destruct (mapM _ _) as [fp | e]; [| done]. by intros [= <- <-].
  - unfold mret, M_ret. by intros [= <- <-].
Qed.

Lemma sweep_schedule (st : locals) (it : nat) (w : world) :
  sweep dense_tensor sparse_tensor burn_iter rank st it w =
  (factor' ← factor_updates sparse_tensor rank (tau st) (factor st);
   tensor_hat ← liftR (cp_combine factor');
   tau_next ← sample_precision_tau sparse_tensor tensor_hat
                (pos_train sparse_tensor) alpha beta;
   st' ← accumulate sparse_tensor burn_iter it
           (Locals factor' (tau st) (factor_plus st) (tensor_hat_plus st))
           tau_next tensor_hat;
   _ ← monitor dense_tensor sparse_tensor burn_iter it tensor_hat;
   mret st') w.
Proof.
  unfold sweep, factor_updates. rewrite length_dim.
  change (seq 0 3) with [0; 1; 2].
  rewrite (bind_ext_l _ _ _ _ (modes_loop [0; 1; 2] st w)), bind_assoc.
  apply bind_ext. intros factor' w1 _. done.
Qed.
End LoopFacts.

Section Schedules.
Context `{NumpyLib}.
Variables (dense_tensor sparse_tensor : ten) (burn_iter : nat).

Lemma loop_tau_schedule rank (its : list nat) (st : locals) (w : world) :
  for_loop its st (sweep dense_tensor sparse_tensor burn_iter rank) w =
  tau_schedule dense_tensor sparse_tensor burn_iter rank its
    (tau st) (factor st) (factor_plus st) (tensor_hat_plus st) w.
Proof.
  revert st w. induction its as [|it its IH]; intros st w.
  - by destruct st.
  - cbn [for_loop tau_schedule].
    rewrite (bind_ext_l _ _ _ _ (sweep_schedule _ _ _ _ st it w)).
    rewrite bind_assoc. apply bind_ext. intros factor' w1 _.
    rewrite bind_assoc. apply bind_ext. intros tensor_hat w2 _.
    rewrite bind_assoc. apply bind_ext. intros tau_next w3 _.
    rewrite bind_assoc. apply bind_ext. intros st' w4 Hacc.
    rewrite bind_assoc. apply bind_ext. intros [] w5 _.
    apply accumulate_tau in Hacc as [Htau _].
    change (for_loop its st' (sweep dense_tensor sparse_tensor burn_iter rank) w5 =
            tau_schedule dense_tensor sparse_tensor burn_iter rank its tau_next
              (factor st') (factor_plus st') (tensor_hat_plus st') w5).
    by rewrite IH, Htau.
Qed.

(** C10. The noise precision starts at the constant 1 and is reassigned
    only at the end of a sweep: the run of [BGCP] is the schedule in which
    the first sweep hands 1 to each of its three factor updates and every
    later sweep hands them the Gamma draw made at the end of the sweep
    before it. *)
Theorem BGCP_tau_schedule (gibbs_iter : nat) (factor0 : list mat) (w : world) :
  BGCP dense_tensor sparse_tensor burn_iter gibbs_iter factor0 w =
  (F0 ← liftR (py_index factor0 0);
   let rank := ncols F0 in
   st ← tau_schedule dense_tensor sparse_tensor burn_iter rank
          (seq 0 (burn_iter + gibbs_iter)) 1%Qc factor0
          (map (fun d => mzeros d rank) (dim sparse_tensor))
          (tzeros (shape3 sparse_tensor));
   finish dense_tensor sparse_tensor gibbs_iter st) w.
Proof.
  unfold BGCP. apply bind_ext. intros F0 w1 _.
  apply bind_ext_l. apply loop_tau_schedule.
Qed.
End Schedules.

(** ** The accumulators *)







Section Accumulators.
Context `{NumpyLib}.
Variables (dense_tensor sparse_tensor : ten) (burn_iter gibbs_iter rank : nat).





End Accumulators.


(** ** The metric and what is printed *)

Lemma Qn_nonzero n : 0 < n -> Qn n <> 0%Qc.
Proof.
  intros Hn Heq. apply (f_equal this) in Heq. cbv [Qn Qc_of_Z this] in Heq.
  injection Heq as Heq. lia.
Qed.

Lemma np_sum_ext_nonfinite (l : list npfloat) :
  NonFinite ∈ l -> np_sum_ext l = NonFinite.
Proof.
  induction l as [|x l IH]; [by intros ?%elem_of_nil |].
  intros [<- | Hin]%elem_of_cons; [done |].
  unfold np_sum_ext in *. cbn [foldr]. rewrite IH by done. by destruct x.
Qed.

Lemma compute_mape_nonfinite (var var_hat : vec) :
  length var_hat = length var -> 0%Qc ∈ var ->
  compute_mape var var_hat = NonFinite.
Proof.
  intros Hlen Hin. unfold compute_mape.
  rewrite np_sum_ext_nonfinite; [done |].
  assert (Hl : length (map Qcabs (vsub var var_hat)) = length var).
  { unfold vsub. rewrite length_map, length_zip_with. lia. }
  revert Hl Hin. generalize (map Qcabs (vsub var var_hat)). clear Hlen.
  induction var as [|x var IH]; intros [|a l] Hl Hin; try done.
  - by apply elem_of_nil in Hin.
  - cbn. apply elem_of_cons in Hin as [<- | Hin].
    + apply elem_of_cons. left. unfold np_true_divide. by case_decide.
    + apply elem_of_cons. right. apply IH; [cbn in Hl; lia | done].
Qed.

Lemma pos_test_truth_nonzero (dense_tensor sparse_tensor : ten) :
  Forall (fun x => x <> 0%Qc)
    (tindex dense_tensor (pos_test dense_tensor sparse_tensor)).
Proof.
  unfold tindex, pos_test, np_where3. apply Forall_map, Forall_forall.
  intros p Hp. apply filter_In in Hp as [_ Hp].
  apply andb_prop in Hp as [Hp _]. by apply bool_decide_eq_true_1 in Hp.
Qed.

Lemma test_mape_line (dense_tensor sparse_tensor T : ten) :
  let x := compute_mape (tindex dense_tensor (pos_test dense_tensor sparse_tensor))
             (tindex T (pos_test dense_tensor sparse_tensor)) in
  mape_over_test dense_tensor sparse_tensor (Line_MAPE x)
  /\ mape_over_test dense_tensor sparse_tensor (Line_Imputation_MAPE x).
Proof. cbn. split; by exists T. Qed.

Section Emits.
Context `{NumpyLib}.
Variable P : line -> Prop.

Lemma emits_ret {A : Type} (a : A) : emits P (mret a).
Proof. intros w r w' [= <- <-]. exists []. by rewrite app_nil_r. Qed.

Lemma emits_liftR {A : Type} (r : result A) : emits P (liftR r).
Proof. intros w r' w' [= <- <-]. exists []. by rewrite app_nil_r. Qed.

Lemma emits_draw {A : Type} (s : rng_state -> A * rng_state) : emits P (draw s).
Proof.
  intros w r w'. unfold draw. destruct (s (rng w)) as [a g].
  intros [= <- <-]. exists []. cbn. by rewrite app_nil_r.
Qed.

Lemma emits_print (ls : list line) : Forall P ls -> emits P (print ls).
Proof. intros Hls w r w' [= <- <-]. by exists ls. Qed.

Lemma emits_bind {A B : Type} (m : M A) (k : A -> M B) :
  emits P m -> (forall a, emits P (k a)) -> emits P (m ≫= k).
Proof.
  intros Hm Hk w r w'. unfold mbind, M_bind.
  destruct (m w) as [[a | e] w1] eqn:Hmw.
  - intros Hkw. destruct (Hm _ _ _ Hmw) as (l1 & E1 & Hl1).
    destruct (Hk _ _ _ _ Hkw) as (l2 & E2 & Hl2).
    exists (l1 ++ l2). split; [by rewrite E2, E1, app_assoc | by apply Forall_app].
  - intros [= <- <-]. by apply (Hm _ _ _ Hmw).
Qed.

Lemma emits_for_loop {S X : Type} (xs : list X) (st : S) body :
  (forall st x, emits P (body st x)) -> emits P (for_loop xs st body).
Proof.
  intros Hbody. revert st. induction xs as [|x xs IH]; intros st.
  - apply emits_ret.
  - cbn [for_loop]. apply emits_bind; [apply Hbody | apply IH].
Qed.

Lemma emits_sample_hyperparameter F mu0 beta0 W0 nu0 :
  emits P (sample_hyperparameter F mu0 beta0 W0 nu0).
Proof.
  unfold sample_hyperparameter.
  repeat first [apply emits_bind; [| intros ?] | apply emits_draw | apply emits_ret].
Qed.

Lemma emits_sample_precision_tau S T pos a b :
  emits P (sample_precision_tau S T pos a b).
Proof. apply emits_draw. Qed.

Lemma emits_sample_factor S B tau0 F mu L k vargin :
  emits P (sample_factor S B tau0 F mu L k vargin).
Proof.
  unfold sample_factor. apply emits_bind; [apply emits_liftR | intros Fk].
  destruct (strategy _ _ _ _) as [|[|?]].
  - repeat (apply emits_bind; [apply emits_liftR | intros ?]).
    apply emits_for_loop. intros Fk' i. unfold dense_row.
    apply emits_bind; [apply emits_draw | intros ?; apply emits_ret].
  - destruct k as [|[|[|k]]]; [..| apply emits_ret];
      apply emits_for_loop; intros Fk' i; unfold sparse_row;
      (apply emits_bind; [apply emits_liftR | intros ?]);
      (apply emits_bind; [apply emits_liftR | intros [? ?]]);
      (apply emits_bind; [apply emits_draw | intros ?; apply emits_ret]).
  - apply emits_ret.
Qed.
End Emits.

Section Printed.
Context `{NumpyLib}.
Variables (dense_tensor sparse_tensor : ten) (burn_iter gibbs_iter : nat).

Lemma emits_report tensor_hat factor_out :
  emits (mape_over_test dense_tensor sparse_tensor)
    (report dense_tensor sparse_tensor tensor_hat factor_out).
Proof.
  unfold report. apply emits_bind; [| intros; apply emits_ret].
  apply emits_print.
  apply Forall_cons; [apply (test_mape_line dense_tensor sparse_tensor tensor_hat) |].
  by repeat apply Forall_cons.
Qed.

Lemma emits_monitor it tensor_hat :
  emits (mape_over_test dense_tensor sparse_tensor)
    (monitor dense_tensor sparse_tensor burn_iter it tensor_hat).
Proof.
  unfold monitor. destruct (_ && _); [| apply emits_ret].
  apply emits_print. apply Forall_cons; [done |].
  apply Forall_cons; [apply (test_mape_line dense_tensor sparse_tensor tensor_hat) |].
  by repeat apply Forall_cons.
Qed.

Lemma emits_sweep rank st it :
  emits (mape_over_test dense_tensor sparse_tensor)
    (sweep dense_tensor sparse_tensor burn_iter rank st it).
Proof.
  unfold sweep.
  apply emits_bind; [| intros st1].
  { apply emits_for_loop. intros st0 k. unfold mode_update.
    apply emits_bind; [apply emits_liftR | intros ?].
    apply emits_bind; [apply emits_sample_hyperparameter | intros [? ?]].
    apply emits_bind; [apply emits_sample_factor | intros ?; apply emits_ret]. }
  apply emits_bind; [apply emits_liftR | intros tensor_hat].
  apply emits_bind; [apply emits_sample_precision_tau | intros tau'].
  apply emits_bind; [| intros st2].
  { unfold accumulate. case_bool_decide; [| apply emits_ret].
    apply emits_bind; [apply emits_liftR | intros ?; apply emits_ret]. }
  apply emits_bind; [apply emits_monitor | intros ?; apply emits_ret].
Qed.

Lemma emits_BGCP factor0 :
  emits (mape_over_test dense_tensor sparse_tensor)
    (BGCP dense_tensor sparse_tensor burn_iter gibbs_iter factor0).
Proof.
  unfold BGCP. apply emits_bind; [apply emits_liftR | intros F0].
  apply emits_bind; [| intros st; apply emits_report].
  apply emits_for_loop. intros st it. apply emits_sweep.
Qed.
End Printed.

(** C8, as the code has it.  [compute_mape] signals nothing: whenever a
    ground-truth value is exactly zero it returns a non-finite float.  For
    the metrics [BGCP] itself prints this does not arise: the held-out
    ground-truth values are all nonzero by the construction of the test
    set, and every MAPE line that a run with at least one collection sweep
    prints is computed against them. *)
Theorem compute_mape_zero_truth `{NumpyLib} (dense_tensor sparse_tensor : ten)
    (burn_iter gibbs_iter : nat) (factor0 : list mat) (w : world) :
  (forall var var_hat : vec,
     length var_hat = length var -> 0%Qc ∈ var ->
     compute_mape var var_hat = NonFinite)
  /\ Forall (fun x => x <> 0%Qc)
       (tindex dense_tensor (pos_test dense_tensor sparse_tensor))
  /\ (0 < gibbs_iter ->
      exists ls,
        stdout (BGCP dense_tensor sparse_tensor burn_iter gibbs_iter factor0 w).2
          = stdout w ++ ls
        /\ Forall (mape_over_test dense_tensor sparse_tensor) ls).
Proof.
  split; [apply compute_mape_nonfinite |].
  split; [apply pos_test_truth_nonzero |].
  intros _.
  destruct (BGCP dense_tensor sparse_tensor burn_iter gibbs_iter factor0 w)
    as [r w'] eqn:Hrun.
  by apply (emits_BGCP _ _ _ _ _ _ _ _ Hrun).
Qed.

(** C8, as the spec words it, fails: with a zero ground-truth value the
    call returns, and what it returns is a non-finite float. *)
Lemma compute_mape_returns_nonfinite :
  0%Qc ∈ [Qz 2; Qz 0] /\ compute_mape [Qz 2; Qz 0] [Qz 1; Qz 1] = NonFinite.
Proof. split; by_compute. Qed.

(** ** Runs on a wrong number of factor matrices *)





(** ** Closed forms of the dense strategy's intermediates *)

Lemma transpose_mk_mat R C g :
  0 < R -> transpose (mk_mat R C g) = mk_mat C R (fun j i => g i j).
Proof.
  intros HR. unfold transpose. rewrite nrows_mk_mat, ncols_mk_mat by done.
  apply mk_mat_ext. intros j i Hj Hi. by rewrite mget_mk_mat.
Qed.

Lemma rowmajor_div c r a : a < r -> (c * r + a) / r = c.
Proof. intros Ha. rewrite Nat.add_comm, Nat.mul_comm. by apply fortran_col. Qed.

Lemma rowmajor_mod c r a : a < r -> (c * r + a) mod r = a.
Proof. intros Ha. rewrite Nat.add_comm, Nat.mul_comm. by apply fortran_row. Qed.

Lemma rowmajor_div2 c d r a : a < r -> (c * r + a) / (d * r) = c / d.
Proof.
  intros Ha. rewrite (Nat.mul_comm d r), <- Nat.Div0.div_div.
  by rewrite rowmajor_div.
Qed.

Lemma kr_prod_closed dp dq r P Q :
  wf_mat dp r P -> wf_mat dq r Q -> 0 < dp -> 0 < dq ->
  kr_prod P Q =
  mk_mat (dp * dq) r (fun c a => (mget P (c / dq) a * mget Q (c mod dq) a)%Qc).
Proof.
  intros HP HQ Hdp Hdq. unfold kr_prod, einsum_ir_jr_ijr, np_reshape_C.
  rewrite (nrows_wf dp r P), (nrows_wf dq r Q), (ncols_wf dp r P) by done.
  rewrite (shape3_wf dp dq r _ (wf_mk_ten _ _ _ _)) by done.
  replace (dp * dq * r / (dp * dq)) with r by (rewrite div_mul_cancel_l; nia).
  apply mk_mat_ext. intros c a Hc Ha. cbv zeta.
  rewrite rowmajor_div2, rowmajor_div, rowmajor_mod by done.
  assert (c mod dq < dq /\ c / dq < dp) as [? ?]
    by (apply divmod_lt; [done | by rewrite Nat.mul_comm]).
  by rewrite tget_mk_ten.
Qed.

Lemma matmul_transpose_closed R D N A B :
  wf_mat R N A -> wf_mat D N B -> 0 < R -> 0 < D -> 0 < N ->
  matmul A (transpose B) =
  mk_mat R D (fun x i => sum_upto N (fun c => (mget A x c * mget B i c)%Qc)).
Proof.
  intros HA HB HR HD HN. unfold matmul, transpose.
  rewrite (nrows_wf R N A), (ncols_wf R N A), (nrows_wf D N B),
    (ncols_wf D N B) by done.
  rewrite ncols_mk_mat by done.
  apply mk_mat_ext. intros x i Hx Hi. apply sum_upto_ext. intros c Hc.
  by rewrite mget_mk_mat.
Qed.

Lemma np_reshape_C3_closed a b c M :
  wf_mat (a * b) c M ->
  np_reshape_C3 M a b c = mk_ten a b c (fun x y z => mget M (x * b + y) z).
Proof.
  intros HM. unfold np_reshape_C3. apply mk_ten_ext. intros x y z Hx Hy Hz.
  cbv zeta. rewrite (ncols_wf (a * b) c M) by (done || nia).
  by rewrite rowmajor_div, rowmajor_mod.
Qed.

Lemma tadd_closed a b c S T :
  wf_ten a b c S -> wf_ten a b c T ->
  tadd S T = mk_ten a b c (fun x y z => (tget S x y z + tget T x y z)%Qc).
Proof.
  intros HS HT. unfold tadd, madd, vadd.
  rewrite (ten_eta a b c (zip_with _ S T)) by by apply wf_tzip.
  apply mk_ten_ext. intros x y z Hx Hy Hz. by apply (tget_tzip a b c).
Qed.

Lemma madd_closed r c A B :
  wf_mat r c A -> wf_mat r c B ->
  madd A B = mk_mat r c (fun x y => (mget A x y + mget B x y)%Qc).
Proof.
  intros HA HB. unfold madd, vadd.
  rewrite (mat_eta r c (zip_with _ A B)) by by apply wf_mzip.
  apply mk_mat_ext. intros x y Hx Hy. by apply (mget_mzip r c).
Qed.

Lemma mscale_closed r c tau0 A :
  wf_mat r c A -> mscale tau0 A = mk_mat r c (fun x y => (tau0 * mget A x y)%Qc).
Proof.
  intros HA. unfold mscale, vscale.
  rewrite (mat_eta r c (map _ A)) by by apply wf_mmap.
  apply mk_mat_ext. intros x y Hx Hy. by apply (mget_mmap r c).
Qed.

Lemma wf_tmap a b c (g : Qc -> Qc) T :
  wf_ten a b c T -> wf_ten a b c (map (map (map g)) T).
Proof.
  intros [H1 H2]. split; [by rewrite length_map |].
  apply Forall_map. eapply Forall_impl; [| exact H2].
  intros A HA. by apply wf_mmap.
Qed.

Lemma tget_tmap a b c (g : Qc -> Qc) T x y z :
  wf_ten a b c T -> x < a -> y < b -> z < c ->
  tget (map (map (map g)) T) x y z = g (tget T x y z).
Proof.
  intros HT Hx Hy Hz. unfold tget, tslice.
  rewrite (nth_indep _ [] (map (map g) [])) by (rewrite length_map; destruct HT; lia).
  rewrite map_nth. apply (mget_mmap b c); [by eapply wf_ten_slice | done..].
Qed.

Lemma tscale_closed a b c tau0 T :
  wf_ten a b c T ->
  tscale tau0 T = mk_ten a b c (fun x y z => (tau0 * tget T x y z)%Qc).
Proof.
  intros HT. unfold tscale, mscale, vscale.
  rewrite (ten_eta a b c (map _ T)) by by apply wf_tmap.
  apply mk_ten_ext. intros x y z Hx Hy Hz. by apply (tget_tmap a b c).
Qed.

Lemma nth_replicate_lt {A : Type} (x d : A) n i : i < n -> nth i (replicate n x) d = x.
Proof.
  revert i. induction n as [|n IH]; intros [|i] Hi; cbn; try lia; [done |].
  apply IH. lia.
Qed.

Lemma np_dstack_closed r c dim L :
  wf_mat r c L -> 0 < r -> 0 < dim ->
  np_dstack (replicate dim L) = mk_ten r c dim (fun a b _ => mget L a b).
Proof.
  intros HL Hr Hd. unfold np_dstack.
  rewrite nth_replicate_lt, length_replicate by done.
  rewrite (nrows_wf r c L), (ncols_wf r c L) by done.
  apply mk_ten_ext. intros a b i Ha Hb Hi. by rewrite nth_replicate_lt.
Qed.

Lemma np_dstack_vec_closed r dim v :
  wf_vec r v -> 0 < dim ->
  tslice (np_dstack_vec (replicate dim v)) 0 = mk_mat r dim (fun a _ => vget v a).
Proof.
  intros Hv Hd. unfold np_dstack_vec, tslice, mk_ten.
  rewrite nth_tabulate by lia.
  rewrite nth_replicate_lt, length_replicate by done. rewrite Hv.
  apply mk_mat_ext. intros a i Ha Hi. by rewrite nth_replicate_lt.
Qed.

Lemma tslice_last_closed a b c g i :
  0 < a -> 0 < b -> i < c ->
  tslice_last (mk_ten a b c g) i = mk_mat a b (fun x y => g x y i).
Proof.
  intros Ha Hb Hi. unfold tslice_last.
  rewrite (shape3_wf a b c _ (wf_mk_ten _ _ _ _)) by done.
  apply mk_mat_ext. intros x y Hx Hy. by rewrite tget_mk_ten.
Qed.

Lemma mcol_closed r c g i :
  i < c -> mcol (mk_mat r c g) i = mk_vec r (fun x => g x i).
Proof.
  intros Hi. unfold mcol. rewrite nrows_mk_mat.
  apply tabulate_ext. intros x Hx. by rewrite mget_mk_mat.
Qed.

Lemma dense_var3_row r N dim v1 tau0 Bk L i :
  0 < r -> 0 < N -> i < dim -> wf_mat dim N Bk -> wf_mat r r L ->
  tslice_last (dense_var3 Bk tau0 (mk_mat r N v1) L r dim) i =
  mk_mat r r (fun a b =>
    (tau0 * sum_upto N (fun c => v1 a c * v1 b c * mget Bk i c) + mget L a b)%Qc).
Proof.
  intros Hr HN Hi HB HL. unfold dense_var3.
  rewrite (kr_prod_closed r r N) by (done || apply wf_mk_mat).
  rewrite (matmul_transpose_closed (r * r) dim N)
    by (done || apply wf_mk_mat || nia || lia).
  rewrite np_reshape_C3_closed by apply wf_mk_mat.
  rewrite (tscale_closed r r dim) by apply wf_mk_ten.
  rewrite (np_dstack_closed r r) by (done || lia).
  rewrite (tadd_closed r r dim) by apply wf_mk_ten.
  rewrite tslice_last_closed by done.
  apply mk_mat_ext. intros a b Ha Hb.
  rewrite !tget_mk_ten, mget_mk_mat by (done || nia).
  do 2 f_equal. apply sum_upto_ext. intros c Hc.
  rewrite !mget_mk_mat by (done || nia).
  rewrite rowmajor_div, rowmajor_mod by done.
  by rewrite !mget_mk_mat.
Qed.

Lemma wf_matvec r c L v : wf_mat r c L -> wf_vec r (matvec L v).
Proof. intros HL. unfold matvec. rewrite (nrows_wf r c L) by done. apply wf_mk_vec. Qed.

Lemma dense_var4_col r N dim v1 tau0 Sk mu L i :
  0 < r -> 0 < N -> i < dim -> wf_mat dim N Sk -> wf_mat r r L ->
  mcol (dense_var4 Sk tau0 (mk_mat r N v1) mu L dim) i =
  mk_vec r (fun a =>
    (sum_upto N (fun c => tau0 * v1 a c * mget Sk i c) + vget (matvec L mu) a)%Qc).
Proof.
  intros Hr HN Hi HS HL. unfold dense_var4.
  rewrite (mscale_closed r N) by apply wf_mk_mat.
  rewrite (matmul_transpose_closed r dim N) by (done || apply wf_mk_mat || lia).
  rewrite (np_dstack_vec_closed r) by (by eapply wf_matvec || lia).
  rewrite (madd_closed r dim) by apply wf_mk_mat.
  rewrite mcol_closed by done.
  apply tabulate_ext. intros a Ha.
  rewrite !mget_mk_mat by done. f_equal.
  apply sum_upto_ext. intros c Hc. by rewrite !mget_mk_mat.
Qed.

(** ** Sums over coordinates *)

Lemma sum_upto_add n m f :
  sum_upto (n + m) f = (sum_upto n f + sum_upto m (fun i => f (n + i)%nat))%Qc.
Proof.
  induction m as [|m IH].
  - rewrite Nat.add_0_r. unfold sum_upto at 3. cbn. ring.
  - rewrite Nat.add_succ_r, !sum_upto_S, IH. ring.
Qed.

Lemma sum_upto_pairs dp dq g :
  0 < dq ->
  sum_upto (dp * dq) (fun c => g (c / dq) (c mod dq)) =
  sum_upto dp (fun p => sum_upto dq (fun q => g p q)).
Proof.
  intros Hdq. induction dp as [|dp IH]; [done |].
  rewrite Nat.mul_succ_l, sum_upto_add, IH, sum_upto_S. f_equal.
  apply sum_upto_ext. intros q Hq.
  by rewrite rowmajor_div, rowmajor_mod.
Qed.

Lemma sum_upto_pairs_of dp dq h g :
  0 < dq ->
  (forall c, c < dp * dq -> h c = g (c / dq) (c mod dq)) ->
  sum_upto (dp * dq) h = sum_upto dp (fun p => sum_upto dq (fun q => g p q)).
Proof.
  intros Hdq Hh. rewrite <- sum_upto_pairs by done. by apply sum_upto_ext.
Qed.

Lemma sumQ_filter {A : Type} (h : A -> Qc) (obs : A -> bool) l :
  sumQ (map h (List.filter obs l)) =
  sumQ (map (fun x => if obs x then h x else 0%Qc) l).
Proof.
  induction l as [|x l IH]; [done |]. cbn [List.filter map].
  destruct (obs x); cbn [map]; unfold sumQ in *; cbn [foldr]; rewrite IH; ring.
Qed.

Lemma sumQ_flat_map {A B : Type} (h : B -> Qc) (k : A -> list B) l :
  sumQ (map h (flat_map k l)) = sumQ (map (fun x => sumQ (map h (k x))) l).
Proof.
  induction l as [|x l IH]; [done |]. cbn [flat_map map].
  rewrite map_app, sumQ_app, IH. unfold sumQ. by cbn [foldr].
Qed.

Lemma sumQ_indices2 dp dq (h : nat * nat -> Qc) :
  sumQ (map h (indices2 dp dq)) =
  sum_upto dp (fun p => sum_upto dq (fun q => h (p, q))).
Proof.
  unfold indices2, sum_upto, tabulate. rewrite sumQ_flat_map.
  f_equal. apply map_ext. intros p. by rewrite map_map.
Qed.

Lemma indices2_range dp dq pq : In pq (indices2 dp dq) -> pq.1 < dp /\ pq.2 < dq.
Proof.
  unfold indices2. intros (p & Hp & Hin)%in_flat_map.
  apply in_map_iff in Hin as (q & <- & Hq).
  apply in_seq in Hp, Hq. cbn. lia.
Qed.

Lemma msum_closed r (Ms : list mat) :
  Forall (wf_mat r r) Ms ->
  msum r Ms = mk_mat r r (fun a b => sumQ (map (fun M => mget M a b) Ms)).
Proof.
  induction 1 as [|M Ms HM _ IH]; [done |].
  unfold msum in *. cbn [foldr map sumQ]. rewrite IH.
  rewrite (madd_closed r r) by (done || apply wf_mk_mat).
  apply mk_mat_ext. intros a b Ha Hb. by rewrite mget_mk_mat.
Qed.

Lemma vadd_closed r u v :
  wf_vec r u -> wf_vec r v ->
  vadd u v = mk_vec r (fun a => (vget u a + vget v a)%Qc).
Proof.
  intros Hu Hv. unfold vadd.
  rewrite (vec_eta r (zip_with _ u v)) by by apply wf_zip_with.
  apply tabulate_ext. intros a Ha. by apply (vget_zip_with r).
Qed.

Lemma vscale_closed r tau0 v :
  wf_vec r v -> vscale tau0 v = mk_vec r (fun a => (tau0 * vget v a)%Qc).
Proof.
  intros Hv. unfold vscale.
  rewrite (vec_eta r (map _ v)) by by apply wf_vmap.
  apply tabulate_ext. intros a Ha. by apply (vget_map r).
Qed.

Lemma vsum_closed r (vs : list vec) :
  Forall (wf_vec r) vs ->
  vsum r vs = mk_vec r (fun a => sumQ (map (fun v => vget v a) vs)).
Proof.
  induction 1 as [|v vs Hv _ IH]; [done |].
  unfold vsum in *. cbn [foldr map sumQ]. rewrite IH.
  rewrite (vadd_closed r) by (done || apply wf_mk_vec).
  apply tabulate_ext. intros a Ha. by rewrite vget_mk_vec.
Qed.

(** ** Means of equally shaped arrays, entry by entry *)





(** ** The mask built by [BGCP] *)

Lemma in_indices3 m n f i j t :
  i < m -> j < n -> t < f -> In (i, j, t) (indices3 (m, n, f)).
Proof.
  intros Hi Hj Ht. unfold indices3.
  apply in_flat_map. exists i. split; [apply in_seq; lia |].
  apply in_flat_map. exists j. split; [apply in_seq; lia |].
  apply in_map_iff. exists t. split; [done | apply in_seq; lia].
Qed.

Lemma binary_tensor_wf m n f S :
  wf_ten m n f S -> 0 < m -> 0 < n -> wf_ten m n f (binary_tensor S).
Proof.
  intros HS Hm Hn. unfold binary_tensor, tassign, tzeros.
  rewrite (shape3_wf m n f S) by done.
  rewrite (shape3_wf m n f _ (wf_mk_ten _ _ _ _)) by done.
  apply wf_mk_ten.
Qed.

Lemma binary_tensor_get m n f S i j t :
  wf_ten m n f S -> i < m -> j < n -> t < f ->
  tget (binary_tensor S) i j t =
  if bool_decide (tget S i j t <> 0%Qc) then 1%Qc else 0%Qc.
Proof.
  intros HS Hi Hj Ht. unfold binary_tensor, tassign, tzeros, pos_train, np_where3.
  rewrite (shape3_wf m n f S) by (done || lia).
  rewrite (shape3_wf m n f _ (wf_mk_ten _ _ _ _)) by lia.
  rewrite !tget_mk_ten by done.
  destruct (bool_decide (tget S i j t <> 0%Qc)) eqn:Hobs.
  - rewrite bool_decide_eq_true_2; [done |].
    apply list_elem_of_In, filter_In. split; [by apply in_indices3 | done].
  - rewrite bool_decide_eq_false_2; [done |].
    intros Hin%list_elem_of_In%filter_In. destruct Hin as [_ Hin].
    unfold tat in Hin. cbn in Hin. congruence.
Qed.

Section Modes.
Variables (m n f r : nat) (U V X : mat).
Hypotheses (Hm : 0 < m) (Hn : 0 < n) (Hf : 0 < f).
Hypotheses (HU : wf_mat m r U) (HV : wf_mat n r V) (HX : wf_mat f r X).

Lemma dims_positive k :
  0 < dim_of m n f k /\ 0 < later_dim m n f k /\ 0 < earlier_dim m n f k.
Proof using Hm Hn Hf. by destruct k as [|[|k]]. Qed.

Lemma cofactor_pair_wf k :
  k < 3 ->
  wf_mat (later_dim m n f k) r (cofactor_pair [U; V; X] k).1
  /\ wf_mat (earlier_dim m n f k) r (cofactor_pair [U; V; X] k).2
  /\ wf_mat (dim_of m n f k) r (nth k [U; V; X] []).
Proof using HU HV HX.
  clear Hm Hn Hf. intros Hk. by destruct k as [|[|[|k]]]; [..| lia].
Qed.

Lemma dense_var1_closed k :
  k < 3 ->
  dense_var1 [U; V; X] k =
  Ok (mk_mat r (later_dim m n f k * earlier_dim m n f k) (fun a c =>
        (mget (cofactor_pair [U; V; X] k).1 (c / earlier_dim m n f k) a
         * mget (cofactor_pair [U; V; X] k).2 (c mod earlier_dim m n f k) a)%Qc)).
Proof using Hm Hn Hf HU HV HX.
  intros Hk.
  destruct (cofactor_pair_wf k Hk) as (HP & HQ & _).
  destruct (dims_positive k) as (_ & Hdp & Hdq).
  assert (dense_var1 [U; V; X] k =
          Ok (transpose (kr_prod (cofactor_pair [U; V; X] k).1
                                 (cofactor_pair [U; V; X] k).2))) as ->
    by (by destruct k as [|[|[|k]]]; [..| lia]).
  rewrite (kr_prod_closed _ _ r) by done.
  rewrite transpose_mk_mat by nia. done.
Qed.

Lemma ten2mat_closed T k :
  wf_ten m n f T -> k < 3 ->
  ten2mat T k =
  Ok (mk_mat (dim_of m n f k) (later_dim m n f k * earlier_dim m n f k)
        (fun i c => entry_at T k i (c mod earlier_dim m n f k)
                                   (c / earlier_dim m n f k))).
Proof using Hm Hn.
  clear Hf HU HV HX. intros HT Hk. destruct k as [|[|[|k]]]; [..| lia]; cbn [dim_of later_dim
    earlier_dim entry_at].
  - rewrite (ten2mat_mode0 m n f) by done. by rewrite (Nat.mul_comm n f).
  - rewrite (ten2mat_mode1 m n f) by done. by rewrite (Nat.mul_comm m f).
  - rewrite (ten2mat_mode2 m n f) by done. by rewrite (Nat.mul_comm m n).
Qed.

Lemma entry_at_binary S k i q p :
  wf_ten m n f S -> k < 3 ->
  i < dim_of m n f k -> q < earlier_dim m n f k -> p < later_dim m n f k ->
  entry_at (binary_tensor S) k i q p =
  if bool_decide (entry_at S k i q p <> 0%Qc) then 1%Qc else 0%Qc.
Proof using Type.
  clear Hm Hn Hf HU HV HX. intros HS Hk Hi Hq Hp.
  destruct k as [|[|[|k]]]; [..| lia]; cbn in *;
    by apply (binary_tensor_get m n f).
Qed.
End Modes.

(** ** The reference posterior, entry by entry *)

Section Posterior.
Variables (m n f r : nat) (U V X : mat) (S : ten).
Hypotheses (Hm : 0 < m) (Hn : 0 < n) (Hf : 0 < f) (Hr : 0 < r).
Hypotheses (HU : wf_mat m r U) (HV : wf_mat n r V) (HX : wf_mat f r X).
Hypothesis (HS : wf_ten m n f S).

Let P k := (cofactor_pair [U; V; X] k).1.
Let Q k := (cofactor_pair [U; V; X] k).2.
Let dp := later_dim m n f.
Let dq := earlier_dim m n f.

Lemma kr_row_eq k pq : kr_row [U; V; X] k pq = vmul (mrow (P k) pq.1) (mrow (Q k) pq.2).
Proof. unfold kr_row, P, Q. by destruct (cofactor_pair _ _). Qed.

Lemma observed_with_eq k i :
  observed_with S [U; V; X] k i =
  List.filter (fun pq => bool_decide (entry_at S k i pq.2 pq.1 <> 0%Qc))
    (indices2 (nrows (P k)) (nrows (Q k))).
Proof. unfold observed_with, P, Q. by destruct (cofactor_pair _ _). Qed.

Lemma kr_row_wf k p q :
  k < 3 -> p < dp k -> q < dq k -> wf_vec r (kr_row [U; V; X] k (p, q)).
Proof.
  intros Hk Hp Hq. rewrite kr_row_eq.
  destruct (cofactor_pair_wf m n f r U V X HU HV HX k Hk) as (HP & HQ & _).
  apply wf_zip_with; by eapply wf_mat_row.
Qed.

Lemma kr_row_get k p q a :
  k < 3 -> p < dp k -> q < dq k -> a < r ->
  vget (kr_row [U; V; X] k (p, q)) a = (mget (P k) p a * mget (Q k) q a)%Qc.
Proof.
  intros Hk Hp Hq Ha. rewrite kr_row_eq.
  destruct (cofactor_pair_wf m n f r U V X HU HV HX k Hk) as (HP & HQ & _).
  unfold vmul. by apply (vget_zip_with r); [eapply wf_mat_row.. |].
Qed.

(** [kr_row] is the row of [kr_prod] that the dense strategy pairs with the
    coordinate [(p, q)]. *)
Lemma kr_row_of_kr_prod k p q :
  k < 3 -> p < dp k -> q < dq k ->
  kr_row [U; V; X] k (p, q) = mrow (kr_prod (P k) (Q k)) (p * dq k + q).
Proof.
  intros Hk Hp Hq.
  destruct (cofactor_pair_wf m n f r U V X HU HV HX k Hk) as (HP & HQ & _).
  rewrite (kr_prod_closed (dp k) (dq k) r) by (done || lia).
  unfold mrow, mk_mat. rewrite nth_tabulate by (unfold dp, dq in *; nia).
  rewrite (vec_eta r (kr_row _ _ _)) by by apply kr_row_wf.
  apply tabulate_ext. intros a Ha.
  by rewrite kr_row_get, rowmajor_div, rowmajor_mod.
Qed.

Lemma observed_range k i pq :
  k < 3 -> In pq (observed_with S [U; V; X] k i) -> pq.1 < dp k /\ pq.2 < dq k.
Proof.
  intros Hk Hin. rewrite observed_with_eq in Hin.
  destruct (cofactor_pair_wf m n f r U V X HU HV HX k Hk) as (HP & HQ & _).
  apply filter_In in Hin as [Hin _]. apply indices2_range in Hin.
  by rewrite (nrows_wf _ r (P k) HP), (nrows_wf _ r (Q k) HQ) in Hin.
Qed.

Lemma sum_observed k i (h : nat * nat -> Qc) :
  k < 3 ->
  sumQ (map h (observed_with S [U; V; X] k i)) =
  sum_upto (dp k) (fun p => sum_upto (dq k) (fun q =>
    if bool_decide (entry_at S k i q p <> 0%Qc) then h (p, q) else 0%Qc)).
Proof.
  intros Hk.
  destruct (cofactor_pair_wf m n f r U V X HU HV HX k Hk) as (HP & HQ & _).
  rewrite observed_with_eq, sumQ_filter, sumQ_indices2.
  by rewrite (nrows_wf _ r (P k) HP), (nrows_wf _ r (Q k) HQ).
Qed.

Lemma posterior_precision_closed tau0 L k i :
  k < 3 -> wf_mat r r L ->
  posterior_precision S tau0 [U; V; X] L r k i =
  mk_mat r r (fun a b =>
    (tau0 * sum_upto (dp k) (fun p => sum_upto (dq k) (fun q =>
       if bool_decide (entry_at S k i q p <> 0%Qc)
       then (mget (P k) p a * mget (Q k) q a) * (mget (P k) p b * mget (Q k) q b)
       else 0)) + mget L a b)%Qc).
Proof.
  intros Hk HL. unfold posterior_precision.
  rewrite msum_closed.
  2:{ apply Forall_map, Forall_forall. intros [p q] Hin.
      apply (observed_range k i) in Hin as [Hp Hq]; [| done]. cbn in Hp, Hq.
      pose proof (wf_outer (kr_row [U; V; X] k (p, q))
                           (kr_row [U; V; X] k (p, q))) as Ho.
      by rewrite (kr_row_wf k p q) in Ho. }
  rewrite (mscale_closed r r) by apply wf_mk_mat.
  rewrite (madd_closed r r) by (done || apply wf_mk_mat).
  apply mk_mat_ext. intros a b Ha Hb.
  rewrite !mget_mk_mat by done. do 2 f_equal.
  rewrite map_map, sum_observed by done.
  apply sum_upto_ext. intros p Hp. apply sum_upto_ext. intros q Hq.
  case_bool_decide; [| done].
  unfold outer. rewrite (kr_row_wf k p q), mget_mk_mat by done.
  by rewrite !kr_row_get.
Qed.

Lemma posterior_rhs_closed tau0 mu L k i :
  k < 3 -> wf_mat r r L ->
  posterior_rhs S tau0 [U; V; X] mu L r k i =
  mk_vec r (fun a =>
    (tau0 * sum_upto (dp k) (fun p => sum_upto (dq k) (fun q =>
       if bool_decide (entry_at S k i q p <> 0%Qc)
       then entry_at S k i q p * (mget (P k) p a * mget (Q k) q a)
       else 0)) + vget (matvec L mu) a)%Qc).
Proof.
  intros Hk HL. unfold posterior_rhs.
  rewrite vsum_closed.
  2:{ apply Forall_map, Forall_forall. intros [p q] Hin.
      apply (observed_range k i) in Hin as [Hp Hq]; [| done]. cbn in Hp, Hq.
      apply wf_vmap. by apply kr_row_wf. }
  rewrite (vscale_closed r) by apply wf_mk_vec.
  rewrite (vadd_closed r) by (apply wf_mk_vec || by eapply wf_matvec).
  apply tabulate_ext. intros a Ha.
  rewrite !vget_mk_vec by done. do 2 f_equal.
  rewrite map_map, sum_observed by done.
  apply sum_upto_ext. intros p Hp. apply sum_upto_ext. intros q Hq.
  case_bool_decide; [| done]. cbn [fst snd]. unfold vscale.
  rewrite (vget_map r) by (done || by apply kr_row_wf).
  by rewrite kr_row_get.
Qed.

(** The precision matrix and the right-hand side which the dense strategy
    reads off [var3] and [var4] for row [i] are those of the reference
    posterior. *)
Lemma dense_row_params tau0 mu L k i var1 binary_k sparse_k :
  k < 3 -> i < dim_of m n f k -> wf_mat r r L ->
  dense_var1 [U; V; X] k = Ok var1 ->
  ten2mat (binary_tensor S) k = Ok binary_k ->
  ten2mat S k = Ok sparse_k ->
  tslice_last (dense_var3 binary_k tau0 var1 L r (dim_of m n f k)) i
    = posterior_precision S tau0 [U; V; X] L r k i
  /\ mcol (dense_var4 sparse_k tau0 var1 mu L (dim_of m n f k)) i
    = posterior_rhs S tau0 [U; V; X] mu L r k i.
Proof using Hm Hn Hf Hr HU HV HX HS.
  intros Hk Hi HL Hvar1 Hbin Hsp.
  destruct (dims_positive m n f Hm Hn Hf k) as (_ & Hdp & Hdq).
  rewrite (dense_var1_closed m n f r U V X Hm Hn Hf HU HV HX k Hk) in Hvar1.
  rewrite (ten2mat_closed m n f Hm Hn _ k (binary_tensor_wf m n f S HS Hm Hn) Hk)
    in Hbin.
  rewrite (ten2mat_closed m n f Hm Hn _ k HS Hk) in Hsp.
  injection Hvar1 as <-. injection Hbin as <-. injection Hsp as <-.
  fold (dp k) (dq k) (P k) (Q k) in *.
  assert (HN : 0 < dp k * dq k) by nia.
  split.
  - rewrite dense_var3_row by (done || apply wf_mk_mat).
    rewrite posterior_precision_closed by done.
    apply mk_mat_ext. intros a b Ha Hb. do 2 f_equal.
    etransitivity.
    { apply (sum_upto_pairs_of (dp k) (dq k) _
        (fun p q => (mget (P k) p a * mget (Q k) q a
                     * (mget (P k) p b * mget (Q k) q b)
                     * entry_at (binary_tensor S) k i q p)%Qc) Hdq).
      intros c Hc. by rewrite mget_mk_mat. }
    apply sum_upto_ext. intros p Hp. apply sum_upto_ext. intros q Hq.
    cbv beta. rewrite (entry_at_binary m n f) by done.
    case_bool_decide; ring.
  - rewrite dense_var4_col by (done || apply wf_mk_mat).
    rewrite posterior_rhs_closed by done.
    apply tabulate_ext. intros a Ha. f_equal.
    etransitivity.
    { apply (sum_upto_pairs_of (dp k) (dq k) _
        (fun p q => (tau0 * (mget (P k) p a * mget (Q k) q a)
                     * entry_at S k i q p)%Qc) Hdq).
      intros c Hc. by rewrite mget_mk_mat. }
    rewrite <- sum_upto_scale. apply sum_upto_ext. intros p Hp.
    rewrite <- sum_upto_scale. apply sum_upto_ext. intros q Hq.
    cbv beta. case_bool_decide as Hobs; [ring |].
    rewrite Hobs. ring.
Qed.
End Posterior.

Lemma for_loop_ext `{NumpyLib} {St X : Type} (xs : list X) (st : St) body1 body2 w :
  (forall st x w, In x xs -> body1 st x w = body2 st x w) ->
  for_loop xs st body1 w = for_loop xs st body2 w.
Proof.
  revert st w. induction xs as [|x xs IH]; intros st w Hbody; [done |].
  cbn [for_loop]. rewrite (bind_ext_l _ _ _ _ (Hbody st x w (or_introl eq_refl))).
  apply bind_ext. intros st' w' _. apply IH.
  intros st1 y w1 Hy. apply Hbody. by right.
Qed.


(** C1, at a failing input.  On the 2 x 2 x 3 example, with the same
    inputs and with samplers that return the mean of the distribution they
    are asked for, the dense strategy gives row 1 of mode 0 the posterior of
    row 1, and the per-row strategy gives it the posterior of row 0 once
    more: its subscript [binary_tensor[k, :, :]] names the slice [k], not
    the slice [i]. *)
Theorem sample_factor_strategies_disagree :
  let run vargin :=
    (@sample_factor mean_lib ex_sparse (binary_tensor ex_sparse) 1%Qc ex_factor
       ex_mu ex_Lambda 0 vargin ex_world).1 in
  run 0 = Ok [[Q2Qc (1 # 2); Q2Qc (1 # 2)]; [Q2Qc (4 # 5); Q2Qc (3 # 2)]]
  /\ run 1 = Ok [[Q2Qc (1 # 2); Q2Qc (1 # 2)]; [Q2Qc (1 # 2); Q2Qc (1 # 2)]]
  /\ run 0 <> run 1.
Proof. cbv zeta. split; [by_compute |]. split; by_compute. Qed.

(** ** Row counts kept by the updates *)

Section Shapes.
Context `{NumpyLib}.

Lemma bind_Ok_inv {A B : Type} (m : M A) (k : A -> M B) w b w' :
  (m ≫= k) w = (Ok b, w') ->
  exists a w1, m w = (Ok a, w1) /\ k a w1 = (Ok b, w').
Proof.
  unfold mbind, M_bind. destruct (m w) as [[a | e] w1]; [| done].
  intros Hk. by exists a, w1.
Qed.

Lemma for_loop_inv {St X : Type} (I : St -> Prop) (xs : list X) body st w st' w' :
  I st ->
  (forall st x w st' w', I st -> body st x w = (Ok st', w') -> I st') ->
  for_loop xs st body w = (Ok st', w') -> I st'.
Proof.
  intros Hst Hbody. revert st w Hst.
  induction xs as [|x xs IH]; intros st w Hst.
  - by intros [= <- <-].
  - cbn [for_loop]. intros (st1 & w1 & Hx & Hrest)%bind_Ok_inv.
    eapply IH; [| exact Hrest]. by eapply Hbody.
Qed.

Lemma row_insert_Ok (Fk Fk' : mat) i (s : rng_state -> vec * rng_state) w w' :
  (row ← draw s; mret (<[i := row]> Fk)) w = (Ok Fk', w') ->
  nrows Fk' = nrows Fk.
Proof.
  intros (row & w1 & _ & [= <- <-])%bind_Ok_inv.
  unfold nrows. by rewrite length_insert.
Qed.

Lemma sample_factor_nrows S B tau0 F mu L k vargin w Fk' w' :
  sample_factor S B tau0 F mu L k vargin w = (Ok Fk', w') ->
  exists Fk, F !! k = Some Fk /\ nrows Fk' = nrows Fk.
Proof.
  unfold sample_factor. intros (Fk & w1 & HFk & Hrun)%bind_Ok_inv.
  exists Fk. split.
  { unfold liftR, py_index in HFk. destruct (F !! k); [| done].
    injection HFk as -> _. done. }
  clear HFk. cbv zeta in Hrun.
  destruct (strategy _ _ _ _) as [|[|?]].
  - apply bind_Ok_inv in Hrun as (var1 & w2 & _ & Hrun).
    apply bind_Ok_inv in Hrun as (binary_k & w3 & _ & Hrun).
    apply bind_Ok_inv in Hrun as (sparse_k & w4 & _ & Hrun).
    revert Hrun. apply (for_loop_inv (fun st => nrows st = nrows Fk)); [done |].
    intros st i w5 st' w6 Hst Hrow. unfold dense_row in Hrow.
    apply row_insert_Ok in Hrow. congruence.
  - assert (Hloop : for_loop (seq 0 (nrows Fk)) Fk
              (sparse_row S B tau0 F (matvec L mu) L k (ncols Fk)) w1
              = (Ok Fk', w') -> nrows Fk' = nrows Fk).
    { apply (for_loop_inv (fun st => nrows st = nrows Fk)); [done |].
      intros st i w5 st' w6 Hst Hrow. unfold sparse_row in Hrow.
      apply bind_Ok_inv in Hrow as (pos0 & w7 & _ & Hrow).
      apply bind_Ok_inv in Hrow as ([temp1 temp2] & w8 & _ & Hrow).
      apply row_insert_Ok in Hrow. congruence. }
    destruct k as [|[|[|k]]]; [by apply Hloop.. |]. by injection Hrun as <- _.
  - by injection Hrun as <- _.
Qed.

Lemma factor_step_rows S rank tau0 F k w F' w' :
  factor_step S rank tau0 F k w = (Ok F', w') -> map nrows F' = map nrows F.
Proof.
  unfold factor_step. intros (Fk & w1 & _ & Hrun)%bind_Ok_inv.
  apply bind_Ok_inv in Hrun as ([mu_k Lambda_k] & w2 & _ & Hrun).
  apply bind_Ok_inv in Hrun as (Fk' & w3 & Hsample & [= <- <-]).
  apply sample_factor_nrows in Hsample as (Fk0 & Hk & Hrows).
  rewrite list_fmap_insert, Hrows. apply list_insert_id.
  by rewrite list_lookup_fmap, Hk.
Qed.

End Shapes.

(** ** The theorems at the example *)

Lemma ex_sparse_wf : wf_ten 2 2 3 ex_sparse.
Proof. split; [done |]. repeat constructor. Qed.

Lemma ex_dense_wf : wf_ten 2 2 3 ex_dense.
Proof. split; [done |]. repeat constructor. Qed.

Lemma ex_U_wf : wf_mat 2 2 ex_U.
Proof. split; [done |]. repeat constructor. Qed.

Lemma ex_V_wf : wf_mat 2 2 ex_V.
Proof. split; [done |]. repeat constructor. Qed.

Lemma ex_X_wf : wf_mat 3 2 ex_X.
Proof. split; [done |]. repeat constructor. Qed.

Lemma ex_Lambda_wf : wf_mat 2 2 ex_Lambda.
Proof. split; [done |]. repeat constructor. Qed.


Lemma ex_dense_strategy : strategy ex_sparse 2 2 0 = 0.
Proof. by vm_compute. Qed.

Lemma ten2mat_roundtrip_witness :
  wf_ten 2 2 3 ex_sparse /\ 0 < 2 /\ 0 < 3 /\ 1 < 3
  /\ exists M,
       ten2mat ex_sparse 1 = Ok M
       /\ mat2ten M (2, 2, 3) 1 = ex_sparse
       /\ wf_mat (dim_of 2 2 3 1) (earlier_dim 2 2 3 1 * later_dim 2 2 3 1) M.
Proof.
  split; [exact ex_sparse_wf |]. split; [lia |]. split; [lia |]. split; [lia |].
  apply (ten2mat_roundtrip 2 2 3 ex_sparse 1);
    [exact ex_sparse_wf | lia | lia | lia | lia].
Defined.



(** * Further properties of the notebook's functions *)

(** ** The array kernels *)

Lemma mrow_mk_mat r c g i : i < r -> mrow (mk_mat r c g) i = mk_vec c (g i).
Proof. intros Hi. unfold mrow, mk_mat. by rewrite nth_tabulate. Qed.

Lemma vmul_closed r u v :
  wf_vec r u -> wf_vec r v ->
  vmul u v = mk_vec r (fun a => (vget u a * vget v a)%Qc).
Proof.
  intros Hu Hv. rewrite (vec_eta r (vmul u v)) by by apply wf_zip_with.
  apply tabulate_ext. intros a Ha. by apply (vget_zip_with r).
Qed.

(** X1. [kr_prod a b] is the column-wise Kronecker product: for [a] of
    shape I x R and [b] of shape J x R it has I * J rows and R columns, and
    its row [i * J + j] is the entrywise product of row [i] of [a] and row
    [j] of [b]. *)
Theorem kr_prod_rows I J R (a b : mat) :
  wf_mat I R a -> wf_mat J R b -> 0 < I -> 0 < J -> 0 < R ->
  wf_mat (I * J) R (kr_prod a b)
  /\ forall i j, i < I -> j < J ->
       mrow (kr_prod a b) (i * J + j) = vmul (mrow a i) (mrow b j).
Proof.
  intros Ha Hb HI HJ HR. rewrite (kr_prod_closed I J R) by done.
  split; [apply wf_mk_mat |].
  intros i j Hi Hj. rewrite mrow_mk_mat by nia.
  rewrite (vmul_closed R) by (eapply wf_mat_row; eauto).
  apply tabulate_ext. intros s Hs.
  by rewrite rowmajor_div, rowmajor_mod.
Qed.

(** The product printed by the notebook for its example. *)
Lemma kr_prod_example :
  kr_prod nb_A nb_B = mat_of [[5; 12]; [7; 16]; [9; 20]; [15; 24]; [21; 32]; [27; 40]]%Z.
Proof. by_compute. Qed.

(** X2. [cp_combine] reads the first three matrices of its list and no
    other: with fewer than three it raises [IndexError]; with matrices
    [U], [V], [X] of [m], [n] and [f] rows and [r] columns in front it
    returns, whatever follows them, the [m] x [n] x [f] tensor whose entry
    [(i, j, t)] is the sum over the columns [s] of
    [U[i, s] * V[j, s] * X[t, s]]. *)
Theorem cp_combine_arity (var : list mat) :
  (length var < 3 -> cp_combine var = Raise IndexError)
  /\ (forall m n f r U V X rest, var = U :: V :: X :: rest ->
        wf_mat m r U -> wf_mat n r V -> wf_mat f r X ->
        exists T,
          cp_combine var = Ok T
          /\ cp_combine [U; V; X] = Ok T
          /\ wf_ten m n f T
          /\ forall i j t, i < m -> j < n -> t < f ->
               tget T i j t =
               sum_upto r (fun s => (mget U i s * mget V j s * mget X t s)%Qc)).
Proof.
  split.
  - destruct var as [|U [|V [|X rest]]]; cbn; (done || lia).
  - intros m n f r U V X rest -> HU HV HX. exists (einsum_is_js_ts_ijt U V X).
    split; [done |]. split; [done |]. unfold einsum_is_js_ts_ijt.
    rewrite (nrows_wf m r U), (nrows_wf n r V), (nrows_wf f r X) by done.
    split; [apply wf_mk_ten |].
    intros i j t Hi Hj Ht. rewrite tget_mk_ten by done.
    by rewrite (ncols_wf m r U) by (done || lia).
Qed.

(** The tensor printed by the notebook for its example. *)
Lemma cp_combine_example :
  cp_combine nb_factor =
  Ok (ten_of [[[31; 38; 45; 52]; [42; 52; 62; 72]; [65; 82; 99; 116]];
              [[63; 78; 93; 108]; [86; 108; 130; 152]; [135; 174; 213; 252]]]%Z).
Proof. by_compute. Qed.

(** X3. The unfolding of a CP reconstruction factors through the
    Khatri-Rao product exactly as the dense strategy of [sample_factor]
    forms it: for each mode [k], [ten2mat(cp_combine(factor), k)] is
    [factor[k] @ var1] with [var1] the transposed Khatri-Rao product that
    lines 389-394 build for that mode. *)
Theorem cp_combine_unfolding m n f r (U V X : mat) k :
  0 < m -> 0 < n -> 0 < f -> 0 < r ->
  wf_mat m r U -> wf_mat n r V -> wf_mat f r X -> k < 3 ->
  exists T var1,
    cp_combine [U; V; X] = Ok T
    /\ dense_var1 [U; V; X] k = Ok var1
    /\ ten2mat T k = Ok (matmul (nth k [U; V; X] []) var1).
Proof.
  intros Hm Hn Hf Hr HU HV HX Hk.
  destruct (dims_positive m n f Hm Hn Hf k) as (Hd & Hl & He).
  destruct (cofactor_pair_wf m n f r U V X HU HV HX k Hk) as (_ & _ & HFk).
  eexists _, _. split; [reflexivity |].
  split; [by apply (dense_var1_closed m n f r) |].
  assert (wf_ten m n f (einsum_is_js_ts_ijt U V X)) as HT.
  { unfold einsum_is_js_ts_ijt.
    rewrite (nrows_wf m r U), (nrows_wf n r V), (nrows_wf f r X) by done.
    apply wf_mk_ten. }
  rewrite (ten2mat_closed m n f) by done. f_equal.
  unfold matmul.
  rewrite (nrows_wf _ _ _ HFk), (ncols_wf _ _ _ HFk) by done.
  rewrite ncols_mk_mat by done.
  apply mk_mat_ext. intros i c Hi Hc.
  assert (c mod earlier_dim m n f k < earlier_dim m n f k
          /\ c / earlier_dim m n f k < later_dim m n f k) as [Hq Hp].
  { apply divmod_lt; [done |]. by rewrite Nat.mul_comm. }
  unfold einsum_is_js_ts_ijt.
  rewrite (nrows_wf m r U), (nrows_wf n r V), (nrows_wf f r X) by done.
  rewrite (ncols_wf m r U) by done.
  destruct k as [|[|[|k]]]; [| | | lia];
    cbn [entry_at cofactor_pair nth fst snd later_dim earlier_dim dim_of] in *;
    rewrite tget_mk_ten by done;
    apply sum_upto_ext; intros s Hs;
    rewrite mget_mk_mat by done; ring.
Qed.

(** X4. The layout of the three unfoldings of an [m] x [n] x [f] tensor:
    entry [(i, j, t)] sits in the mode-0 unfolding at row [i], column
    [j + n * t], in the mode-1 unfolding at row [j], column [i + m * t],
    and in the mode-2 unfolding at row [t], column [i + m * j]; any mode
    above 2 raises numpy's [AxisError]. *)
Theorem ten2mat_layout m n f (T : ten) :
  wf_ten m n f T -> 0 < m -> 0 < n -> 0 < f ->
  (exists M0 M1 M2,
     ten2mat T 0 = Ok M0 /\ ten2mat T 1 = Ok M1 /\ ten2mat T 2 = Ok M2
     /\ forall i j t, i < m -> j < n -> t < f ->
          mget M0 i (j + n * t) = tget T i j t
          /\ mget M1 j (i + m * t) = tget T i j t
          /\ mget M2 t (i + m * j) = tget T i j t)
  /\ forall mode, 3 <= mode -> ten2mat T mode = Raise AxisError.
Proof.
  intros HT Hm Hn Hf. split.
  - eexists _, _, _.
    split; [by apply (ten2mat_mode0 m n f) |].
    split; [by apply (ten2mat_mode1 m n f) |].
    split; [by apply (ten2mat_mode2 m n f) |].
    intros i j t Hi Hj Ht.
    rewrite !mget_mk_mat by (done || by apply pair_lt).
    by rewrite !pair_mod, !pair_div.
  - intros mode Hmode. unfold ten2mat, np_moveaxis_front.
    destruct (shape3 T) as [[a b] c].
    by destruct mode as [|[|[|mode]]]; [lia.. |].
Qed.

(** The three unfoldings printed by the notebook for its example. *)
Lemma ten2mat_example :
  ten2mat nb_X 0 = Ok (mat_of [[1; 3; 2; 4; 3; 5; 4; 6];
                               [5; 7; 6; 8; 7; 9; 8; 10];
                               [9; 11; 10; 12; 11; 13; 12; 14]]%Z)
  /\ ten2mat nb_X 1 = Ok (mat_of [[1; 5; 9; 2; 6; 10; 3; 7; 11; 4; 8; 12];
                                  [3; 7; 11; 4; 8; 12; 5; 9; 13; 6; 10; 14]]%Z)
  /\ ten2mat nb_X 2 = Ok (mat_of [[1; 5; 9; 3; 7; 11];
                                  [2; 6; 10; 4; 8; 12];
                                  [3; 7; 11; 5; 9; 13];
                                  [4; 8; 12; 6; 10; 14]]%Z).
Proof. split; [by_compute |]. split; by_compute. Qed.

(** ** Finite sums *)

Lemma sum_upto_0 f : sum_upto 0 f = 0%Qc.
Proof. reflexivity. Qed.

Lemma sum_upto_plus n f g :
  sum_upto n (fun i => (f i + g i)%Qc) = (sum_upto n f + sum_upto n g)%Qc.
Proof.
  induction n as [|n IH]; [rewrite !sum_upto_0; ring |].
  rewrite !sum_upto_S, IH. ring.
Qed.

Lemma sum_upto_scale_r n a f :
  sum_upto n (fun i => (f i * a)%Qc) = (sum_upto n f * a)%Qc.
Proof.
  rewrite Qcmult_comm, <- sum_upto_scale. apply sum_upto_ext. intros; ring.
Qed.

Lemma sum_upto_swap n m (g : nat -> nat -> Qc) :
  sum_upto n (fun a => sum_upto m (fun i => g a i)) =
  sum_upto m (fun i => sum_upto n (fun a => g a i)).
Proof.
  induction n as [|n IH].
  - rewrite sum_upto_0. induction m as [|m IHm]; [done |].
    rewrite sum_upto_S, <- IHm, sum_upto_0. ring.
  - rewrite sum_upto_S, IH, <- sum_upto_plus.
    apply sum_upto_ext. intros i _. by rewrite sum_upto_S.
Qed.

Lemma sum_upto_nonneg n f :
  (forall i, i < n -> (0 <= f i)%Qc) -> (0 <= sum_upto n f)%Qc.
Proof.
  induction n as [|n IH]; intros Hf; [rewrite sum_upto_0; apply Qcle_refl |].
  rewrite sum_upto_S. apply Qcplus_nonneg_nonneg; [apply IH |]; auto.
Qed.

Lemma Qn_S n : Qn (S n) = (Qn n + 1)%Qc.
Proof.
  unfold Qn. by rewrite Nat2Z.inj_succ, <- Z.add_1_r, Z2Qc_inj_add, Z2Qc_inj_1.
Qed.

Lemma Qn_0 : Qn 0 = 0%Qc.
Proof. apply Z2Qc_inj_0. Qed.

Lemma sum_upto_const n c : sum_upto n (fun _ => c) = (Qn n * c)%Qc.
Proof.
  induction n as [|n IH]; [rewrite sum_upto_0, Qn_0; ring |].
  rewrite sum_upto_S, IH, Qn_S. ring.
Qed.

Lemma Qcsquare_nonneg (x : Qc) : (0 <= x * x)%Qc.
Proof.
  destruct (Qc_le_total 0%Qc x) as [Hx | Hx].
  - by apply Qcmult_nonneg_nonneg.
  - replace (x * x)%Qc with ((- x) * (- x))%Qc by ring.
    assert (0 <= - x)%Qc as Hx'.
    { apply Qcopp_le_compat in Hx. by replace (- 0)%Qc with 0%Qc in Hx by ring. }
    by apply Qcmult_nonneg_nonneg.
Qed.

(** ** The scatter matrix *)

Lemma cov_mat_entry dim rank F a b :
  wf_mat dim rank F -> 0 < dim -> a < rank -> b < rank ->
  mget (cov_mat F) a b =
  sum_upto dim (fun i =>
    ((mget F i a - vget (row_mean dim rank F) a)
     * (mget F i b - vget (row_mean dim rank F) b))%Qc).
Proof.
  intros HF Hdim Ha Hb. rewrite (cov_mat_eq dim rank) by done.
  unfold row_scatter. by rewrite mget_mk_mat.
Qed.

(** X5. [cov_mat] returns a symmetric, positive semidefinite matrix: its
    entries [(a, b)] and [(b, a)] agree, and its quadratic form at any
    vector [v] is the sum over the rows of the squared product of [v] with
    the centred row, hence never negative. *)
Theorem cov_mat_symmetric_psd dim rank (F : mat) :
  wf_mat dim rank F -> 0 < dim ->
  (forall a b, a < rank -> b < rank -> mget (cov_mat F) a b = mget (cov_mat F) b a)
  /\ forall v : vec,
       let centred i a := (mget F i a - vget (np_mean_axis0 F) a)%Qc in
       let quad := sum_upto rank (fun a => sum_upto rank (fun b =>
                     (vget v a * mget (cov_mat F) a b * vget v b)%Qc)) in
       quad = sum_upto dim (fun i =>
                (sum_upto rank (fun a => vget v a * centred i a) ^ 2)%Qc)
       /\ (0 <= quad)%Qc.
Proof.
  intros HF Hdim. split.
  - intros a b Ha Hb. rewrite !(cov_mat_entry dim rank) by done.
    apply sum_upto_ext. intros i _. ring.
  - intros v centred quad.
    assert (quad = sum_upto dim (fun i =>
              (sum_upto rank (fun a => vget v a * centred i a) ^ 2)%Qc)) as Hquad.
    { subst quad centred. rewrite (np_mean_axis0_eq dim rank) by done.
      transitivity (sum_upto rank (fun a => sum_upto rank (fun b => sum_upto dim (fun i =>
        ((vget v a * (mget F i a - vget (row_mean dim rank F) a))
         * (vget v b * (mget F i b - vget (row_mean dim rank F) b)))%Qc)))).
      { apply sum_upto_ext. intros a Ha. apply sum_upto_ext. intros b Hb.
        rewrite (cov_mat_entry dim rank) by done.
        rewrite <- sum_upto_scale, <- sum_upto_scale_r.
        apply sum_upto_ext. intros i _. ring. }
      transitivity (sum_upto rank (fun a => sum_upto dim (fun i => sum_upto rank (fun b =>
        ((vget v a * (mget F i a - vget (row_mean dim rank F) a))
         * (vget v b * (mget F i b - vget (row_mean dim rank F) b)))%Qc)))).
      { apply sum_upto_ext. intros a _. apply sum_upto_swap. }
      rewrite sum_upto_swap. apply sum_upto_ext. intros i _.
      cbn [Qcpower]. rewrite Qcmult_1_r, <- sum_upto_scale_r.
      apply sum_upto_ext. intros a _. by rewrite <- sum_upto_scale. }
    split; [done |]. rewrite Hquad.
    apply sum_upto_nonneg. intros i _. cbn [Qcpower]. rewrite Qcmult_1_r.
    apply Qcsquare_nonneg.
Qed.

(** ** The metrics *)

Lemma Qn_pos n : 0 < n -> (0 < Qn n)%Qc.
Proof. intros Hn. rewrite <- Z2Qc_inj_0. unfold Qn. apply (proj1 (Z2Qc_inj_lt _ _)). lia. Qed.

(** The sum inside [compute_mape] when no ground-truth value is zero. *)
Lemma mape_terms_finite (var var_hat : vec) :
  Forall (fun x => x <> 0%Qc) var ->
  np_sum_ext (zip_with np_true_divide (map Qcabs (vsub var var_hat)) var) =
  Finite (sumQ (zip_with (fun x y => (Qcabs (x - y) / x)%Qc) var var_hat)).
Proof.
  intros Hvar. revert var_hat.
  induction Hvar as [|x var Hx Hvar IH]; intros [|y var_hat]; try done.
  unfold vsub in *. cbn [zip_with map sumQ foldr np_sum_ext].
  fold (np_sum_ext (zip_with np_true_divide (map Qcabs (zip_with Qcminus var var_hat)) var)).
  rewrite IH. unfold np_true_divide at 1. by rewrite decide_False.
Qed.

Lemma compute_mape_closed (var var_hat : vec) :
  Forall (fun x => x <> 0%Qc) var -> var <> [] ->
  compute_mape var var_hat =
  Finite (sumQ (zip_with (fun x y => (Qcabs (x - y) / x)%Qc) var var_hat)
          / Qn (length var))%Qc.
Proof.
  intros Hvar Hne. unfold compute_mape. rewrite mape_terms_finite by done.
  unfold np_divide_count, np_true_divide. rewrite decide_False; [done |].
  apply Qn_nonzero. destruct var; [done | cbn; lia].
Qed.

Lemma Qcdiv_nonneg (x y : Qc) : (0 <= x)%Qc -> (0 < y)%Qc -> (0 <= x / y)%Qc.
Proof.
  intros Hx Hy. unfold Qcdiv. apply Qcmult_nonneg_nonneg; [done |].
  by apply Qclt_le_weak, Qcinv_pos.
Qed.

Lemma Qcdiv_zero (x y : Qc) : y <> 0%Qc -> (x / y)%Qc = 0%Qc <-> x = 0%Qc.
Proof.
  intros Hy. split; [| intros ->; by field].
  intros H0. replace x with (x / y * y)%Qc by by field.
  rewrite H0. ring.
Qed.

Lemma Qcplus_nonneg_zero (x y : Qc) :
  (0 <= x)%Qc -> (0 <= y)%Qc -> (x + y)%Qc = 0%Qc -> x = 0%Qc /\ y = 0%Qc.
Proof.
  intros Hx Hy Hsum.
  assert (x <= 0)%Qc as Hx'.
  { rewrite <- Hsum. rewrite <- (Qcplus_0_r x) at 1. by apply Qcplus_le_mono_l. }
  assert (x = 0%Qc) as -> by by apply Qcle_antisym.
  split; [done |]. by rewrite Qcplus_0_l in Hsum.
Qed.

Lemma sumQ_cons x l : sumQ (x :: l) = (x + sumQ l)%Qc.
Proof. reflexivity. Qed.

(** The relative errors of estimates against positive truths. *)
Lemma mape_terms_positive (var var_hat : vec) :
  Forall (fun x => (0 < x)%Qc) var -> length var_hat = length var ->
  let s := sumQ (zip_with (fun x y => (Qcabs (x - y) / x)%Qc) var var_hat) in
  (0 <= s)%Qc /\ (s = 0%Qc <-> var_hat = var).
Proof.
  intros Hvar. revert var_hat.
  induction Hvar as [|x var Hx Hvar IH]; intros [|y var_hat] Hlen;
    [by split; [apply Qcle_refl |] | done | done |].
  - injection Hlen as Hlen. destruct (IH var_hat Hlen) as [IH0 IHeq].
    cbv zeta. cbn [zip_with]. rewrite sumQ_cons.
    assert (0 <= Qcabs (x - y) / x)%Qc as Hterm
      by (apply Qcdiv_nonneg; [apply Qcabs_nonneg | done]).
    split; [by apply Qcplus_nonneg_nonneg |]. split.
    + intros Hsum. apply Qcplus_nonneg_zero in Hsum as [Hxy Hrest]; [| done..].
      apply Qcdiv_zero in Hxy; [| by apply not_eq_sym, Qclt_not_eq].
      apply Qcabs_null in Hxy. apply IHeq in Hrest as ->.
      f_equal. symmetry. rewrite <- (Qcplus_0_l y), <- Hxy. ring.
    + intros [= -> ->]. replace (x - x)%Qc with 0%Qc by ring.
      assert (var = var) as Hrest by done. apply IHeq in Hrest.
      rewrite Hrest. rewrite Qcabs_pos by apply Qcle_refl.
      unfold Qcdiv. ring.
Qed.

Lemma compute_mape_empty (var_hat : vec) : compute_mape [] var_hat = NonFinite.
Proof.
  unfold compute_mape, np_divide_count, np_true_divide. cbn.
  by rewrite decide_True by apply Qn_0.
Qed.

(** X8. For ground-truth values that are all positive and an estimate of
    the same length, a MAPE that is a finite number is never negative, and
    it is zero exactly when the estimate equals the truth. *)
Theorem compute_mape_positive_truth (var var_hat : vec) (x : Qc) :
  Forall (fun v => (0 < v)%Qc) var ->
  length var_hat = length var ->
  compute_mape var var_hat = Finite x ->
  (0 <= x)%Qc /\ (x = 0%Qc <-> var_hat = var).
Proof.
  intros Hvar Hlen Hx.
  destruct (decide (var = [])) as [-> | Hne];
    [by rewrite compute_mape_empty in Hx |].
  assert (0 < length var) as Hpos by (destruct var; [done | cbn; lia]).
  destruct (mape_terms_positive var var_hat Hvar Hlen) as [Hs Heq].
  rewrite compute_mape_closed in Hx; [| | done].
  2:{ eapply Forall_impl; [| exact Hvar].
      intros v Hv. by apply not_eq_sym, Qclt_not_eq. }
  injection Hx as <-.
  split; [apply Qcdiv_nonneg; [done | by apply Qn_pos] |].
  rewrite Qcdiv_zero by by apply Qn_nonzero. done.
Qed.

Lemma mape_terms_opp (var var_hat : vec) :
  Forall (fun x => x <> 0%Qc) var ->
  sumQ (zip_with (fun x y => (Qcabs (x - y) / x)%Qc) var var_hat) =
  (- sumQ (zip_with (fun x y => (Qcabs (x - y) / x)%Qc)
             (map Qcopp var) (map Qcopp var_hat)))%Qc.
Proof.
  intros Hvar. revert var_hat.
  induction Hvar as [|x var Hx Hvar IH]; intros [|y var_hat];
    [unfold sumQ; cbn [map zip_with foldr]; ring.. |].
  cbn [map zip_with]. rewrite !sumQ_cons, IH.
  replace (- x - - y)%Qc with (- (x - y))%Qc by ring.
  rewrite Qcabs_opp. field. split; [| done].
  intros H0. apply Hx. rewrite <- (Qcopp_involutive x), H0. ring.
Qed.

Lemma map_Qcopp_inj (u v : vec) : map Qcopp u = map Qcopp v -> u = v.
Proof.
  revert v. induction u as [|x u IH]; intros [|y v]; try done.
  cbn [map]. intros Heq.
  assert ((- x)%Qc = (- y)%Qc) as Hxy
    by exact (f_equal (fun l => nth 0 l 0%Qc) Heq).
  assert (map Qcopp u = map Qcopp v) as Huv by exact (f_equal (drop 1) Heq).
  f_equal; [| by apply IH].
  by rewrite <- (Qcopp_involutive x), Hxy, Qcopp_involutive.
Qed.

(** X9. [compute_mape] divides by the ground-truth value itself, not by
    its magnitude: for ground-truth values that are all negative and an
    estimate of the same length, a MAPE that is a finite number is never
    positive, and again zero exactly when the estimate equals the truth. *)
Theorem compute_mape_negative_truth (var var_hat : vec) (x : Qc) :
  Forall (fun v => (v < 0)%Qc) var ->
  length var_hat = length var ->
  compute_mape var var_hat = Finite x ->
  (x <= 0)%Qc /\ (x = 0%Qc <-> var_hat = var).
Proof.
  intros Hvar Hlen Hx.
  destruct (decide (var = [])) as [-> | Hne];
    [by rewrite compute_mape_empty in Hx |].
  assert (0 < length var) as Hpos by (destruct var; [done | cbn; lia]).
  assert (Forall (fun v => v <> 0%Qc) var) as Hnz.
  { eapply Forall_impl; [| exact Hvar]. intros v Hv. by apply Qclt_not_eq. }
  assert (Forall (fun v => (0 < v)%Qc) (map Qcopp var)) as Hopp.
  { apply Forall_map. eapply Forall_impl; [| exact Hvar].
    intros v Hv. cbv beta. apply Qclt_minus_iff in Hv.
    by rewrite Qcplus_0_l in Hv. }
  destruct (mape_terms_positive (map Qcopp var) (map Qcopp var_hat) Hopp)
    as [Hs Heq]; [by rewrite !length_map |].
  cbv zeta in Hs, Heq.
  rewrite compute_mape_closed in Hx by done. injection Hx as <-.
  rewrite mape_terms_opp by done.
  set (s := sumQ _) in *. split.
  - replace (- s / Qn (length var))%Qc with (- (s / Qn (length var)))%Qc
      by (field; by apply Qn_nonzero).
    replace 0%Qc with (- 0)%Qc by ring. apply Qcopp_le_compat.
    apply Qcdiv_nonneg; [done | by apply Qn_pos].
  - rewrite Qcdiv_zero by by apply Qn_nonzero. split.
    + intros Hs0. apply map_Qcopp_inj, Heq.
      rewrite <- (Qcopp_involutive s), Hs0. ring.
    + intros ->. assert (s = 0%Qc) as -> by by apply Heq. ring.
Qed.

Lemma squares_symmetric (u v : vec) :
  sumQ (map (fun x => (x ^ 2)%Qc) (vsub u v)) =
  sumQ (map (fun x => (x ^ 2)%Qc) (vsub v u)).
Proof.
  revert v. induction u as [|x u IH]; intros [|y v]; try done.
  unfold vsub in *. cbn [zip_with map]. rewrite !sumQ_cons, IH.
  cbn [Qcpower]. ring.
Qed.

(** X11. [compute_rmse] treats its two arguments alike: swapping an
    estimate and a truth of the same length does not change the result;
    [compute_mape], which divides by its first argument, has no such
    symmetry. *)
Theorem compute_rmse_symmetric `{NumpyLib} (var var_hat : vec) :
  length var_hat = length var ->
  compute_rmse var var_hat = compute_rmse var_hat var.
Proof.
  intros Hlen. unfold compute_rmse. by rewrite squares_symmetric, Hlen.
Qed.

(** ** Edge cases of [sample_factor] *)

(** X12. When no branch of [sample_factor] applies it samples nothing: for
    a [vargin] other than 0 and 1 that the size tests leave alone, and for
    the per-row strategy at a mode above 2, the call returns [factor[k]]
    as it is, draws nothing and prints nothing.  (The hyper-parameters are
    well-shaped, so that line 403 can form their product.) *)
Theorem sample_factor_no_branch `{NumpyLib} r (sparse_tensor binary_tensor0 : ten)
    (tau0 : Qc) (factor0 : list mat) (mu : vec) (L : mat) (k vargin : nat)
    (Fk : mat) (w : world) :
  wf_mat r r L -> wf_vec r mu ->
  factor0 !! k = Some Fk ->
  2 <= strategy sparse_tensor (nrows Fk) (ncols Fk) vargin
  \/ (strategy sparse_tensor (nrows Fk) (ncols Fk) vargin = 1 /\ 3 <= k) ->
  sample_factor sparse_tensor binary_tensor0 tau0 factor0 mu L k vargin w = (Ok Fk, w).
Proof.
  intros _ _ HFk Hcase. unfold sample_factor, py_index. rewrite HFk.
  rewrite bind_liftR_Ok. cbv zeta.
  destruct Hcase as [Hv | [-> Hk]].
  - by destruct (strategy _ _ _ _) as [|[|v]]; [lia.. |].
  - by destruct k as [|[|[|k]]]; [lia.. |].
Qed.

(** X13. The dense strategy knows the modes 0, 1 and 2 only: called for
    an existing factor matrix of a mode above 2, [sample_factor] finds
    [var1] unassigned at line 395 and raises [UnboundLocalError] before it
    draws anything. *)
Theorem sample_factor_unknown_mode `{NumpyLib} (sparse_tensor binary_tensor0 : ten)
    (tau0 : Qc) (factor0 : list mat) (mu : vec) (L : mat) (k vargin : nat)
    (Fk : mat) (w : world) :
  factor0 !! k = Some Fk -> 3 <= k ->
  strategy sparse_tensor (nrows Fk) (ncols Fk) vargin = 0 ->
  sample_factor sparse_tensor binary_tensor0 tau0 factor0 mu L k vargin w
    = (Raise UnboundLocalError, w).
Proof.
  intros HFk Hk Hv. unfold sample_factor, py_index. rewrite HFk.
  rewrite bind_liftR_Ok. cbv zeta. rewrite Hv.
  by destruct k as [|[|[|k]]]; [lia.. |].
Qed.

(** X14. The per-row strategy subscripts the mask with the mode number:
    [binary_tensor[k, :, :]], [binary_tensor[:, k, :]] or
    [binary_tensor[:, :, k]].  When axis [k] of the mask has no more than
    [k] entries and [factor[k]] has a row to update, the call raises
    [IndexError] before it draws anything. *)
Theorem sample_factor_slice_out_of_range `{NumpyLib} r
    (sparse_tensor binary_tensor0 : ten) (tau0 : Qc) (factor0 : list mat)
    (mu : vec) (L : mat) (k vargin : nat) (Fk : mat) (w : world) :
  wf_mat r r L -> wf_vec r mu ->
  factor0 !! k = Some Fk -> k < 3 -> 0 < nrows Fk ->
  strategy sparse_tensor (nrows Fk) (ncols Fk) vargin = 1 ->
  shape_at binary_tensor0 k <= k ->
  sample_factor sparse_tensor binary_tensor0 tau0 factor0 mu L k vargin w
    = (Raise IndexError, w).
Proof.
  intros _ _ HFk Hk Hrows Hv Hshape. unfold sample_factor, py_index. rewrite HFk.
  rewrite bind_liftR_Ok. cbv zeta. rewrite Hv.
  assert (sparse_pos0 binary_tensor0 k = Raise IndexError) as Hpos.
  { unfold sparse_pos0, np_slice0, np_slice1, np_slice2, shape_at in *.
    destruct (shape3 binary_tensor0) as [[a b] c].
    destruct k as [|[|[|k]]]; [| | | lia];
      by rewrite bool_decide_eq_false_2 by lia. }
  assert (forall st rest,
            for_loop (0 :: rest) st
              (sparse_row sparse_tensor binary_tensor0 tau0 factor0 (matvec L mu) L
                 k (ncols Fk)) w = (Raise IndexError, w)) as Hloop.
  { intros st rest. cbn [for_loop]. apply bind_Raise.
    unfold sparse_row. apply bind_Raise. by rewrite Hpos. }
  destruct (nrows Fk) as [|d] eqn:Hd; [lia |]. cbn [seq].
  by destruct k as [|[|[|k]]]; [apply Hloop.. | lia].
Qed.

(** X15. The three samplers print nothing: whatever they return, stdout
    is after the call what it was before. *)
Theorem samplers_silent `{NumpyLib} (w : world) :
  (forall S B tau0 F mu L k vargin,
     stdout (sample_factor S B tau0 F mu L k vargin w).2 = stdout w)
  /\ (forall F mu0 beta0 W0 nu0,
        stdout (sample_hyperparameter F mu0 beta0 W0 nu0 w).2 = stdout w)
  /\ (forall S T pos a b,
        stdout (sample_precision_tau S T pos a b w).2 = stdout w).
Proof.
  assert (forall (A : Type) (m : M A),
            emits (fun _ => False) m -> stdout (m w).2 = stdout w) as Hsilent.
  { intros A m Hm. destruct (m w) as [r w'] eqn:Hrun.
    destruct (Hm w r w' Hrun) as (ls & Hout & Hls).
    cbn [snd]. destruct ls as [|l ls]; [by rewrite Hout, app_nil_r |].
    by inversion Hls. }
  split; [| split]; intros; apply Hsilent.
  - apply emits_sample_factor.
  - apply emits_sample_hyperparameter.
  - apply emits_sample_precision_tau.
Qed.

(** ** The index sets of [BGCP] *)

Lemma in_indices3_iff m n f p : In p (indices3 (m, n, f)) <-> in_range3 (m, n, f) p.
Proof.
  destruct p as [[i j] t]. unfold in_range3. cbn [fst snd]. split.
  - unfold indices3. intros Hin.
    apply in_flat_map in Hin as (i' & Hi & Hin).
    apply in_flat_map in Hin as (j' & Hj & Hin).
    apply in_map_iff in Hin as (t' & [= -> -> ->] & Ht).
    apply in_seq in Hi, Hj, Ht. lia.
  - intros (Hi & Hj & Ht). by apply in_indices3.
Qed.

Lemma in_pos_train m n f (S : ten) p :
  wf_ten m n f S -> 0 < m -> 0 < n ->
  In p (pos_train S) <-> in_range3 (m, n, f) p /\ tat S p <> 0%Qc.
Proof.
  intros HS Hm Hn. unfold pos_train, np_where3. rewrite (shape3_wf m n f) by done.
  rewrite filter_In, in_indices3_iff, bool_decide_eq_true. done.
Qed.

Lemma in_pos_test m n f (D S : ten) p :
  wf_ten m n f S -> 0 < m -> 0 < n ->
  In p (pos_test D S) <->
  in_range3 (m, n, f) p /\ tat D p <> 0%Qc /\ tat S p = 0%Qc.
Proof.
  intros HS Hm Hn. unfold pos_test, np_where3. rewrite (shape3_wf m n f) by done.
  rewrite filter_In, in_indices3_iff, andb_true_iff, !bool_decide_eq_true. done.
Qed.

(** X16. The index sets [BGCP] builds at lines 582-586: [pos_train] holds
    exactly the positions where the sparse tensor is nonzero, [pos_test]
    exactly those where the sparse tensor is zero and the dense tensor is
    not, so no position is in both; and the mask is 1 on [pos_train] and 0
    everywhere else. *)
Theorem train_test_partition m n f (dense_tensor sparse_tensor : ten) :
  wf_ten m n f dense_tensor -> wf_ten m n f sparse_tensor -> 0 < m -> 0 < n ->
  (forall p, In p (pos_train sparse_tensor) <->
             in_range3 (m, n, f) p /\ tat sparse_tensor p <> 0%Qc)
  /\ (forall p, In p (pos_test dense_tensor sparse_tensor) <->
                in_range3 (m, n, f) p
                /\ tat dense_tensor p <> 0%Qc /\ tat sparse_tensor p = 0%Qc)
  /\ (forall p, ~ (In p (pos_train sparse_tensor)
                   /\ In p (pos_test dense_tensor sparse_tensor)))
  /\ (forall p, in_range3 (m, n, f) p ->
        (In p (pos_train sparse_tensor) -> tat (binary_tensor sparse_tensor) p = 1%Qc)
        /\ (~ In p (pos_train sparse_tensor) ->
            tat (binary_tensor sparse_tensor) p = 0%Qc)).
Proof.
  intros _ HS Hm Hn.
  assert (forall p, In p (pos_train sparse_tensor) <->
                    in_range3 (m, n, f) p /\ tat sparse_tensor p <> 0%Qc) as Htrain.
  { intros p. by apply in_pos_train. }
  assert (forall p, In p (pos_test dense_tensor sparse_tensor) <->
                    in_range3 (m, n, f) p
                    /\ tat dense_tensor p <> 0%Qc /\ tat sparse_tensor p = 0%Qc) as Htest.
  { intros p. by apply in_pos_test. }
  split; [done |]. split; [done |]. split.
  - intros p [Hin1 Hin2]. apply Htrain in Hin1 as [_ Hnz].
    apply Htest in Hin2 as (_ & _ & Hz). done.
  - intros [[i j] t] (Hi & Hj & Ht). cbn [fst snd] in *.
    change (tat (binary_tensor sparse_tensor) (i, j, t))
      with (tget (binary_tensor sparse_tensor) i j t).
    rewrite (binary_tensor_get m n f) by done. split.
    + intros [_ Hnz]%Htrain. by rewrite bool_decide_eq_true_2.
    + intros Hnot. rewrite bool_decide_eq_false_2; [done |].
      intros Hnz. apply Hnot, Htrain. by repeat split.
Qed.

(** ** What the reference tensor can influence *)

Section OffStdout.
Context `{NumpyLib}.

Lemma agree_ret {A : Type} (a : A) : agree_off_stdout (mret a) (mret a).
Proof. by intros w1 w2 Hw. Qed.

Lemma agree_liftR {A : Type} (r : result A) : agree_off_stdout (liftR r) (liftR r).
Proof. by intros w1 w2 Hw. Qed.

Lemma agree_draw {A : Type} (s : rng_state -> A * rng_state) :
  agree_off_stdout (draw s) (draw s).
Proof.
  intros w1 w2 Hw. unfold draw. rewrite Hw. by destruct (s (rng w2)) as [a g].
Qed.

Lemma agree_print (ls1 ls2 : list line) : agree_off_stdout (print ls1) (print ls2).
Proof. by intros w1 w2 Hw. Qed.

Lemma agree_bind {A B : Type} (m1 m2 : M A) (k1 k2 : A -> M B) :
  agree_off_stdout m1 m2 -> (forall a, agree_off_stdout (k1 a) (k2 a)) ->
  agree_off_stdout (m1 ≫= k1) (m2 ≫= k2).
Proof.
  intros Hm Hk w1 w2 Hw. unfold mbind, M_bind.
  destruct (Hm w1 w2 Hw) as [Hr Hg].
  destruct (m1 w1) as [[a1 | e1] w1'], (m2 w2) as [[a2 | e2] w2'];
    cbn [fst snd] in *; try done.
  - injection Hr as ->. by apply Hk.
  - injection Hr as ->. by split.
Qed.

Lemma agree_for_loop {St X : Type} (xs : list X) (st : St) body1 body2 :
  (forall st x, agree_off_stdout (body1 st x) (body2 st x)) ->
  agree_off_stdout (for_loop xs st body1) (for_loop xs st body2).
Proof.
  intros Hbody. revert st. induction xs as [|x xs IH]; intros st.
  - apply agree_ret.
  - cbn [for_loop]. apply agree_bind; [apply Hbody | apply IH].
Qed.

Lemma agree_sample_hyperparameter F mu0 beta0 W0 nu0 :
  agree_off_stdout (sample_hyperparameter F mu0 beta0 W0 nu0)
                   (sample_hyperparameter F mu0 beta0 W0 nu0).
Proof.
  unfold sample_hyperparameter.
  repeat first [apply agree_bind; [| intros ?] | apply agree_draw | apply agree_ret].
Qed.

Lemma agree_sample_factor S B tau0 F mu L k vargin :
  agree_off_stdout (sample_factor S B tau0 F mu L k vargin)
                   (sample_factor S B tau0 F mu L k vargin).
Proof.
  unfold sample_factor. apply agree_bind; [apply agree_liftR | intros Fk].
  destruct (strategy _ _ _ _) as [|[|?]].
  - repeat (apply agree_bind; [apply agree_liftR | intros ?]).
    apply agree_for_loop. intros Fk' i. unfold dense_row.
    apply agree_bind; [apply agree_draw | intros ?; apply agree_ret].
  - destruct k as [|[|[|k]]]; [..| apply agree_ret];
      apply agree_for_loop; intros Fk' i; unfold sparse_row;
      (apply agree_bind; [apply agree_liftR | intros ?]);
      (apply agree_bind; [apply agree_liftR | intros [? ?]]);
      (apply agree_bind; [apply agree_draw | intros ?; apply agree_ret]).
  - apply agree_ret.
Qed.

Lemma agree_sweep dense1 dense2 sparse_tensor burn_iter rank st it :
  agree_off_stdout (sweep dense1 sparse_tensor burn_iter rank st it)
                   (sweep dense2 sparse_tensor burn_iter rank st it).
Proof.
  unfold sweep.
  apply agree_bind; [| intros st1].
  { apply agree_for_loop. intros st0 k. unfold mode_update.
    apply agree_bind; [apply agree_liftR | intros ?].
    apply agree_bind; [apply agree_sample_hyperparameter | intros [? ?]].
    apply agree_bind; [apply agree_sample_factor | intros ?; apply agree_ret]. }
  apply agree_bind; [apply agree_liftR | intros tensor_hat].
  apply agree_bind; [apply agree_draw | intros tau'].
  apply agree_bind; [| intros st2].
  { unfold accumulate. case_bool_decide; [| apply agree_ret].
    apply agree_bind; [apply agree_liftR | intros ?; apply agree_ret]. }
  apply agree_bind; [| intros ?; apply agree_ret].
  unfold monitor. destruct (_ && _); [apply agree_print | apply agree_ret].
Qed.
End OffStdout.

(** X17. The reference tensor [dense_tensor] reaches nothing but the
    printed metrics: two runs of [BGCP] that differ only in their reference
    tensors (both of the shape of the sparse tensor) return the same
    estimates, or raise the same exception, and leave the random generator
    in the same state. *)
Theorem BGCP_ignores_dense_tensor `{NumpyLib} m n f r
    (dense1 dense2 sparse_tensor : ten) (burn_iter gibbs_iter : nat)
    (factor0 : list mat) (w : world) :
  wf_ten m n f dense1 -> wf_ten m n f dense2 -> wf_ten m n f sparse_tensor ->
  factor_shapes m n f r factor0 ->
  (BGCP dense1 sparse_tensor burn_iter gibbs_iter factor0 w).1
    = (BGCP dense2 sparse_tensor burn_iter gibbs_iter factor0 w).1
  /\ rng (BGCP dense1 sparse_tensor burn_iter gibbs_iter factor0 w).2
     = rng (BGCP dense2 sparse_tensor burn_iter gibbs_iter factor0 w).2.
Proof.
  intros _ _ _ _.
  assert (agree_off_stdout
            (BGCP dense1 sparse_tensor burn_iter gibbs_iter factor0)
            (BGCP dense2 sparse_tensor burn_iter gibbs_iter factor0)) as Hagree;
    [| by apply Hagree].
  unfold BGCP. apply agree_bind; [apply agree_liftR | intros F0].
  apply agree_bind; [| intros st].
  { apply agree_for_loop. intros st it. apply agree_sweep. }
  unfold finish, report.
  apply agree_bind; [apply agree_print | intros ?; apply agree_ret].
Qed.

(** ** Factor lists with more than three matrices *)

Section Related.
Context `{NumpyLib}.

Lemma related_eq {A : Type} (o1 o2 : result A * world) :
  outcomes_related eq o1 o2 -> o1 = o2.
Proof.
  destruct o1 as [[a | e1] w1], o2 as [[b | e2] w2]; intros [Hr Hw];
    cbn [fst snd] in *; by subst.
Qed.

Lemma related_refl {A : Type} (o : result A * world) : outcomes_related eq o o.
Proof. by destruct o as [[a | e] w]. Qed.

Lemma related_bind {A1 A2 B1 B2 : Type} (R : A1 -> A2 -> Prop) (R' : B1 -> B2 -> Prop)
    (m1 : M A1) (m2 : M A2) (k1 : A1 -> M B1) (k2 : A2 -> M B2) w :
  outcomes_related R (m1 w) (m2 w) ->
  (forall a b w', R a b -> outcomes_related R' (k1 a w') (k2 b w')) ->
  outcomes_related R' ((m1 ≫= k1) w) ((m2 ≫= k2) w).
Proof.
  intros Hm Hk. unfold mbind, M_bind.
  destruct (m1 w) as [[a | e1] w1], (m2 w) as [[b | e2] w2];
    destruct Hm as [Hr Hw]; cbn [fst snd] in *; subst; try done.
  by apply Hk.
Qed.

Lemma related_for_loop {S1 S2 X : Type} (R : S1 -> S2 -> Prop) (xs : list X)
    body1 body2 st1 st2 w :
  (forall x s1 s2 w', In x xs -> R s1 s2 ->
     outcomes_related R (body1 s1 x w') (body2 s2 x w')) ->
  R st1 st2 ->
  outcomes_related R (for_loop xs st1 body1 w) (for_loop xs st2 body2 w).
Proof.
  revert st1 st2 w. induction xs as [|x xs IH]; intros st1 st2 w Hbody HR.
  - done.
  - cbn [for_loop]. apply (related_bind R).
    + apply Hbody; [by left | done].
    + intros a b w' Hab. apply IH; [| done].
      intros y s1 s2 w'' Hy. apply Hbody. by right.
Qed.

Variables (dense_tensor sparse_tensor : ten) (burn_iter gibbs_iter : nat).
Variable rest : list mat.

Lemma sample_factor_longer U V X tau0 mu L k :
  k < 3 ->
  sample_factor sparse_tensor (binary_tensor sparse_tensor) tau0
    (U :: V :: X :: rest) mu L k 0 =
  sample_factor sparse_tensor (binary_tensor sparse_tensor) tau0 [U; V; X] mu L k 0.
Proof. intros Hk. by destruct k as [|[|[|k]]]; [..| lia]. Qed.

Lemma factor_step_longer rank tau0 F1 F2 k w :
  k < 3 -> longer_by rest F1 F2 ->
  outcomes_related (longer_by rest)
    (factor_step sparse_tensor rank tau0 F1 k w)
    (factor_step sparse_tensor rank tau0 F2 k w).
Proof.
  intros Hk (U & V & X & -> & ->). unfold factor_step.
  apply (related_bind eq).
  { destruct k as [|[|[|k]]]; [..| lia]; apply related_refl. }
  intros Fk ? w1 <-. apply (related_bind eq); [apply related_refl |].
  intros [mu L] ? w2 <-. apply (related_bind eq).
  { rewrite (sample_factor_longer U V X) by done. apply related_refl. }
  intros Fk' ? w3 <-. split; [| done].
  destruct k as [|[|[|k]]]; [..| lia]; cbn; by eexists _, _, _.
Qed.

Lemma sweep_longer rank it st1 st2 w :
  longer_by rest (factor st1) (factor st2) ->
  tau st1 = tau st2 -> factor_plus st1 = factor_plus st2 ->
  tensor_hat_plus st1 = tensor_hat_plus st2 ->
  outcomes_related
    (fun s1 s2 => longer_by rest (factor s1) (factor s2)
                  /\ tau s1 = tau s2 /\ factor_plus s1 = factor_plus s2
                  /\ tensor_hat_plus s1 = tensor_hat_plus s2)
    (sweep dense_tensor sparse_tensor burn_iter rank st1 it w)
    (sweep dense_tensor sparse_tensor burn_iter rank st2 it w).
Proof.
  intros HF Htau Hfplus Htplus. rewrite !sweep_schedule.
  rewrite Htau, Hfplus, Htplus.
  apply (related_bind (longer_by rest)).
  { apply related_for_loop; [| done].
    intros k F1 F2 w' Hk HF12. apply factor_step_longer; [| done].
    cbn in Hk. lia. }
  intros F1 F2 w1 (U & V & X & -> & ->).
  apply (related_bind eq); [apply related_refl |].
  intros tensor_hat ? w2 <-.
  apply (related_bind eq); [apply related_refl |].
  intros tau' ? w3 <-.
  apply (related_bind
           (fun s1 s2 => longer_by rest (factor s1) (factor s2)
                         /\ tau s1 = tau s2 /\ factor_plus s1 = factor_plus s2
                         /\ tensor_hat_plus s1 = tensor_hat_plus s2)).
  { unfold accumulate. rewrite length_dim. case_bool_decide.
    - apply (related_bind eq); [exact (related_refl _) |].
      intros fplus' ? w4 <-. split; [| done].
      cbn [fst factor tau factor_plus tensor_hat_plus].
      split; [by eexists _, _, _ | done].
    - split; [| done]. cbn [fst factor tau factor_plus tensor_hat_plus].
      split; [by eexists _, _, _ | done]. }
  intros s1 s2 w4 Hs.
  apply (related_bind eq); [apply related_refl |].
  by intros [] ? w5 <-.
Qed.
End Related.

(** X18. [BGCP] never reads a factor matrix behind the third: a list of
    more than three initial factor matrices is accepted without complaint,
    and the run, its result and its printed lines are those of the run
    started from the first three alone. *)
Theorem BGCP_extra_factors_ignored `{NumpyLib} (dense_tensor sparse_tensor : ten)
    (burn_iter gibbs_iter : nat) (U V X : mat) (rest : list mat) (w : world) :
  BGCP dense_tensor sparse_tensor burn_iter gibbs_iter (U :: V :: X :: rest) w
  = BGCP dense_tensor sparse_tensor burn_iter gibbs_iter [U; V; X] w.
Proof.
  apply related_eq. unfold BGCP.
  apply (related_bind eq); [apply related_refl |].
  intros F0 ? w1 <-. cbv zeta.
  eapply related_bind.
  { apply (related_for_loop
             (fun s1 s2 => longer_by rest (factor s1) (factor s2)
                           /\ tau s1 = tau s2 /\ factor_plus s1 = factor_plus s2
                           /\ tensor_hat_plus s1 = tensor_hat_plus s2)).
    - intros it s1 s2 w' _ (HF & Htau & Hfplus & Htplus). by apply sweep_longer.
    - cbn. split; [by eexists _, _, _ | done]. }
  intros st1 st2 w2 (_ & _ & Hfplus & Htplus).
  unfold finish. rewrite Hfplus, Htplus. apply related_refl.
Qed.

(** ** The printed report *)

Lemma reports_beyond burn_iter a n :
  burn_iter <= a -> List.filter (reports burn_iter) (seq a n) = [].
Proof.
  revert a. induction n as [|n IH]; intros a Ha; [done |].
  cbn [seq List.filter]. unfold reports at 1.
  rewrite (bool_decide_eq_false_2 (a < burn_iter)) by lia.
  rewrite andb_false_r. apply IH. lia.
Qed.

Lemma reports_every_fifth n :
  List.filter (fun it => bool_decide ((it + 1) mod 5 = 0)) (seq 0 n) =
  map (fun j => 5 * j + 4) (seq 0 (n / 5)).
Proof.
  induction n as [|n IH]; [done |].
  rewrite seq_S, List.filter_app, IH. cbn [List.filter Nat.add].
  pose proof (Nat.div_mod_eq n 5) as Hn.
  pose proof (Nat.div_mod_eq (S n) 5) as HSn.
  pose proof (Nat.mod_upper_bound n 5) as Hlt.
  pose proof (Nat.mod_upper_bound (S n) 5) as HSlt.
  case_bool_decide as Hfifth.
  - replace (n + 1) with (S n) in Hfifth by lia.
    assert (S n / 5 = S (n / 5)) as -> by lia.
    rewrite seq_S, map_app. cbn [map Nat.add]. do 2 f_equal. lia.
  - replace (n + 1) with (S n) in Hfifth by lia.
    assert (S n / 5 = n / 5) as -> by lia.
    by rewrite app_nil_r.
Qed.

Lemma reports_closed burn_iter gibbs_iter :
  List.filter (reports burn_iter) (seq 0 (burn_iter + gibbs_iter)) =
  map (fun j => 5 * j + 4) (seq 0 (burn_iter / 5)).
Proof.
  rewrite seq_app, List.filter_app.
  rewrite (reports_beyond burn_iter (0 + burn_iter)), app_nil_r by lia.
  rewrite <- reports_every_fifth. apply filter_ext_in.
  intros it Hit%in_seq. unfold reports.
  rewrite (bool_decide_eq_true_2 (it < burn_iter)) by lia. apply andb_true_r.
Qed.

Section PrintSchedule.
Context `{NumpyLib}.
Variables (dense_tensor sparse_tensor : ten) (burn_iter gibbs_iter : nat).

Lemma silent_stdout {A : Type} (m : M A) w r w' :
  emits (fun _ => False) m -> m w = (r, w') -> stdout w' = stdout w.
Proof.
  intros Hm Hrun. destruct (Hm w r w' Hrun) as (ls & Hout & Hls).
  destruct ls as [|l ls]; [by rewrite Hout, app_nil_r | by inversion Hls].
Qed.

Lemma sweep_prints rank st it w st' w' :
  sweep dense_tensor sparse_tensor burn_iter rank st it w = (Ok st', w') ->
  exists metrics,
    stdout w' = stdout w ++
      (if reports burn_iter it then progress_block it metrics else []).
Proof.
  unfold sweep. intros (st1 & w1 & Hmodes & Hrun)%bind_Ok_inv.
  apply bind_Ok_inv in Hrun as (tensor_hat & w2 & Hcp & Hrun).
  apply bind_Ok_inv in Hrun as (tau' & w3 & Htau & Hrun).
  apply bind_Ok_inv in Hrun as (st2 & w4 & Hacc & Hrun).
  apply bind_Ok_inv in Hrun as ([] & w5 & Hmon & [= <- <-]).
  apply silent_stdout in Hmodes, Hcp, Htau, Hacc.
  - exists (compute_mape (tindex dense_tensor (pos_test dense_tensor sparse_tensor))
                         (tindex tensor_hat (pos_test dense_tensor sparse_tensor)),
            compute_rmse (tindex dense_tensor (pos_test dense_tensor sparse_tensor))
                         (tindex tensor_hat (pos_test dense_tensor sparse_tensor))).
    unfold monitor in Hmon. fold (reports burn_iter it) in Hmon.
    destruct (reports burn_iter it); injection Hmon as <-;
      unfold progress_block; cbn [stdout fst snd];
      rewrite ?app_nil_r, Hacc, Htau, Hcp, Hmodes; done.
  - unfold accumulate. case_bool_decide; [| apply emits_ret].
    apply emits_bind; [apply emits_liftR | intros ?; apply emits_ret].
  - apply emits_sample_precision_tau.
  - apply emits_liftR.
  - apply emits_for_loop. intros st0 k. unfold mode_update.
    apply emits_bind; [apply emits_liftR | intros ?].
    apply emits_bind; [apply emits_sample_hyperparameter | intros [? ?]].
    apply emits_bind; [apply emits_sample_factor | intros ?; apply emits_ret].
Qed.

Lemma sweeps_print rank its st w st' w' :
  for_loop its st (sweep dense_tensor sparse_tensor burn_iter rank) w = (Ok st', w') ->
  exists metrics,
    length metrics = length (List.filter (reports burn_iter) its)
    /\ stdout w' = stdout w ++
         flat_map (fun im => progress_block im.1 im.2)
           (combine (List.filter (reports burn_iter) its) metrics).
Proof.
  revert st w. induction its as [|it its IH]; intros st w.
  - intros [= <- <-]. exists []. by rewrite app_nil_r.
  - cbn [for_loop]. intros (st1 & w1 & Hsweep & Hrest)%bind_Ok_inv.
    apply sweep_prints in Hsweep as (m & Hout1).
    apply IH in Hrest as (ms & Hlen & Hout).
    cbn [List.filter]. destruct (reports burn_iter it).
    + exists (m :: ms). split; [cbn; lia |].
      cbn [combine flat_map fst snd]. by rewrite Hout, Hout1, <- app_assoc.
    + exists ms. split; [done |]. by rewrite Hout, Hout1, app_nil_r.
Qed.
End PrintSchedule.

(** X19. What a run of [BGCP] that returns has printed: one progress
    report of four lines (iteration number, MAPE, RMSE, blank) for each of
    the iterations 5, 10, ... up to [burn_iter], in this order, then the
    three closing lines (imputation MAPE, imputation RMSE, blank), and
    nothing else; no progress is reported during the collection sweeps. *)
Theorem BGCP_print_schedule `{NumpyLib} (dense_tensor sparse_tensor : ten)
    (burn_iter gibbs_iter : nat) (factor0 : list mat) (w : world)
    (res : ten * list mat) :
  (BGCP dense_tensor sparse_tensor burn_iter gibbs_iter factor0 w).1 = Ok res ->
  exists metrics final,
    length metrics = burn_iter / 5
    /\ stdout (BGCP dense_tensor sparse_tensor burn_iter gibbs_iter factor0 w).2 =
       stdout w
       ++ flat_map (fun jm => progress_block (5 * jm.1 + 4) jm.2)
            (combine (seq 0 (burn_iter / 5)) metrics)
       ++ final_block final.
Proof.
  destruct (BGCP dense_tensor sparse_tensor burn_iter gibbs_iter factor0 w)
    as [r w'] eqn:Hrun.
  cbn [fst snd]. intros ->. unfold BGCP in Hrun.
  apply bind_Ok_inv in Hrun as (F0 & w1 & HF0 & Hrun).
  apply bind_Ok_inv in Hrun as (st & w2 & Hloop & Hfin).
  injection HF0 as _ <-.
  apply sweeps_print in Hloop as (ms & Hlen & Hout).
  rewrite reports_closed in Hlen, Hout. rewrite length_map, length_seq in Hlen.
  unfold finish, report in Hfin.
  apply bind_Ok_inv in Hfin as ([] & w3 & Hprint & [= _ <-]).
  injection Hprint as <-. cbn [stdout].
  eexists ms, (_, _). split; [done |].
  rewrite Hout, <- app_assoc. do 2 f_equal.
  clear. generalize (seq 0 (burn_iter / 5)) as js. intros js. revert ms.
  induction js as [|j js IH]; intros [|m ms]; cbn [map combine flat_map]; try done.
  by rewrite IH.
Qed.

(** ** Shapes kept by the sampler *)

Lemma wf_symmetrize r L : wf_mat r r L -> 0 < r -> wf_mat r r (symmetrize L).
Proof.
  intros HL Hr. unfold symmetrize, mdiv, vdiv. apply wf_mmap.
  apply (wf_mzip r r Qcplus); [done |]. unfold transpose.
  rewrite (ncols_wf r r), (nrows_wf r r) by done. apply wf_mk_mat.
Qed.

Lemma wf_mat_insert d r (Fk : mat) i row :
  wf_mat d r Fk -> wf_vec r row -> wf_mat d r (<[i := row]> Fk).
Proof.
  intros [Hlen Hrows] Hrow. split; [by rewrite length_insert |].
  by apply Forall_insert.
Qed.

Lemma for_loop_inv_in `{NumpyLib} {St X : Type} (I : St -> Prop) (xs : list X)
    body st w st' w' :
  I st ->
  (forall st x w st' w', In x xs -> I st -> body st x w = (Ok st', w') -> I st') ->
  for_loop xs st body w = (Ok st', w') -> I st'.
Proof.
  intros Hst Hbody. revert st w Hst.
  induction xs as [|x xs IH]; intros st w Hst.
  - by intros [= <- <-].
  - cbn [for_loop]. intros (st1 & w1 & Hx & Hrest)%bind_Ok_inv.
    eapply IH; [| | exact Hrest].
    + intros st0 y w0 st0' w0' Hy. apply Hbody. by right.
    + eapply Hbody; [by left | exact Hst | exact Hx].
Qed.

Section KeptShapes.
Context `{NumpyLib}.
Hypothesis Hlaws : shape_laws.

Lemma draw_value {A : Type} (s : rng_state -> A * rng_state) w a w' :
  draw s w = (Ok a, w') -> a = (s (rng w)).1.
Proof. unfold draw. destruct (s (rng w)) as [a0 g]. by intros [= <- _]. Qed.

Lemma dense_row_shape d r var3 var4 (Fk : mat) i w Fk' w' :
  0 < r -> wf_mat r r (tslice_last var3 i) -> wf_mat d r Fk ->
  dense_row var3 var4 Fk i w = (Ok Fk', w') -> wf_mat d r Fk'.
Proof.
  intros Hr HL HFk. unfold dense_row.
  intros (row & w1 & Hrow%draw_value & [= <- _])%bind_Ok_inv.
  destruct Hlaws as (Hinv & Hmvn & _).
  apply wf_mat_insert; [done |]. rewrite Hrow. apply Hmvn.
  apply (wf_matvec r r). apply Hinv. by apply wf_symmetrize.
Qed.

Lemma sample_factor_dense_wf m n f r (sparse_tensor binary_tensor0 : ten) tau0
    (U V X : mat) mu L k w Fk' w' :
  0 < m -> 0 < n -> 0 < f -> 0 < r ->
  wf_ten m n f sparse_tensor -> wf_ten m n f binary_tensor0 ->
  wf_mat m r U -> wf_mat n r V -> wf_mat f r X -> wf_mat r r L ->
  k < 3 -> strategy sparse_tensor (dim_of m n f k) r 0 = 0 ->
  sample_factor sparse_tensor binary_tensor0 tau0 [U; V; X] mu L k 0 w = (Ok Fk', w') ->
  wf_mat (dim_of m n f k) r Fk'.
Proof.
  intros Hm Hn Hf Hr HS HB HU HV HX HL Hk Hdense.
  destruct (cofactor_pair_wf m n f r U V X HU HV HX k Hk) as (_ & _ & HFk).
  destruct (dims_positive m n f Hm Hn Hf k) as (Hdim & Hdp & Hdq).
  unfold sample_factor.
  assert (py_index [U; V; X] k = Ok (nth k [U; V; X] [])) as ->
    by (by destruct k as [|[|[|k]]]; [..| lia]).
  rewrite bind_liftR_Ok. cbv zeta.
  rewrite (nrows_wf _ r _ HFk), (ncols_wf _ r _ HFk Hdim), Hdense.
  rewrite (dense_var1_closed m n f r U V X Hm Hn Hf HU HV HX k Hk).
  rewrite (ten2mat_closed m n f Hm Hn _ k HB Hk).
  rewrite (ten2mat_closed m n f Hm Hn _ k HS Hk).
  rewrite !bind_liftR_Ok.
  apply for_loop_inv_in; [done |].
  intros st i w0 st' w0' Hi%in_seq Hst. apply dense_row_shape; [done | | done].
  rewrite dense_var3_row; [apply wf_mk_mat | done | nia | lia | apply wf_mk_mat | done].
Qed.
End KeptShapes.

(** X20. The dense strategy keeps the shape of the factor matrix it
    updates: for a well-shaped tensor and mask, factor matrices of rank
    [r], hyper-parameters of size [r] and library calls that keep shapes,
    a call of [sample_factor] for mode [k] that returns, returns a matrix
    of [dim_k] rows and [r] columns. *)
Theorem sample_factor_dense_shape `{NumpyLib} m n f r
    (sparse_tensor binary_tensor0 : ten) (tau0 : Qc) (U V X : mat) (mu : vec)
    (L : mat) (k : nat) (w : world) (Fk' : mat) :
  shape_laws ->
  0 < m -> 0 < n -> 0 < f -> 0 < r ->
  wf_ten m n f sparse_tensor -> wf_ten m n f binary_tensor0 ->
  wf_mat m r U -> wf_mat n r V -> wf_mat f r X ->
  wf_vec r mu -> wf_mat r r L ->
  k < 3 -> strategy sparse_tensor (dim_of m n f k) r 0 = 0 ->
  (sample_factor sparse_tensor binary_tensor0 tau0 [U; V; X] mu L k 0 w).1 = Ok Fk' ->
  wf_mat (dim_of m n f k) r Fk'.
Proof.
  intros Hlaws Hm Hn Hf Hr HS HB HU HV HX _ HL Hk Hdense.
  destruct (sample_factor _ _ _ _ _ _ _ _ w) as [res w'] eqn:Hrun.
  cbn [fst]. intros ->.
  exact (sample_factor_dense_wf Hlaws m n f r _ _ _ _ _ _ _ _ _ _ _ _
           Hm Hn Hf Hr HS HB HU HV HX HL Hk Hdense Hrun).
Qed.

Section RunShapes.
Context `{NumpyLib}.
Hypothesis Hlaws : shape_laws.
Variables (m n f r : nat) (dense_tensor sparse_tensor : ten) (burn_iter gibbs_iter : nat).
Hypotheses (Hm : 0 < m) (Hn : 0 < n) (Hf : 0 < f) (Hr : 0 < r).
Hypothesis HS : wf_ten m n f sparse_tensor.
Hypothesis Hdense : forall k, k < 3 -> strategy sparse_tensor (dim_of m n f k) r 0 = 0.

Lemma hyper_shape d (Fk : mat) w mu L w' :
  wf_mat d r Fk -> 0 < d ->
  sample_hyperparameter Fk (vzeros r) 1%Qc (eye r) (Qn r) w = (Ok (mu, L), w') ->
  wf_mat r r L.
Proof using Hlaws Hr.
  intros HFk Hd. unfold sample_hyperparameter. cbv zeta.
  intros (L0 & w1 & HL%draw_value & Hrun)%bind_Ok_inv.
  apply bind_Ok_inv in Hrun as (mu0 & w2 & _ & [= _ <- _]).
  destruct Hlaws as (Hinv & _ & Hwishart).
  rewrite HL. apply Hwishart, Hinv.
  assert (wf_vec r (vsub (np_mean_axis0 Fk) (vzeros r))) as Hdev.
  { apply wf_zip_with; [| apply wf_mk_vec].
    rewrite (np_mean_axis0_eq d r) by done. apply wf_row_mean. }
  apply (wf_mzip r r Qcplus); [apply (wf_mzip r r Qcplus) |].
  - apply Hinv, wf_mk_mat.
  - rewrite (cov_mat_eq d r) by done. apply wf_mk_mat.
  - apply wf_mmap. pose proof (wf_outer (vsub (np_mean_axis0 Fk) (vzeros r))
                                        (vsub (np_mean_axis0 Fk) (vzeros r))) as Hout.
    by rewrite Hdev in Hout.
Qed.

Lemma factor_step_shapes tau0 F k w F' w' :
  k < 3 -> factor_shapes m n f r F ->
  factor_step sparse_tensor r tau0 F k w = (Ok F', w') ->
  factor_shapes m n f r F'.
Proof using Hlaws Hm Hn Hf Hr HS Hdense.
  intros Hk (U & V & X & -> & HU & HV & HX). unfold factor_step.
  destruct (cofactor_pair_wf m n f r U V X HU HV HX k Hk) as (_ & _ & HFk).
  destruct (dims_positive m n f Hm Hn Hf k) as (Hdim & _ & _).
  assert (py_index [U; V; X] k = Ok (nth k [U; V; X] [])) as ->
    by (by destruct k as [|[|[|k]]]; [..| lia]).
  rewrite bind_liftR_Ok.
  intros ([mu L] & w1 & Hhyper & Hrun)%bind_Ok_inv.
  apply bind_Ok_inv in Hrun as (Fk' & w2 & Hsample & [= <- _]).
  apply (hyper_shape (dim_of m n f k)) in Hhyper; [| done..].
  apply (sample_factor_dense_wf Hlaws m n f r) in Hsample;
    [| first [done | by apply binary_tensor_wf | by apply Hdense]..].
  destruct k as [|[|[|k]]]; [..| lia]; by eexists _, _, _.
Qed.

(** What the loop of [BGCP] keeps: the shapes of the factor matrices and
    of both accumulators. *)
Let kept (st : locals) : Prop :=
  factor_shapes m n f r (factor st)
  /\ factor_shapes m n f r (factor_plus st)
  /\ wf_ten m n f (tensor_hat_plus st).

Lemma sweep_shapes st it w st' w' :
  kept st ->
  sweep dense_tensor sparse_tensor burn_iter r st it w = (Ok st', w') ->
  kept st'.
Proof using Hlaws Hm Hn Hf Hr HS Hdense.
  intros (HF & HP & HT). rewrite sweep_schedule.
  intros (F' & w1 & Hup & Hrun)%bind_Ok_inv.
  apply bind_Ok_inv in Hrun as (tensor_hat & w2 & Hcp & Hrun).
  apply bind_Ok_inv in Hrun as (tau' & w3 & _ & Hrun).
  apply bind_Ok_inv in Hrun as (st2 & w4 & Hacc & Hrun).
  apply bind_Ok_inv in Hrun as ([] & w5 & _ & [= <- _]).
  assert (factor_shapes m n f r F') as HF'.
  { revert Hup. unfold factor_updates. apply for_loop_inv_in; [done |].
    intros F0 k w0 F0' w0' Hk HF0. apply factor_step_shapes; [| done].
    cbn in Hk. lia. }
  destruct HF' as (U & V & X & -> & HU & HV & HX).
  injection Hcp as <- _.
  assert (wf_ten m n f (einsum_is_js_ts_ijt U V X)) as Hhat.
  { unfold einsum_is_js_ts_ijt.
    rewrite (nrows_wf m r U), (nrows_wf n r V), (nrows_wf f r X) by done.
    apply wf_mk_ten. }
  destruct HP as (P0 & P1 & P2 & HPeq & HP0 & HP1 & HP2).
  unfold accumulate in Hacc. rewrite length_dim, HPeq in Hacc.
  cbn [factor factor_plus tensor_hat_plus] in Hacc.
  case_bool_decide.
  - injection Hacc as <- _. cbn [factor factor_plus tensor_hat_plus].
    split; [by eexists _, _, _ |]. split.
    + eexists _, _, _. split; [done |].
      by split; [| split]; apply (wf_mzip _ r Qcplus).
    + by apply (wf_tzip m n f Qcplus).
  - injection Hacc as <- _. cbn [factor factor_plus tensor_hat_plus].
    split; [by eexists _, _, _ |]. split; [by eexists _, _, _ | done].
Qed.

Lemma BGCP_shapes factor0 w T Fs w' :
  factor_shapes m n f r factor0 ->
  BGCP dense_tensor sparse_tensor burn_iter gibbs_iter factor0 w = (Ok (T, Fs), w') ->
  wf_ten m n f T /\ factor_shapes m n f r Fs.
Proof using Hlaws Hm Hn Hf Hr HS Hdense.
  intros HF0. pose proof HF0 as (U & V & X & -> & HU & HV & HX).
  unfold BGCP. cbn [py_index lookup list_lookup]. rewrite bind_liftR_Ok. cbv zeta.
  rewrite (ncols_wf m r U) by done.
  intros (st & w1 & Hloop & Hfin)%bind_Ok_inv.
  assert (kept st) as (_ & HP & HT).
  { revert Hloop. apply for_loop_inv.
    - unfold initial, dim, dims_of. cbn [factor factor_plus tensor_hat_plus].
      rewrite (shape3_wf m n f) by done. cbn [map tzeros].
      split; [done |]. split; [| apply wf_mk_ten].
      eexists _, _, _. split; [done |]. repeat split; apply wf_mk_mat.
    - intros st0 it w0 st0' w0'. apply sweep_shapes. }
  unfold finish, report in Hfin.
  apply bind_Ok_inv in Hfin as ([] & w2 & _ & [= <- <- _]).
  destruct HP as (P0 & P1 & P2 & -> & HP0 & HP1 & HP2). split.
  - exact (wf_tmap m n f (fun x => (x / Qn gibbs_iter)%Qc) _ HT).
  - eexists _, _, _. split; [done |].
    split; [| split]; by apply (wf_mmap _ r (fun x => (x / Qn gibbs_iter)%Qc)).
Qed.
End RunShapes.

(** X21. [BGCP] returns arrays of the shapes it was given: started from
    three factor matrices of rank [r] that fit an [m] x [n] x [f] tensor,
    with inputs small enough for the dense strategy and library calls that
    keep shapes, a run that returns yields an [m] x [n] x [f] tensor and
    three factor matrices of [m], [n] and [f] rows and [r] columns. *)
Theorem BGCP_result_shape `{NumpyLib} m n f r (dense_tensor sparse_tensor : ten)
    (burn_iter gibbs_iter : nat) (factor0 : list mat) (w : world)
    (T : ten) (Fs : list mat) :
  shape_laws ->
  0 < m -> 0 < n -> 0 < f -> 0 < r ->
  wf_ten m n f sparse_tensor ->
  factor_shapes m n f r factor0 ->
  (forall k, k < 3 -> strategy sparse_tensor (dim_of m n f k) r 0 = 0) ->
  (BGCP dense_tensor sparse_tensor burn_iter gibbs_iter factor0 w).1 = Ok (T, Fs) ->
  wf_ten m n f T /\ factor_shapes m n f r Fs.
Proof.
  intros Hlaws Hm Hn Hf Hr HS HF0 Hdense.
  destruct (BGCP dense_tensor sparse_tensor burn_iter gibbs_iter factor0 w)
    as [res w'] eqn:Hrun.
  cbn [fst]. intros ->.
  exact (BGCP_shapes Hlaws m n f r dense_tensor sparse_tensor burn_iter gibbs_iter
           Hm Hn Hf Hr HS Hdense factor0 w T Fs w' HF0 Hrun).
Qed.

(** ** Rows without observations *)

Lemma sum_upto_zero n f0 :
  (forall i, i < n -> f0 i = 0%Qc) -> sum_upto n f0 = 0%Qc.
Proof.
  intros Hf. rewrite (sum_upto_ext n f0 (fun _ => 0%Qc)) by done.
  rewrite sum_upto_const. ring.
Qed.

(** X22. A row with no observed entry is redrawn from the hyper-prior: if
    the sparse tensor is zero all along row [i] of mode [k], the dense
    strategy draws the new row [i] from the Gaussian whose precision is
    the hyper-precision alone and whose mean is the inverse of that
    (symmetrized) precision applied to [Lambda_hyper @ mu_hyper]; neither
    [tau] nor the other factor matrices enter. *)
Theorem dense_unobserved_row `{NumpyLib} m n f r (sparse_tensor : ten) (tau0 : Qc)
    (U V X : mat) (mu : vec) (L : mat) (k i : nat) (var1 binary_k sparse_k : mat)
    (Fk : mat) (w : world) :
  0 < m -> 0 < n -> 0 < f -> 0 < r ->
  wf_ten m n f sparse_tensor ->
  wf_mat m r U -> wf_mat n r V -> wf_mat f r X ->
  wf_vec r mu -> wf_mat r r L ->
  k < 3 -> i < dim_of m n f k ->
  (forall q p, q < earlier_dim m n f k -> p < later_dim m n f k ->
     entry_at sparse_tensor k i q p = 0%Qc) ->
  dense_var1 [U; V; X] k = Ok var1 ->
  ten2mat (binary_tensor sparse_tensor) k = Ok binary_k ->
  ten2mat sparse_tensor k = Ok sparse_k ->
  dense_row (dense_var3 binary_k tau0 var1 L r (dim_of m n f k))
            (dense_var4 sparse_k tau0 var1 mu L (dim_of m n f k)) Fk i w =
  (row ← draw (mvnrnd (matvec (inv (symmetrize L)) (matvec L mu))
                      (inv (symmetrize L)));
   mret (<[i := row]> Fk)) w.
Proof.
  intros Hm Hn Hf Hr HS HU HV HX _ HL Hk Hi Hrow Hvar1 Hbin Hsp.
  unfold dense_row.
  destruct (dense_row_params m n f r U V X sparse_tensor Hm Hn Hf Hr HU HV HX HS
              tau0 mu L k i var1 binary_k sparse_k) as [-> ->]; [done.. |].
  rewrite (posterior_precision_closed m n f r) by done.
  rewrite (posterior_rhs_closed m n f r) by done.
  assert (forall g : nat -> nat -> Qc,
            sum_upto (later_dim m n f k) (fun p =>
              sum_upto (earlier_dim m n f k) (fun q =>
                if bool_decide (entry_at sparse_tensor k i q p <> 0%Qc)
                then g p q else 0%Qc)) = 0%Qc) as Hzero.
  { intros g. apply sum_upto_zero. intros p Hp.
    apply sum_upto_zero. intros q Hq.
    by rewrite bool_decide_eq_false_2 by (rewrite Hrow by done; auto). }
  assert (mk_mat r r (fun a b =>
            (tau0 * sum_upto (later_dim m n f k) (fun p =>
               sum_upto (earlier_dim m n f k) (fun q =>
                 if bool_decide (entry_at sparse_tensor k i q p <> 0%Qc)
                 then mget (cofactor_pair [U; V; X] k).1 p a
                      * mget (cofactor_pair [U; V; X] k).2 q a
                      * (mget (cofactor_pair [U; V; X] k).1 p b
                         * mget (cofactor_pair [U; V; X] k).2 q b)
                 else 0)) + mget L a b)%Qc) = L) as ->.
  { transitivity (mk_mat r r (mget L)); [| symmetry; by apply mat_eta].
    apply mk_mat_ext. intros a b _ _. rewrite Hzero. ring. }
  assert (mk_vec r (fun a =>
            (tau0 * sum_upto (later_dim m n f k) (fun p =>
               sum_upto (earlier_dim m n f k) (fun q =>
                 if bool_decide (entry_at sparse_tensor k i q p <> 0%Qc)
                 then entry_at sparse_tensor k i q p
                      * (mget (cofactor_pair [U; V; X] k).1 p a
                         * mget (cofactor_pair [U; V; X] k).2 q a)
                 else 0)) + vget (matvec L mu) a)%Qc) = matvec L mu) as ->.
  { transitivity (mk_vec r (vget (matvec L mu)));
      [| symmetry; by apply vec_eta, (wf_matvec r r)].
    apply tabulate_ext. intros a _. rewrite Hzero. ring. }
  done.
Qed.

(** ** A factor update forgets the old rows *)

Section Overwrite.
Context `{NumpyLib}.

Lemma loop_overwrites (m : nat -> M vec) (body : mat -> nat -> M mat) n a
    (s1 s2 : mat) w :
  (forall st i w, body st i w = (row ← m i; mret (<[i := row]> st)) w) ->
  length s1 = length s2 -> a + n = length s1 -> take a s1 = take a s2 ->
  for_loop (seq a n) s1 body w = for_loop (seq a n) s2 body w.
Proof.
  intros Hbody. revert a s1 s2 w.
  induction n as [|n IH]; intros a s1 s2 w Hlen Han Htake.
  - cbn [seq for_loop]. f_equal. f_equal.
    rewrite <- (take_ge s1 a), <- (take_ge s2 a) by lia. done.
  - cbn [seq for_loop].
    rewrite (bind_ext_l _ _ _ _ (Hbody s1 a w)), (bind_ext_l _ _ _ _ (Hbody s2 a w)).
    rewrite !bind_assoc. apply bind_ext. intros row w1 _.
    change (for_loop (seq (S a) n) (<[a := row]> s1) body w1
            = for_loop (seq (S a) n) (<[a := row]> s2) body w1).
    apply IH.
    + by rewrite !length_insert.
    + rewrite length_insert. lia.
    + rewrite !(take_S_r _ a row) by (apply list_lookup_insert_eq; lia).
      rewrite !take_insert_ge by lia. by rewrite Htake.
Qed.
End Overwrite.

(** X23. A factor update replaces every row and reads none of the old
    ones: both strategies of [sample_factor] give the same result, from the
    same draws, when [factor[k]] is exchanged for any other matrix of the
    same shape. *)
Theorem sample_factor_overwrites `{NumpyLib} (sparse_tensor binary_tensor0 : ten)
    (tau0 : Qc) (U V X Fk2 : mat) (mu : vec) (L : mat) (k vargin : nat) (w : world) :
  k < 3 ->
  nrows Fk2 = nrows (nth k [U; V; X] []) ->
  ncols Fk2 = ncols (nth k [U; V; X] []) ->
  strategy sparse_tensor (nrows Fk2) (ncols Fk2) vargin <= 1 ->
  sample_factor sparse_tensor binary_tensor0 tau0 (<[k := Fk2]> [U; V; X]) mu L k vargin w
  = sample_factor sparse_tensor binary_tensor0 tau0 [U; V; X] mu L k vargin w.
Proof.
  intros Hk Hrows Hcols Hv. unfold sample_factor.
  assert (py_index (<[k := Fk2]> [U; V; X]) k = Ok Fk2) as ->
    by (by destruct k as [|[|[|k]]]; [..| lia]).
  assert (py_index [U; V; X] k = Ok (nth k [U; V; X] [])) as ->
    by (by destruct k as [|[|[|k]]]; [..| lia]).
  rewrite !bind_liftR_Ok. cbv zeta. rewrite <- Hrows, <- Hcols.
  destruct (strategy _ _ _ _) as [|[|v]]; [| | lia].
  - assert (dense_var1 (<[k := Fk2]> [U; V; X]) k = dense_var1 [U; V; X] k) as ->
      by (by destruct k as [|[|[|k]]]; [..| lia]).
    apply bind_ext. intros var1 w1 _.
    apply bind_ext. intros binary_k w2 _.
    apply bind_ext. intros sparse_k w3 _.
    apply (loop_overwrites (fun i =>
             draw (mvnrnd
                     (matvec (inv (symmetrize (tslice_last
                        (dense_var3 binary_k tau0 var1 L (ncols Fk2) (nrows Fk2)) i)))
                        (mcol (dense_var4 sparse_k tau0 var1 mu L (nrows Fk2)) i))
                     (inv (symmetrize (tslice_last
                        (dense_var3 binary_k tau0 var1 L (ncols Fk2) (nrows Fk2)) i))))));
      [done | done | done | done].
  - assert (forall st i w0,
              sparse_row sparse_tensor binary_tensor0 tau0 (<[k := Fk2]> [U; V; X])
                (matvec L mu) L k (ncols Fk2) st i w0 =
              sparse_row sparse_tensor binary_tensor0 tau0 [U; V; X]
                (matvec L mu) L k (ncols Fk2) st i w0) as Hsame
      by (intros; by destruct k as [|[|[|k]]]; [..| lia]).
    assert (forall Fk0,
              length Fk2 = length Fk0 ->
              for_loop (seq 0 (nrows Fk2)) Fk2
                (sparse_row sparse_tensor binary_tensor0 tau0 (<[k := Fk2]> [U; V; X])
                   (matvec L mu) L k (ncols Fk2)) w =
              for_loop (seq 0 (nrows Fk2)) Fk0
                (sparse_row sparse_tensor binary_tensor0 tau0 [U; V; X]
                   (matvec L mu) L k (ncols Fk2)) w) as Hloop.
    { intros Fk0 Hlen.
      rewrite (for_loop_ext _ _ _ _ _ (fun st i w0 _ => Hsame st i w0)).
      apply (loop_overwrites (fun i =>
               pos0 ← liftR (sparse_pos0 binary_tensor0 k);
               temps ← liftR (sparse_temps sparse_tensor [U; V; X] k (ncols Fk2) pos0);
               draw (mvnrnd
                       (matvec (inv (symmetrize (madd (mscale tau0 temps.2) L)))
                               (vadd (vscale tau0 temps.1) (matvec L mu)))
                       (inv (symmetrize (madd (mscale tau0 temps.2) L))))));
        [| done..].
      intros st i w0. unfold sparse_row. rewrite bind_assoc.
      apply bind_ext. intros pos0 w1 _. rewrite bind_assoc.
      apply bind_ext. by intros [temp1 temp2] w2 _. }
    destruct k as [|[|[|k]]]; [| | | lia]; by apply Hloop.
Qed.

(** ** The per-row strategy *)

Lemma strategy_per_row (S : ten) dim0 rank : strategy S dim0 rank 1 = 1.
Proof.
  unfold strategy. destruct (shape3 S) as [[a b] c]. cbv zeta.
  by repeat match goal with |- context [if ?c then _ else _] => destruct c end.
Qed.

Lemma for_loopR_ext {St X : Type} (xs : list X) (st : St) body1 body2 :
  (forall st x, In x xs -> body1 st x = body2 st x) ->
  for_loopR xs st body1 = for_loopR xs st body2.
Proof.
  revert st. induction xs as [|x xs IH]; intros st Hbody; [done |].
  cbn [for_loopR]. rewrite (Hbody st x) by by left.
  destruct (body2 st x) as [st' | e]; [| done]. cbn.
  apply IH. intros st0 y Hy. apply Hbody. by right.
Qed.

Lemma vmul_comm (u v : vec) : vmul u v = vmul v u.
Proof.
  revert v. induction u as [|x u IH]; intros [|y v]; try done.
  unfold vmul in *. cbn [zip_with]. by rewrite IH, Qcmult_comm.
Qed.

Section PerRow.
Context `{NumpyLib}.
Variables (m n f r : nat) (U V X : mat) (S : ten).
Hypotheses (Hm : 0 < m) (Hn : 0 < n) (Hf : 0 < f) (Hr : 0 < r).
Hypotheses (HU : wf_mat m r U) (HV : wf_mat n r V) (HX : wf_mat f r X).
Hypothesis (HS : wf_ten m n f S).

Let P k := (cofactor_pair [U; V; X] k).1.
Let Q k := (cofactor_pair [U; V; X] k).2.
Let dp := later_dim m n f.
Let dq := earlier_dim m n f.

(** The product the inner loop forms at a coordinate of the slice, and
    what it adds to [temp1] and [temp2]. *)
Let var k (p : nat * nat) : vec := vmul (mrow (Q k) p.1) (mrow (P k) p.2).

Lemma sparse_temps_body k rank pos0 :
  k < 3 ->
  sparse_temps S [U; V; X] k rank pos0 =
  for_loopR pos0 (vzeros rank, mzeros rank rank) (fun temps p =>
    Ok (vadd temps.1 (map (fun x => (x * entry_at S k k p.1 p.2)%Qc) (var k p)),
        madd temps.2 (outer (var k p) (var k p)))).
Proof.
  intros Hk. unfold sparse_temps. apply for_loopR_ext.
  intros [temp1 temp2] p _.
  by destruct k as [|[|[|k]]]; [..| lia].
Qed.

Lemma var_wf k p : k < 3 -> p.1 < dq k -> p.2 < dp k -> wf_vec r (var k p).
Proof.
  intros Hk Hq Hp.
  destruct (cofactor_pair_wf m n f r U V X HU HV HX k Hk) as (HP & HQ & _).
  apply wf_zip_with; eapply wf_mat_row; eauto.
Qed.

Lemma var_get k p a :
  k < 3 -> p.1 < dq k -> p.2 < dp k -> a < r ->
  vget (var k p) a = (mget (Q k) p.1 a * mget (P k) p.2 a)%Qc.
Proof.
  intros Hk Hq Hp Ha.
  destruct (cofactor_pair_wf m n f r U V X HU HV HX k Hk) as (HP & HQ & _).
  apply (vget_zip_with r); [eapply wf_mat_row; eauto.. | done].
Qed.

Lemma sparse_temps_loop k pos0 z1 z2 :
  k < 3 -> Forall (fun p => p.1 < dq k /\ p.2 < dp k) pos0 ->
  for_loopR pos0 (mk_vec r z1, mk_mat r r z2) (fun temps p =>
    Ok (vadd temps.1 (map (fun x => (x * entry_at S k k p.1 p.2)%Qc) (var k p)),
        madd temps.2 (outer (var k p) (var k p)))) =
  Ok (mk_vec r (fun a =>
        (z1 a + sumQ (map (fun p => mget (Q k) p.1 a * mget (P k) p.2 a
                                    * entry_at S k k p.1 p.2) pos0))%Qc),
      mk_mat r r (fun a b =>
        (z2 a b + sumQ (map (fun p => (mget (Q k) p.1 a * mget (P k) p.2 a)
                                      * (mget (Q k) p.1 b * mget (P k) p.2 b))
                            pos0))%Qc)).
Proof.
  intros Hk Hpos. revert z1 z2.
  induction Hpos as [|p pos0 [Hq Hp] _ IH]; intros z1 z2.
  - cbn. f_equal. f_equal; [apply tabulate_ext | apply mk_mat_ext]; intros; ring.
  - cbn [for_loopR fst snd]. cbn [mbind result_bind].
    pose proof (var_wf k p Hk Hq Hp) as Hvar.
    rewrite (vadd_closed r) by (apply wf_mk_vec || by apply wf_vmap).
    rewrite (madd_closed r r)
      by (apply wf_mk_mat || (rewrite <- Hvar at 1 2; apply wf_outer)).
    rewrite IH. f_equal. f_equal.
    + apply tabulate_ext. intros a Ha. rewrite vget_mk_vec by done.
      rewrite (vget_map r) by done. rewrite var_get by done.
      cbn [map]. rewrite sumQ_cons. ring.
    + apply mk_mat_ext. intros a b Ha Hb. rewrite mget_mk_mat by done.
      unfold outer. rewrite Hvar, mget_mk_mat by done. rewrite !var_get by done.
      cbn [map]. rewrite sumQ_cons. ring.
Qed.

Lemma observed_flag (c : Prop) `{!Decision c} :
  bool_decide ((if bool_decide c then 1%Qc else 0%Qc) <> 0%Qc) = bool_decide c.
Proof.
  assert (1%Qc <> 0%Qc) as H1 by by_compute.
  destruct (decide c) as [Hc | Hc].
  - rewrite !(bool_decide_eq_true_2 c Hc). by apply bool_decide_eq_true_2.
  - rewrite !(bool_decide_eq_false_2 c Hc). apply bool_decide_eq_false_2.
    intros Hzero. by apply Hzero.
Qed.

Lemma sparse_pos0_closed k :
  k < 3 -> k < dim_of m n f k ->
  sparse_pos0 (binary_tensor S) k =
  Ok (List.filter (fun p => bool_decide (entry_at S k k p.1 p.2 <> 0%Qc))
        (indices2 (dq k) (dp k))).
Proof.
  intros Hk Hslice.
  pose proof (binary_tensor_wf m n f S HS Hm Hn) as HB.
  assert (forall slice,
            nrows slice = dq k -> ncols slice = dp k ->
            (forall q p, q < dq k -> p < dp k ->
               mget slice q p = entry_at (binary_tensor S) k k q p) ->
            np_where_nonzero2 slice =
            List.filter (fun p => bool_decide (entry_at S k k p.1 p.2 <> 0%Qc))
              (indices2 (dq k) (dp k))) as Hwhere.
  { intros slice Hrows Hcols Hget. unfold np_where_nonzero2.
    rewrite Hrows, Hcols. apply filter_ext_in.
    intros [q p] [Hq Hp]%indices2_range. cbn [fst snd] in *.
    rewrite Hget, (entry_at_binary m n f) by done. apply observed_flag. }
  unfold sparse_pos0, np_slice0, np_slice1, np_slice2.
  rewrite (shape3_wf m n f) by done.
  destruct k as [|[|[|k]]]; [| | | lia];
    cbn [dim_of] in Hslice; rewrite bool_decide_eq_true_2 by done;
    cbn [mbind result_bind]; f_equal; apply Hwhere.
  - apply (nrows_wf n f). by apply (wf_ten_slice m).
  - apply (ncols_wf n f); [by apply (wf_ten_slice m) | done].
  - done.
  - apply nrows_mk_mat.
  - by apply ncols_mk_mat.
  - intros q p Hq Hp. by apply mget_mk_mat.
  - apply nrows_mk_mat.
  - by apply ncols_mk_mat.
  - intros q p Hq Hp. by apply mget_mk_mat.
Qed.

Lemma sum_slice k (g : nat * nat -> Qc) :
  sumQ (map g (List.filter (fun p => bool_decide (entry_at S k k p.1 p.2 <> 0%Qc))
                 (indices2 (dq k) (dp k)))) =
  sum_upto (dp k) (fun p => sum_upto (dq k) (fun q =>
    if bool_decide (entry_at S k k q p <> 0%Qc) then g (q, p) else 0%Qc)).
Proof.
  rewrite sumQ_filter, sumQ_indices2. apply sum_upto_swap.
Qed.

Lemma sparse_row_posterior tau0 mu L k Fk i w :
  k < 3 -> k < dim_of m n f k -> wf_mat r r L ->
  sparse_row S (binary_tensor S) tau0 [U; V; X] (matvec L mu) L k r Fk i w =
  (row ← draw (mvnrnd
         (matvec (inv (symmetrize (posterior_precision S tau0 [U; V; X] L r k k)))
                 (posterior_rhs S tau0 [U; V; X] mu L r k k))
         (inv (symmetrize (posterior_precision S tau0 [U; V; X] L r k k))));
   mret (<[i := row]> Fk)) w.
Proof.
  intros Hk Hslice HL. unfold sparse_row.
  rewrite sparse_pos0_closed, bind_liftR_Ok by done.
  rewrite sparse_temps_body by done.
  unfold vzeros, mzeros. rewrite sparse_temps_loop; [| done |].
  2:{ apply List.Forall_forall. intros p [Hp _]%filter_In.
      by apply indices2_range in Hp. }
  rewrite bind_liftR_Ok.
  assert (madd (mscale tau0 (mk_mat r r (fun a b =>
            (0 + sumQ (map (fun p => (mget (Q k) p.1 a * mget (P k) p.2 a)
                                     * (mget (Q k) p.1 b * mget (P k) p.2 b))
                 (List.filter (fun p => bool_decide (entry_at S k k p.1 p.2 <> 0%Qc))
                    (indices2 (dq k) (dp k)))))%Qc))) L
          = posterior_precision S tau0 [U; V; X] L r k k) as ->.
  { rewrite (posterior_precision_closed m n f r) by done.
    rewrite (mscale_closed r r) by apply wf_mk_mat.
    rewrite (madd_closed r r) by (done || apply wf_mk_mat).
    apply mk_mat_ext. intros a b Ha Hb. rewrite !mget_mk_mat by done.
    rewrite (sum_slice k (fun p => (mget (Q k) p.1 a * mget (P k) p.2 a)
                                   * (mget (Q k) p.1 b * mget (P k) p.2 b))%Qc).
    rewrite Qcplus_0_l. do 2 f_equal.
    apply sum_upto_ext. intros p _. apply sum_upto_ext. intros q _.
    cbn [fst snd]. case_bool_decide; [subst P Q; cbv beta; ring | done]. }
  assert (vadd (vscale tau0 (mk_vec r (fun a =>
            (0 + sumQ (map (fun p => mget (Q k) p.1 a * mget (P k) p.2 a
                                     * entry_at S k k p.1 p.2)
                 (List.filter (fun p => bool_decide (entry_at S k k p.1 p.2 <> 0%Qc))
                    (indices2 (dq k) (dp k)))))%Qc))) (matvec L mu)
          = posterior_rhs S tau0 [U; V; X] mu L r k k) as ->.
  { rewrite (posterior_rhs_closed m n f r) by done.
    rewrite (vscale_closed r) by apply wf_mk_vec.
    rewrite (vadd_closed r) by (apply wf_mk_vec || by apply (wf_matvec r r)).
    apply tabulate_ext. intros a Ha. rewrite !vget_mk_vec by done.
    rewrite (sum_slice k (fun p => mget (Q k) p.1 a * mget (P k) p.2 a
                                   * entry_at S k k p.1 p.2)%Qc).
    rewrite Qcplus_0_l. do 2 f_equal.
    apply sum_upto_ext. intros p _. apply sum_upto_ext. intros q _.
    cbn [fst snd]. case_bool_decide; [subst P Q; cbv beta; ring | done]. }
  done.
Qed.
End PerRow.

(** X24. What the per-row strategy draws: with the mask of [BGCP] and
    well-shaped inputs, [sample_factor(..., k, vargin = 1)] draws every row
    of factor matrix [k] from one and the same Gaussian, the conditional
    posterior of row number [k] (the precision and right-hand side of the
    notebook's formulas summed over the coordinates observed in slice [k]
    of mode [k]), whichever row [i] it assigns. *)
Theorem sample_factor_per_row_posterior `{NumpyLib} (m n f r : nat)
    (sparse_tensor : ten) (tau0 : Qc) (U V X : mat) (var_mu_hyper : vec)
    (var_Lambda_hyper : mat) (k : nat) (w : world) :
  0 < m -> 0 < n -> 0 < f -> 0 < r ->
  wf_ten m n f sparse_tensor ->
  wf_mat m r U -> wf_mat n r V -> wf_mat f r X ->
  wf_vec r var_mu_hyper -> wf_mat r r var_Lambda_hyper ->
  k < 3 -> k < dim_of m n f k ->
  sample_factor sparse_tensor (binary_tensor sparse_tensor) tau0 [U; V; X]
    var_mu_hyper var_Lambda_hyper k 1 w =
  for_loop (seq 0 (dim_of m n f k)) (nth k [U; V; X] [])
    (fun Fk i =>
       row ← draw (mvnrnd
              (matvec (inv (symmetrize (posterior_precision sparse_tensor tau0
                                          [U; V; X] var_Lambda_hyper r k k)))
                      (posterior_rhs sparse_tensor tau0 [U; V; X] var_mu_hyper
                         var_Lambda_hyper r k k))
              (inv (symmetrize (posterior_precision sparse_tensor tau0
                                  [U; V; X] var_Lambda_hyper r k k))));
       mret (<[i := row]> Fk)) w.
Proof.
  intros Hm Hn Hf Hr HS HU HV HX _ HL Hk Hslice.
  destruct (cofactor_pair_wf m n f r U V X HU HV HX k Hk) as (_ & _ & HFk).
  destruct (dims_positive m n f Hm Hn Hf k) as (Hdim & _ & _).
  unfold sample_factor.
  assert (py_index [U; V; X] k = Ok (nth k [U; V; X] [])) as ->
    by (by destruct k as [|[|[|k]]]; [..| lia]).
  rewrite bind_liftR_Ok. cbv zeta.
  rewrite strategy_per_row, (nrows_wf _ r _ HFk), (ncols_wf _ r _ HFk Hdim).
  assert (forall body : mat -> nat -> M mat,
            match k with
            | 0 | 1 | 2 => for_loop (seq 0 (dim_of m n f k)) (nth k [U; V; X] []) body
            | _ => mret (nth k [U; V; X] [])
            end = for_loop (seq 0 (dim_of m n f k)) (nth k [U; V; X] []) body) as ->
    by (intros; by destruct k as [|[|[|k]]]; [..| lia]).
  apply for_loop_ext. intros Fk i w1 _.
  by apply (sparse_row_posterior m n f r).
Qed.

(** ** The evaluation cell *)

Lemma mapM_py_index {A : Type} (l : list A) (ss : list nat) (ys : list A) :
  mapM (py_index l) ss = Ok ys ->
  forall y, In y ys <-> exists s, In s ss /\ l !! s = Some y.
Proof.
  revert ys. induction ss as [|s ss IH]; intros ys.
  - intros [= <-] y. split; [intros [] | by intros (s & [] & _)].
  - cbn [mapM]. destruct (py_index l s) as [x | e] eqn:Hx;
      cbn [mbind result_bind]; [| done].
    assert (l !! s = Some x) as Hs.
    { unfold py_index in Hx. destruct (l !! s); [| done]. by injection Hx as ->. }
    destruct (mapM (py_index l) ss) as [ys' |]; cbn [mbind result_bind]; [| done].
    intros [= <-] y.
    specialize (IH ys' eq_refl y). split.
    + intros [<- | Hy]; [exists s; by split; [left |] |].
      apply IH in Hy as (s' & Hs' & Hl). exists s'. by split; [right |].
    + intros (s' & [<- | Hs'] & Hl); [left; congruence |].
      right. apply IH. by exists s'.
Qed.

Lemma to_tensor_wf rows (M : mat) : wf_mat rows 720 M -> wf_ten rows 30 24 (to_tensor M).
Proof.
  intros HM. unfold to_tensor, np_reshape_C3. rewrite (nrows_wf rows 720) by done.
  apply wf_mk_ten.
Qed.

Lemma to_tensor_get rows (M : mat) i d h :
  wf_mat rows 720 M -> 0 < rows -> i < rows -> d < 30 -> h < 24 ->
  tget (to_tensor M) i d h = mget M i (d * 24 + h).
Proof.
  intros HM Hrows Hi Hd Hh. unfold to_tensor, np_reshape_C3.
  rewrite (nrows_wf rows 720), (ncols_wf rows 720) by done.
  rewrite tget_mk_ten by done. cbv zeta.
  replace ((i * 30 + d) * 24 + h) with (i * 720 + (d * 24 + h)) by lia.
  rewrite rowmajor_div, rowmajor_mod by lia. done.
Qed.

(** X25. The evaluation cell and [BGCP] agree on the held-out set: when
    the cell masks the observed entries that [sample_ind] picks from a
    matrix with 720 columns, the test positions [BGCP] computes from the
    two tensors are exactly the masked entries, entry [(i, 24 d + h)] of the
    matrix being position [(i, d, h)] of the tensor, and its training
    positions are exactly the observed entries that were not masked. *)
Theorem masked_entries_are_test_set rows (dense_mat sparse_mat : mat)
    (sample_ind : list nat) :
  0 < rows -> wf_mat rows 720 dense_mat ->
  mask_observed dense_mat sample_ind = Ok sparse_mat ->
  let masked i d h :=
    exists s, In s sample_ind
              /\ np_where_nonzero2 dense_mat !! s = Some (i, d * 24 + h) in
  (forall i d h,
     In (i, d, h) (pos_test (to_tensor dense_mat) (to_tensor sparse_mat)) <->
     d < 30 /\ h < 24 /\ masked i d h)
  /\ (forall i d h,
        In (i, d, h) (pos_train (to_tensor sparse_mat)) <->
        i < rows /\ d < 30 /\ h < 24
        /\ mget dense_mat i (d * 24 + h) <> 0%Qc /\ ~ masked i d h).
Proof.
  intros Hrows HD. unfold mask_observed. cbv zeta.
  destruct (mapM _ sample_ind) as [picked |] eqn:Hpicked; [| done].
  cbn [mbind result_bind]. rewrite (nrows_wf rows 720), (ncols_wf rows 720) by done.
  intros [= <-]. set (sparse_mat := mk_mat rows 720 _).
  assert (wf_mat rows 720 sparse_mat) as HS by apply wf_mk_mat.
  pose proof (mapM_py_index _ _ _ Hpicked) as Hin.
  assert (forall i c, In (i, c) picked ->
            i < rows /\ c < 720 /\ mget dense_mat i c <> 0%Qc) as Hobs.
  { intros i c (s & _ & Hs)%Hin.
    apply list_elem_of_lookup_2, list_elem_of_In in Hs.
    unfold np_where_nonzero2 in Hs. apply filter_In in Hs as [Hrange Hnz].
    rewrite (nrows_wf rows 720), (ncols_wf rows 720) in Hrange by done.
    apply indices2_range in Hrange. apply bool_decide_eq_true in Hnz.
    cbn [fst snd] in *. by destruct Hrange. }
  assert (forall i c, i < rows -> c < 720 ->
            mget sparse_mat i c =
            if bool_decide ((i, c) ∈ picked) then 0%Qc else mget dense_mat i c) as Hget.
  { intros i c Hi Hc. unfold sparse_mat. by rewrite mget_mk_mat. }
  pose proof (to_tensor_wf rows dense_mat HD) as HDT.
  pose proof (to_tensor_wf rows sparse_mat HS) as HST.
  split; intros i d h.
  - rewrite (in_pos_test rows 30 24) by (done || lia).
    unfold in_range3, tat. cbn [fst snd]. split.
    + intros ((Hi & Hd & Hh) & Hnz & Hz).
      rewrite (to_tensor_get rows) in Hnz, Hz by done.
      rewrite Hget in Hz by lia. split; [done |]. split; [done |].
      case_bool_decide as Hp; [| done]. by apply Hin, list_elem_of_In.
    + intros (Hd & Hh & Hmasked). apply Hin in Hmasked.
      destruct (Hobs _ _ Hmasked) as (Hi & _ & Hnz).
      rewrite !(to_tensor_get rows) by done. rewrite Hget by lia.
      rewrite bool_decide_eq_true_2 by by apply list_elem_of_In. done.
  - rewrite (in_pos_train rows 30 24) by (done || lia).
    unfold in_range3, tat. cbn [fst snd]. split.
    + intros ((Hi & Hd & Hh) & Hnz).
      rewrite (to_tensor_get rows) in Hnz by done. rewrite Hget in Hnz by lia.
      case_bool_decide as Hp; [done |].
      repeat split; [done.. |]. intros Hmasked%Hin. by apply Hp, list_elem_of_In.
    + intros (Hi & Hd & Hh & Hnz & Hnot).
      split; [done |]. rewrite (to_tensor_get rows) by done. rewrite Hget by lia.
      rewrite bool_decide_eq_false_2; [done |].
      intros Hp%list_elem_of_In. by apply Hnot, Hin.
Qed.

(** ** How many draws a run makes *)

Lemma strategy_default (S : ten) dim0 rank : strategy S dim0 rank 0 <= 1.
Proof.
  unfold strategy. destruct (shape3 S) as [[a b] c]. cbv zeta.
  repeat match goal with |- context [if ?c then _ else _] => destruct c end; lia.
Qed.

Section Draws.
Variable L : NumpyLib.

Lemma draws_liftR {A : Type} (r : result A) w a w' :
  @liftR (counted L) A r w = (Ok a, w') -> draws w' = draws w.
Proof. by intros [= _ <-]. Qed.

Lemma draws_mvnrnd mean cov w a w' :
  @draw (counted L) _ (@mvnrnd (counted L) mean cov) w = (Ok a, w') ->
  draws w' = S (draws w).
Proof.
  unfold draw. cbn [mvnrnd counted].
  destruct (@mvnrnd L mean cov _) as [x g]. by intros [= _ <-].
Qed.

Lemma draws_wishart df scale w a w' :
  @draw (counted L) _ (@wishart_rvs (counted L) df scale) w = (Ok a, w') ->
  draws w' = S (draws w).
Proof.
  unfold draw. cbn [wishart_rvs counted].
  destruct (@wishart_rvs L df scale _) as [x g]. by intros [= _ <-].
Qed.

Lemma draws_gamma shape scale w a w' :
  @draw (counted L) _ (@np_random_gamma (counted L) shape scale) w = (Ok a, w') ->
  draws w' = S (draws w).
Proof.
  unfold draw. cbn [np_random_gamma counted].
  destruct (@np_random_gamma L shape scale _) as [x g]. by intros [= _ <-].
Qed.

Lemma draws_print ls w a w' :
  @print (counted L) ls w = (Ok a, w') -> draws w' = draws w.
Proof. by intros [= _ <-]. Qed.

Lemma draws_for_loop {St X : Type} (I : St -> Prop) (step : nat) (xs : list X)
    (body : St -> X -> @M (counted L) St) st w st' w' :
  I st ->
  (forall st x w st' w', In x xs -> I st -> body st x w = (Ok st', w') ->
     I st' /\ draws w' = draws w + step) ->
  @for_loop (counted L) _ _ xs st body w = (Ok st', w') ->
  I st' /\ draws w' = draws w + length xs * step.
Proof.
  revert st w. induction xs as [|x xs IH]; intros st w Hst Hbody.
  - intros [= <- <-]. split; [done | cbn; lia].
  - cbn [for_loop]. intros (st1 & w1 & Hx & Hrest)%bind_Ok_inv.
    destruct (Hbody st x w st1 w1) as [Hst1 Hw1]; [by left | done | done |].
    apply IH in Hrest as [Hst' Hw']; [| done |].
    + split; [done |]. cbn [length]. lia.
    + intros st0 y w0 st0' w0' Hy. apply Hbody. by right.
Qed.

Lemma draws_sample_hyperparameter F mu0 beta0 W0 nu0 w hyper w' :
  @sample_hyperparameter (counted L) F mu0 beta0 W0 nu0 w = (Ok hyper, w') ->
  draws w' = draws w + 2.
Proof.
  unfold sample_hyperparameter. cbv zeta.
  intros (Lambda & w1 & HL%draws_wishart & Hrun)%bind_Ok_inv.
  apply bind_Ok_inv in Hrun as (mu & w2 & Hmu%draws_mvnrnd & [= _ <-]). lia.
Qed.

Lemma draws_sample_factor S B tau0 F mu Lh k w Fk' w' :
  k < 3 ->
  @sample_factor (counted L) S B tau0 F mu Lh k 0 w = (Ok Fk', w') ->
  exists Fk, F !! k = Some Fk /\ nrows Fk' = nrows Fk
             /\ draws w' = draws w + nrows Fk.
Proof.
  intros Hk Hrun.
  destruct (sample_factor_nrows _ _ _ _ _ _ _ _ _ _ _ Hrun) as (Fk & HFk & Hrows).
  exists Fk. split; [done |]. split; [done |].
  revert Hrun. unfold sample_factor, py_index. rewrite HFk.
  rewrite bind_liftR_Ok. cbv zeta.
  pose proof (strategy_default S (nrows Fk) (ncols Fk)) as Hv.
  destruct (strategy _ _ _ _) as [|[|v]]; [| | lia].
  - intros (var1 & w1 & H1%draws_liftR & Hrun)%bind_Ok_inv.
    apply bind_Ok_inv in Hrun as (binary_k & w2 & H2%draws_liftR & Hrun).
    apply bind_Ok_inv in Hrun as (sparse_k & w3 & H3%draws_liftR & Hrun).
    apply (draws_for_loop (fun _ => True) 1) in Hrun as [_ Hloop]; [| done |].
    + rewrite length_seq in Hloop. lia.
    + intros st i w0 st0 w0' _ _. unfold dense_row.
      intros (row & w4 & Hrow%draws_mvnrnd & [= _ <-])%bind_Ok_inv.
      split; [done | lia].
  - assert (forall w0 st' w0',
              @for_loop (counted L) _ _ (seq 0 (nrows Fk)) Fk
                (@sparse_row (counted L) S B tau0 F (matvec Lh mu) Lh k (ncols Fk)) w0
                = (Ok st', w0') ->
              draws w0' = draws w0 + nrows Fk) as Hloop.
    { intros w0 st' w0' Hloop.
      apply (draws_for_loop (fun _ => True) 1) in Hloop as [_ Hloop]; [| done |].
      - rewrite length_seq in Hloop. lia.
      - intros st i w1 st1 w1' _ _. unfold sparse_row.
        intros (pos0 & w2 & H2%draws_liftR & Hrow)%bind_Ok_inv.
        apply bind_Ok_inv in Hrow as ([temp1 temp2] & w3 & H3%draws_liftR & Hrow).
        apply bind_Ok_inv in Hrow as (row & w4 & Hrow%draws_mvnrnd & [= _ <-]).
        split; [done | lia]. }
    destruct k as [|[|[|k]]]; [| | | lia]; apply Hloop.
Qed.

Lemma draws_factor_step S rank tau0 (U V X : mat) rest k w F' w' :
  k < 3 ->
  @factor_step (counted L) S rank tau0 (U :: V :: X :: rest) k w = (Ok F', w') ->
  map nrows F' = map nrows (U :: V :: X :: rest)
  /\ draws w' = draws w + (2 + nrows (nth k [U; V; X] [])).
Proof.
  intros Hk Hrun. split; [exact (factor_step_rows _ _ _ _ _ _ _ _ Hrun) |].
  revert Hrun. unfold factor_step.
  intros (Fk & w1 & H1 & Hrun)%bind_Ok_inv.
  apply bind_Ok_inv in Hrun as ([mu Lh] & w2 & H2%draws_sample_hyperparameter & Hrun).
  apply bind_Ok_inv in Hrun as (Fk' & w3 & H3 & [= _ <-]).
  apply draws_sample_factor in H3 as (Fk0 & HFk0 & _ & H3); [| done].
  pose proof (draws_liftR _ _ _ _ H1) as H1'.
  assert (nrows Fk0 = nrows (nth k [U; V; X] [])) as <-.
  { destruct k as [|[|[|k]]]; [..| lia]; by injection HFk0 as <-. }
  lia.
Qed.

Lemma same_rows (U V X : mat) rest (F : list mat) :
  map nrows F = map nrows (U :: V :: X :: rest) ->
  exists U' V' X' rest',
    F = U' :: V' :: X' :: rest'
    /\ nrows U' = nrows U /\ nrows V' = nrows V /\ nrows X' = nrows X.
Proof.
  destruct F as [|U' [|V' [|X' rest']]]; try done.
  cbn [map]. intros [= HU HV HX _]. by exists U', V', X', rest'.
Qed.

Lemma draws_factor_updates S rank tau0 (U V X : mat) rest w F' w' :
  @factor_updates (counted L) S rank tau0 (U :: V :: X :: rest) w = (Ok F', w') ->
  map nrows F' = map nrows (U :: V :: X :: rest)
  /\ draws w' = draws w + (6 + nrows U + nrows V + nrows X).
Proof.
  unfold factor_updates. cbn [for_loop].
  intros (F1 & w1 & H1 & Hrun)%bind_Ok_inv.
  apply bind_Ok_inv in Hrun as (F2 & w2 & H2 & Hrun).
  apply bind_Ok_inv in Hrun as (F3 & w3 & H3 & [= <- <-]).
  apply draws_factor_step in H1 as [Hrows1 Hd1]; [| lia].
  destruct (same_rows _ _ _ _ _ Hrows1) as (U1 & V1 & X1 & rest1 & -> & HU1 & HV1 & HX1).
  apply draws_factor_step in H2 as [Hrows2 Hd2]; [| lia].
  destruct (same_rows _ _ _ _ _ Hrows2) as (U2 & V2 & X2 & rest2 & -> & HU2 & HV2 & HX2).
  apply draws_factor_step in H3 as [Hrows3 Hd3]; [| lia].
  split; [congruence |]. cbn [nth] in *. lia.
Qed.

Lemma draws_sweep dense_tensor sparse_tensor burn_iter rank (U V X : mat) rest
    st it w st' w' :
  factor st = U :: V :: X :: rest ->
  @sweep (counted L) dense_tensor sparse_tensor burn_iter rank st it w = (Ok st', w') ->
  map nrows (factor st') = map nrows (factor st)
  /\ draws w' = draws w + (7 + nrows U + nrows V + nrows X).
Proof.
  intros HF. rewrite sweep_schedule, HF.
  intros (F' & w1 & Hup%draws_factor_updates & Hrun)%bind_Ok_inv.
  apply bind_Ok_inv in Hrun as (tensor_hat & w2 & Hcp%draws_liftR & Hrun).
  apply bind_Ok_inv in Hrun as (tau' & w3 & Htau%draws_gamma & Hrun).
  apply bind_Ok_inv in Hrun as (st2 & w4 & Hacc & Hrun).
  apply bind_Ok_inv in Hrun as ([] & w5 & Hmon & [= <- <-]).
  destruct Hup as [Hrows Hup].
  assert (draws w4 = draws w3) as Hacc'.
  { revert Hacc. unfold accumulate. case_bool_decide.
    - intros (fplus & w6 & H6%draws_liftR & [= _ <-])%bind_Ok_inv. done.
    - by intros [= _ <-]. }
  apply accumulate_tau in Hacc as [_ Hfactor]. cbn [factor] in Hfactor.
  assert (draws w5 = draws w4) as Hmon'.
  { revert Hmon. unfold monitor. destruct (_ && _); [apply draws_print |].
    by intros [= <-]. }
  split; [congruence | lia].
Qed.
End Draws.

(** X26. How much randomness a run consumes: whatever the samplers
    return, a run of [BGCP] that returns has called them exactly
    [(burn_iter + gibbs_iter) * (7 + rows of factor[0] + rows of factor[1]
    + rows of factor[2])] times: per sweep two draws for the
    hyper-parameters of each mode, one draw per row of each factor matrix,
    and one draw for tau. *)
Theorem BGCP_draw_count (L : NumpyLib) (dense_tensor sparse_tensor : ten)
    (burn_iter gibbs_iter : nat) (U V X : mat) (rest : list mat)
    (w : @world (counted L)) (res : ten * list mat) :
  (@BGCP (counted L) dense_tensor sparse_tensor burn_iter gibbs_iter
     (U :: V :: X :: rest) w).1 = Ok res ->
  draws (@BGCP (counted L) dense_tensor sparse_tensor burn_iter gibbs_iter
           (U :: V :: X :: rest) w).2 =
  draws w + (burn_iter + gibbs_iter) * (7 + nrows U + nrows V + nrows X).
Proof.
  destruct (BGCP _ _ _ _ _ w) as [r w'] eqn:Hrun. cbn [fst snd]. intros ->.
  unfold BGCP in Hrun.
  apply bind_Ok_inv in Hrun as (F0 & w1 & H0%draws_liftR & Hrun).
  apply bind_Ok_inv in Hrun as (st & w2 & Hloop & Hfin).
  apply (draws_for_loop L
           (fun st => map nrows (factor st) = map nrows (U :: V :: X :: rest))
           (7 + nrows U + nrows V + nrows X)) in Hloop as [_ Hloop]; [| done |].
  - unfold finish, report in Hfin.
    apply bind_Ok_inv in Hfin as ([] & w3 & Hprint%draws_print & [= _ <-]).
    rewrite length_seq in Hloop. lia.
  - intros st0 it w0 st0' w0' _ Hrows Hsweep.
    destruct (same_rows _ _ _ _ _ Hrows) as (U' & V' & X' & rest' & HF & HU & HV & HX).
    destruct (draws_sweep L _ _ _ _ U' V' X' rest' st0 it w0 st0' w0' HF Hsweep)
      as [Hrows' Hd].
    split; [congruence | lia].
Qed.

(** ** The posteriors entry by entry *)



Section PosteriorEntries.
Variables (m n f r : nat) (U V X : mat) (S : ten).
Hypotheses (Hm : 0 < m) (Hn : 0 < n) (Hf : 0 < f) (Hr : 0 < r).
Hypotheses (HU : wf_mat m r U) (HV : wf_mat n r V) (HX : wf_mat f r X).
Hypothesis (HS : wf_ten m n f S).




End PosteriorEntries.


Lemma madd3_closed r (A B C : mat) :
  wf_mat r r A -> wf_mat r r B -> wf_mat r r C ->
  madd (madd A B) C = mk_mat r r (fun a b => (mget A a b + mget B a b + mget C a b)%Qc).
Proof.
  intros HA HB HC.
  rewrite (madd_closed r r A B) by done.
  rewrite (madd_closed r r) by (done || apply wf_mk_mat).
  apply mk_mat_ext. intros a b Ha Hb. by rewrite mget_mk_mat.
Qed.

(** C6. For every [dim] x [rank] factor matrix and hyper-hyperparameters
    [mu0], [beta0], [W0], [nu0], [sample_hyperparameter] draws Lambda from
    the Wishart distribution with [dim + nu0] degrees of freedom whose
    scale is the inverse of the matrix with the entries
    [(inv W0)_ab + S_ab + (dim * beta0 / (dim + beta0)) * (mbar_a - mu0_a) * (mbar_b - mu0_b)],
    [mbar] being the mean of the rows and [S] their unnormalized scatter
    about it (what [cov_mat] returns), and then draws mu from the Gaussian
    with mean [(dim * mbar + beta0 * mu0) / (dim + beta0)] and, as
    covariance, the inverse of the matrix with the entries
    [(dim + beta0) * Lambda_ab]. *)
Theorem sample_hyperparameter_posterior `{NumpyLib} dim rank (factor_k : mat)
    (mu0 : vec) (beta0 : Qc) (W0 : mat) (nu0 : Qc) (w : world) :
  shape_laws ->
  wf_mat dim rank factor_k -> 0 < dim -> wf_vec rank mu0 -> wf_mat rank rank W0 ->
  let mbar := row_mean dim rank factor_k in
  let W_star :=
    inv (mk_mat rank rank (wishart_precision_entry dim rank factor_k mu0 beta0 W0)) in
  let mu_star :=
    mk_vec rank (fun j =>
      ((Qn dim * vget mbar j + beta0 * vget mu0 j) / (Qn dim + beta0))%Qc) in
  sample_hyperparameter factor_k mu0 beta0 W0 nu0 w =
  (Lambda ← draw (wishart_rvs (Qn dim + nu0)%Qc W_star);
   mu ← draw (mvnrnd mu_star
                (inv (mk_mat rank rank (fun a b =>
                        ((Qn dim + beta0) * mget Lambda a b)%Qc))));
   mret (mu, Lambda)) w.
Proof.
  intros (Hinv & _ & Hwishart) HF Hd Hmu HW0 mbar W_star mu_star.
  rewrite (sample_hyperparameter_arrays dim rank) by done. cbv zeta.
  fold mbar.
  assert (wf_vec rank (vsub mbar mu0)) as Hdev
    by (apply wf_zip_with; [apply wf_row_mean | done]).
  assert (madd (madd (inv W0) (row_scatter dim rank factor_k))
               (mscale (Qn dim * beta0 / (Qn dim + beta0))%Qc
                       (outer (vsub mbar mu0) (vsub mbar mu0)))
          = mk_mat rank rank (wishart_precision_entry dim rank factor_k mu0 beta0 W0))
    as ->.
  { assert (wf_mat rank rank (outer (vsub mbar mu0) (vsub mbar mu0))) as Hout.
    { pose proof (wf_outer (vsub mbar mu0) (vsub mbar mu0)) as Ho.
      by rewrite Hdev in Ho. }
    rewrite (madd3_closed rank)
      by (by apply Hinv || apply wf_mk_mat || by apply wf_mmap).
    apply mk_mat_ext. intros a b Ha Hb. unfold wishart_precision_entry.
    fold mbar. f_equal. unfold mscale, vscale.
    rewrite (mget_mmap rank rank) by done.
    unfold outer. rewrite Hdev, mget_mk_mat by done.
    unfold vsub. by rewrite !(vget_zip_with rank) by (done || apply wf_row_mean). }
  fold W_star mu_star.
  apply bind_ext. intros Lambda w1 HLambda.
  apply draw_value in HLambda.
  assert (wf_mat rank rank Lambda) as HL
    by (rewrite HLambda; apply Hwishart, Hinv, wf_mk_mat).
  by rewrite (mscale_closed rank rank) by done.
Qed.

(** ** Runs that return *)


Section RunsReturn.
Context `{NumpyLib}.
Hypothesis Hlaws : shape_laws.
Variables (m n f r : nat) (dense_tensor sparse_tensor : ten) (burn_iter : nat).
Hypotheses (Hm : 0 < m) (Hn : 0 < n) (Hf : 0 < f) (Hr : 0 < r).
Hypothesis HS : wf_ten m n f sparse_tensor.
Hypothesis Hdense : forall k, k < 3 -> strategy sparse_tensor (dim_of m n f k) r 0 = 0.




End RunsReturn.


(** ** The further properties at the examples *)

Lemma nb_A_wf : wf_mat 2 2 nb_A.
Proof. split; [done |]. repeat constructor. Qed.

Lemma nb_B_wf : wf_mat 3 2 nb_B.
Proof. split; [done |]. repeat constructor. Qed.

Lemma nb_X_wf : wf_ten 3 2 4 nb_X.
Proof. split; [done |]. repeat constructor. Qed.

Lemma nb_factor_wf :
  wf_mat 2 2 (nth 0 nb_factor []) /\ wf_mat 3 2 (nth 1 nb_factor [])
  /\ wf_mat 4 2 (nth 2 nb_factor []).
Proof. repeat split; repeat constructor. Qed.

Lemma ex_gap_wf : wf_ten 2 2 3 ex_gap.
Proof. split; [done |]. repeat constructor. Qed.

Lemma kr_prod_rows_witness :
  wf_mat 2 2 nb_A /\ wf_mat 3 2 nb_B
  /\ wf_mat (2 * 3) 2 (kr_prod nb_A nb_B)
  /\ forall i j, i < 2 -> j < 3 ->
       mrow (kr_prod nb_A nb_B) (i * 3 + j) = vmul (mrow nb_A i) (mrow nb_B j).
Proof.
  split; [exact nb_A_wf |]. split; [exact nb_B_wf |].
  apply (kr_prod_rows 2 3 2 nb_A nb_B); [exact nb_A_wf | exact nb_B_wf | lia..].
Defined.

Lemma cp_combine_unfolding_witness :
  wf_mat 2 2 (nth 0 nb_factor []) /\ wf_mat 3 2 (nth 1 nb_factor [])
  /\ wf_mat 4 2 (nth 2 nb_factor [])
  /\ exists T var1,
       cp_combine nb_factor = Ok T
       /\ dense_var1 nb_factor 1 = Ok var1
       /\ ten2mat T 1 = Ok (matmul (nth 1 nb_factor []) var1).
Proof.
  destruct nb_factor_wf as (HU & HV & HX).
  split; [exact HU |]. split; [exact HV |]. split; [exact HX |].
  apply (cp_combine_unfolding 2 3 4 2 _ _ _ 1); [lia.. | exact HU | exact HV | exact HX | lia].
Defined.

Lemma ten2mat_layout_witness :
  wf_ten 3 2 4 nb_X
  /\ (exists M0 M1 M2,
        ten2mat nb_X 0 = Ok M0 /\ ten2mat nb_X 1 = Ok M1 /\ ten2mat nb_X 2 = Ok M2
        /\ forall i j t, i < 3 -> j < 2 -> t < 4 ->
             mget M0 i (j + 2 * t) = tget nb_X i j t
             /\ mget M1 j (i + 3 * t) = tget nb_X i j t
             /\ mget M2 t (i + 3 * j) = tget nb_X i j t)
  /\ forall mode, 3 <= mode -> ten2mat nb_X mode = Raise AxisError.
Proof.
  split; [exact nb_X_wf |].
  apply (ten2mat_layout 3 2 4 nb_X); [exact nb_X_wf | lia..].
Defined.

Lemma cov_mat_symmetric_psd_witness :
  wf_mat 3 2 ex_X
  /\ (forall a b, a < 2 -> b < 2 -> mget (cov_mat ex_X) a b = mget (cov_mat ex_X) b a)
  /\ forall v : vec,
       let centred i a := (mget ex_X i a - vget (np_mean_axis0 ex_X) a)%Qc in
       let quad := sum_upto 2 (fun a => sum_upto 2 (fun b =>
                     (vget v a * mget (cov_mat ex_X) a b * vget v b)%Qc)) in
       quad = sum_upto 3 (fun i =>
                (sum_upto 2 (fun a => vget v a * centred i a) ^ 2)%Qc)
       /\ (0 <= quad)%Qc.
Proof.
  split; [exact ex_X_wf |].
  apply (cov_mat_symmetric_psd 3 2 ex_X); [exact ex_X_wf | lia].
Defined.

Lemma positive_pair : Forall (fun x => (0 < x)%Qc) [Qz 2; Qz 4].
Proof. repeat constructor; by_compute. Qed.

Lemma negative_pair : Forall (fun x => (x < 0)%Qc) [Qz (-2); Qz (-4)].
Proof. repeat constructor; by_compute. Qed.

Lemma compute_mape_positive_truth_witness :
  Forall (fun v => (0 < v)%Qc) [Qz 2; Qz 4]
  /\ compute_mape [Qz 2; Qz 4] [Qz 1; Qz 5] = Finite (Q2Qc (3 # 8))
  /\ (0 <= Q2Qc (3 # 8))%Qc
  /\ (Q2Qc (3 # 8) = 0%Qc <-> [Qz 1; Qz 5] = [Qz 2; Qz 4]).
Proof.
  assert (compute_mape [Qz 2; Qz 4] [Qz 1; Qz 5] = Finite (Q2Qc (3 # 8))) as Hrun
    by by_compute.
  split; [exact positive_pair |]. split; [exact Hrun |].
  apply (compute_mape_positive_truth [Qz 2; Qz 4] [Qz 1; Qz 5] (Q2Qc (3 # 8)));
    [exact positive_pair | reflexivity | exact Hrun].
Defined.

Lemma compute_mape_negative_truth_witness :
  Forall (fun v => (v < 0)%Qc) [Qz (-2); Qz (-4)]
  /\ compute_mape [Qz (-2); Qz (-4)] [Qz (-1); Qz (-5)] = Finite (Q2Qc (-3 # 8))
  /\ (Q2Qc (-3 # 8) <= 0)%Qc
  /\ (Q2Qc (-3 # 8) = 0%Qc <-> [Qz (-1); Qz (-5)] = [Qz (-2); Qz (-4)]).
Proof.
  assert (compute_mape [Qz (-2); Qz (-4)] [Qz (-1); Qz (-5)]
          = Finite (Q2Qc (-3 # 8))) as Hrun by by_compute.
  split; [exact negative_pair |]. split; [exact Hrun |].
  apply (compute_mape_negative_truth [Qz (-2); Qz (-4)] [Qz (-1); Qz (-5)]
           (Q2Qc (-3 # 8))); [exact negative_pair | reflexivity | exact Hrun].
Defined.

Lemma compute_rmse_symmetric_witness :
  length [Qz 1; Qz 5] = length [Qz 2; Qz 4]
  /\ @compute_rmse mean_lib [Qz 2; Qz 4] [Qz 1; Qz 5]
     = @compute_rmse mean_lib [Qz 1; Qz 5] [Qz 2; Qz 4].
Proof.
  split; [reflexivity |].
  apply (@compute_rmse_symmetric mean_lib [Qz 2; Qz 4] [Qz 1; Qz 5]). reflexivity.
Defined.

Lemma ex_strategy_other : strategy ex_sparse (nrows ex_U) (ncols ex_U) 2 = 2.
Proof. by vm_compute. Qed.

Lemma sample_factor_no_branch_witness :
  wf_mat 2 2 ex_Lambda /\ wf_vec 2 ex_mu /\ ex_factor !! 0 = Some ex_U
  /\ 2 <= strategy ex_sparse (nrows ex_U) (ncols ex_U) 2
  /\ @sample_factor mean_lib ex_sparse (binary_tensor ex_sparse) 1%Qc ex_factor
       ex_mu ex_Lambda 0 2 ex_world = (Ok ex_U, ex_world).
Proof.
  assert (2 <= strategy ex_sparse (nrows ex_U) (ncols ex_U) 2) as Hv
    by (rewrite ex_strategy_other; lia).
  split; [exact ex_Lambda_wf |]. split; [reflexivity |].
  split; [reflexivity |]. split; [exact Hv |].
  apply (@sample_factor_no_branch mean_lib 2 ex_sparse (binary_tensor ex_sparse) 1%Qc
           ex_factor ex_mu ex_Lambda 0 2 ex_U ex_world);
    [exact ex_Lambda_wf | reflexivity | reflexivity | by left].
Defined.

Lemma sample_factor_unknown_mode_witness :
  (ex_factor ++ [ex_U]) !! 3 = Some ex_U
  /\ strategy ex_sparse (nrows ex_U) (ncols ex_U) 0 = 0
  /\ @sample_factor mean_lib ex_sparse (binary_tensor ex_sparse) 1%Qc
       (ex_factor ++ [ex_U]) ex_mu ex_Lambda 3 0 ex_world
     = (Raise UnboundLocalError, ex_world).
Proof.
  split; [reflexivity |]. split; [exact ex_dense_strategy |].
  apply (@sample_factor_unknown_mode mean_lib ex_sparse (binary_tensor ex_sparse)
           1%Qc (ex_factor ++ [ex_U]) ex_mu ex_Lambda 3 0 ex_U ex_world);
    [reflexivity | lia | exact ex_dense_strategy].
Defined.

Lemma ex_cube_strategy : strategy ex_cube (nrows ex_V) (ncols ex_V) 1 = 1.
Proof. by vm_compute. Qed.

Lemma ex_cube_last_axis : shape_at (binary_tensor ex_cube) 2 <= 2.
Proof. by vm_compute. Qed.

Lemma sample_factor_slice_out_of_range_witness :
  wf_mat 2 2 ex_Lambda /\ wf_vec 2 ex_mu /\ [ex_U; ex_V; ex_V] !! 2 = Some ex_V
  /\ shape_at (binary_tensor ex_cube) 2 <= 2
  /\ @sample_factor mean_lib ex_cube (binary_tensor ex_cube) 1%Qc
       [ex_U; ex_V; ex_V] ex_mu ex_Lambda 2 1 ex_world
     = (Raise IndexError, ex_world).
Proof.
  split; [exact ex_Lambda_wf |]. split; [reflexivity |].
  split; [reflexivity |]. split; [exact ex_cube_last_axis |].
  apply (@sample_factor_slice_out_of_range mean_lib 2 ex_cube (binary_tensor ex_cube)
           1%Qc [ex_U; ex_V; ex_V] ex_mu ex_Lambda 2 1 ex_V ex_world);
    [exact ex_Lambda_wf | reflexivity | reflexivity | lia | cbn; lia
    | exact ex_cube_strategy | exact ex_cube_last_axis].
Defined.

Lemma train_test_partition_witness :
  wf_ten 2 2 3 ex_dense /\ wf_ten 2 2 3 ex_sparse
  /\ (forall p, In p (pos_train ex_sparse) <->
                in_range3 (2, 2, 3) p /\ tat ex_sparse p <> 0%Qc)
  /\ (forall p, In p (pos_test ex_dense ex_sparse) <->
                in_range3 (2, 2, 3) p
                /\ tat ex_dense p <> 0%Qc /\ tat ex_sparse p = 0%Qc)
  /\ (forall p, ~ (In p (pos_train ex_sparse) /\ In p (pos_test ex_dense ex_sparse)))
  /\ (forall p, in_range3 (2, 2, 3) p ->
        (In p (pos_train ex_sparse) -> tat (binary_tensor ex_sparse) p = 1%Qc)
        /\ (~ In p (pos_train ex_sparse) -> tat (binary_tensor ex_sparse) p = 0%Qc)).
Proof.
  split; [exact ex_dense_wf |]. split; [exact ex_sparse_wf |].
  apply (train_test_partition 2 2 3 ex_dense ex_sparse);
    [exact ex_dense_wf | exact ex_sparse_wf | lia..].
Defined.

(** A run of five burn-in sweeps and one collection sweep with the
    constant library returns. *)
Lemma const_run_returns :
  exists T Fs,
    (@BGCP const_lib ex_dense ex_sparse 5 1 ex_factor const_world).1 = Ok (T, Fs).
Proof.
  destruct (@BGCP const_lib ex_dense ex_sparse 5 1 ex_factor const_world).1
    as [[T Fs] | e] eqn:Hrun; [by exists T, Fs |].
  exfalso. vm_compute in Hrun. discriminate.
Qed.

Lemma BGCP_print_schedule_witness :
  exists T Fs,
    (@BGCP const_lib ex_dense ex_sparse 5 1 ex_factor const_world).1 = Ok (T, Fs)
    /\ exists metrics final,
         length metrics = 5 / 5
         /\ stdout (@BGCP const_lib ex_dense ex_sparse 5 1 ex_factor const_world).2 =
            stdout const_world
            ++ flat_map (fun jm => progress_block (5 * jm.1 + 4) jm.2)
                 (combine (seq 0 (5 / 5)) metrics)
            ++ final_block final.
Proof.
  destruct const_run_returns as (T & Fs & Hrun). exists T, Fs.
  split; [exact Hrun |].
  exact (@BGCP_print_schedule const_lib ex_dense ex_sparse 5 1 ex_factor const_world
           (T, Fs) Hrun).
Defined.

Lemma const_lib_laws : @shape_laws const_lib.
Proof.
  split; [| split].
  - by intros r A HA.
  - intros r mean cov g Hmean. cbn. unfold wf_vec in *. by rewrite length_map.
  - intros r df scale g Hscale. cbn. rewrite (nrows_wf r r) by done. apply wf_mk_mat.
Qed.

Lemma const_dense_update :
  (@sample_factor const_lib ex_sparse (binary_tensor ex_sparse) 1%Qc ex_factor
     ex_mu ex_Lambda 0 0 const_world).1 = Ok [[1%Qc; 1%Qc]; [1%Qc; 1%Qc]].
Proof. by_compute. Qed.

Lemma ex_factor_shapes : factor_shapes 2 2 3 2 ex_factor.
Proof.
  exists ex_U, ex_V, ex_X.
  split; [done |]. split; [exact ex_U_wf |]. split; [exact ex_V_wf | exact ex_X_wf].
Qed.

Lemma ex_dense_strategies k : k < 3 -> strategy ex_sparse (dim_of 2 2 3 k) 2 0 = 0.
Proof. intros Hk. by destruct k as [|[|[|k]]]; [vm_compute.. | lia]. Qed.

Lemma sample_factor_dense_shape_witness :
  @shape_laws const_lib /\ wf_ten 2 2 3 ex_sparse
  /\ wf_ten 2 2 3 (binary_tensor ex_sparse)
  /\ wf_mat 2 2 ex_U /\ wf_mat 2 2 ex_V /\ wf_mat 3 2 ex_X
  /\ wf_vec 2 ex_mu /\ wf_mat 2 2 ex_Lambda
  /\ (@sample_factor const_lib ex_sparse (binary_tensor ex_sparse) 1%Qc ex_factor
        ex_mu ex_Lambda 0 0 const_world).1 = Ok [[1%Qc; 1%Qc]; [1%Qc; 1%Qc]]
  /\ wf_mat (dim_of 2 2 3 0) 2 [[1%Qc; 1%Qc]; [1%Qc; 1%Qc]].
Proof.
  assert (wf_ten 2 2 3 (binary_tensor ex_sparse)) as HB
    by (apply binary_tensor_wf; [exact ex_sparse_wf | lia..]).
  split; [exact const_lib_laws |]. split; [exact ex_sparse_wf |]. split; [exact HB |].
  split; [exact ex_U_wf |]. split; [exact ex_V_wf |]. split; [exact ex_X_wf |].
  split; [reflexivity |].
  split; [exact ex_Lambda_wf |]. split; [exact const_dense_update |].
  apply (@sample_factor_dense_shape const_lib 2 2 3 2 ex_sparse (binary_tensor ex_sparse)
           1%Qc ex_U ex_V ex_X ex_mu ex_Lambda 0 const_world);
    [exact const_lib_laws | lia | lia | lia | lia | exact ex_sparse_wf | exact HB
    | exact ex_U_wf | exact ex_V_wf | exact ex_X_wf | reflexivity
    | exact ex_Lambda_wf | lia
    | exact (ex_dense_strategies 0 ltac:(lia)) | exact const_dense_update].
Defined.

Lemma BGCP_result_shape_witness :
  @shape_laws const_lib /\ wf_ten 2 2 3 ex_sparse /\ factor_shapes 2 2 3 2 ex_factor
  /\ exists T Fs,
       (@BGCP const_lib ex_dense ex_sparse 5 1 ex_factor const_world).1 = Ok (T, Fs)
       /\ wf_ten 2 2 3 T /\ factor_shapes 2 2 3 2 Fs.
Proof.
  split; [exact const_lib_laws |]. split; [exact ex_sparse_wf |].
  split; [exact ex_factor_shapes |].
  destruct const_run_returns as (T & Fs & Hrun). exists T, Fs.
  split; [exact Hrun |].
  apply (@BGCP_result_shape const_lib 2 2 3 2 ex_dense ex_sparse 5 1 ex_factor
           const_world T Fs);
    [exact const_lib_laws | lia | lia | lia | lia | exact ex_sparse_wf
    | exact ex_factor_shapes | exact ex_dense_strategies | exact Hrun].
Defined.

Lemma ex_gap_row_unobserved q p :
  q < earlier_dim 2 2 3 0 -> p < later_dim 2 2 3 0 -> entry_at ex_gap 0 0 q p = 0%Qc.
Proof.
  cbn [earlier_dim later_dim]. intros Hq Hp.
  destruct q as [|[|q]]; [| | lia];
    (destruct p as [|[|[|p]]]; [by_compute.. | lia]).
Qed.

Lemma dense_unobserved_row_witness :
  wf_ten 2 2 3 ex_gap
  /\ (forall q p, q < earlier_dim 2 2 3 0 -> p < later_dim 2 2 3 0 ->
        entry_at ex_gap 0 0 q p = 0%Qc)
  /\ exists var1 binary_k sparse_k,
       dense_var1 ex_factor 0 = Ok var1
       /\ ten2mat (binary_tensor ex_gap) 0 = Ok binary_k
       /\ ten2mat ex_gap 0 = Ok sparse_k
       /\ @dense_row mean_lib
            (dense_var3 binary_k 1%Qc var1 ex_Lambda 2 (dim_of 2 2 3 0))
            (dense_var4 sparse_k 1%Qc var1 ex_mu ex_Lambda (dim_of 2 2 3 0))
            ex_U 0 ex_world =
          (row ← @draw mean_lib _
                   (@mvnrnd mean_lib
                      (matvec (@inv mean_lib (symmetrize ex_Lambda))
                              (matvec ex_Lambda ex_mu))
                      (@inv mean_lib (symmetrize ex_Lambda)));
           mret (<[0 := row]> ex_U)) ex_world.
Proof.
  split; [exact ex_gap_wf |]. split; [exact ex_gap_row_unobserved |].
  eexists _, _, _. split; [reflexivity |]. split; [reflexivity |].
  split; [reflexivity |].
  apply (@dense_unobserved_row mean_lib 2 2 3 2 ex_gap 1%Qc ex_U ex_V ex_X ex_mu
           ex_Lambda 0 0);
    [lia | lia | lia | lia | exact ex_gap_wf | exact ex_U_wf | exact ex_V_wf
    | exact ex_X_wf | reflexivity | exact ex_Lambda_wf | lia | cbn; lia
    | exact ex_gap_row_unobserved | reflexivity | reflexivity | reflexivity].
Defined.

Lemma sample_factor_overwrites_witness :
  nrows ex_V = nrows (nth 0 [ex_U; ex_V; ex_X] [])
  /\ ncols ex_V = ncols (nth 0 [ex_U; ex_V; ex_X] [])
  /\ strategy ex_sparse (nrows ex_V) (ncols ex_V) 0 <= 1
  /\ @sample_factor mean_lib ex_sparse (binary_tensor ex_sparse) 1%Qc
       (<[0 := ex_V]> [ex_U; ex_V; ex_X]) ex_mu ex_Lambda 0 0 ex_world
     = @sample_factor mean_lib ex_sparse (binary_tensor ex_sparse) 1%Qc
         [ex_U; ex_V; ex_X] ex_mu ex_Lambda 0 0 ex_world.
Proof.
  assert (strategy ex_sparse (nrows ex_V) (ncols ex_V) 0 <= 1) as Hv
    by (change (strategy ex_sparse 2 2 0 <= 1); rewrite ex_dense_strategy; lia).
  split; [reflexivity |]. split; [reflexivity |]. split; [exact Hv |].
  apply (@sample_factor_overwrites mean_lib ex_sparse (binary_tensor ex_sparse) 1%Qc
           ex_U ex_V ex_X ex_V ex_mu ex_Lambda 0 0 ex_world);
    [lia | reflexivity | reflexivity | exact Hv].
Defined.

Lemma sample_factor_per_row_posterior_witness :
  wf_ten 2 2 3 ex_sparse /\ wf_mat 2 2 ex_U /\ wf_mat 2 2 ex_V /\ wf_mat 3 2 ex_X
  /\ wf_mat 2 2 ex_Lambda /\ 0 < dim_of 2 2 3 0
  /\ @sample_factor mean_lib ex_sparse (binary_tensor ex_sparse) 1%Qc
       [ex_U; ex_V; ex_X] ex_mu ex_Lambda 0 1 ex_world =
     @for_loop mean_lib _ _ (seq 0 (dim_of 2 2 3 0)) (nth 0 [ex_U; ex_V; ex_X] [])
       (fun Fk i =>
          row ← @draw mean_lib _
                  (@mvnrnd mean_lib
                     (matvec (@inv mean_lib (symmetrize (posterior_precision ex_sparse
                                1%Qc [ex_U; ex_V; ex_X] ex_Lambda 2 0 0)))
                             (posterior_rhs ex_sparse 1%Qc [ex_U; ex_V; ex_X] ex_mu
                                ex_Lambda 2 0 0))
                     (@inv mean_lib (symmetrize (posterior_precision ex_sparse 1%Qc
                                [ex_U; ex_V; ex_X] ex_Lambda 2 0 0))));
          mret (<[i := row]> Fk)) ex_world.
Proof.
  split; [exact ex_sparse_wf |]. split; [exact ex_U_wf |]. split; [exact ex_V_wf |].
  split; [exact ex_X_wf |]. split; [exact ex_Lambda_wf |]. split; [cbn; lia |].
  apply (@sample_factor_per_row_posterior mean_lib 2 2 3 2 ex_sparse 1%Qc
           ex_U ex_V ex_X ex_mu ex_Lambda 0 ex_world);
    [lia | lia | lia | lia | exact ex_sparse_wf | exact ex_U_wf | exact ex_V_wf
    | exact ex_X_wf | reflexivity | exact ex_Lambda_wf | lia | cbn; lia].
Defined.

Lemma ex_speed_wf : wf_mat 2 720 ex_speed.
Proof. apply wf_mk_mat. Qed.

(** Masking the second of the three observed entries succeeds. *)
Lemma ex_speed_masked : exists sparse_mat, mask_observed ex_speed [1] = Ok sparse_mat.
Proof.
  destruct (mask_observed ex_speed [1]) as [sparse_mat | e] eqn:Hmask;
    [by exists sparse_mat |].
  exfalso. vm_compute in Hmask. discriminate.
Qed.

Lemma masked_entries_are_test_set_witness :
  wf_mat 2 720 ex_speed
  /\ exists sparse_mat,
       mask_observed ex_speed [1] = Ok sparse_mat
       /\ (forall i d h,
             In (i, d, h) (pos_test (to_tensor ex_speed) (to_tensor sparse_mat)) <->
             d < 30 /\ h < 24
             /\ exists s, In s [1]
                          /\ np_where_nonzero2 ex_speed !! s = Some (i, d * 24 + h))
       /\ (forall i d h,
             In (i, d, h) (pos_train (to_tensor sparse_mat)) <->
             i < 2 /\ d < 30 /\ h < 24
             /\ mget ex_speed i (d * 24 + h) <> 0%Qc
             /\ ~ exists s, In s [1]
                            /\ np_where_nonzero2 ex_speed !! s = Some (i, d * 24 + h)).
Proof.
  split; [exact ex_speed_wf |].
  destruct ex_speed_masked as (sparse_mat & Hmask). exists sparse_mat.
  split; [exact Hmask |].
  exact (masked_entries_are_test_set 2 ex_speed sparse_mat [1] ltac:(lia)
           ex_speed_wf Hmask).
Defined.

Lemma BGCP_ignores_dense_tensor_witness :
  wf_ten 2 2 3 ex_dense /\ wf_ten 2 2 3 ex_gap /\ wf_ten 2 2 3 ex_sparse
  /\ factor_shapes 2 2 3 2 ex_factor
  /\ (@BGCP mean_lib ex_dense ex_sparse 5 1 ex_factor ex_world).1
      = (@BGCP mean_lib ex_gap ex_sparse 5 1 ex_factor ex_world).1
  /\ rng (@BGCP mean_lib ex_dense ex_sparse 5 1 ex_factor ex_world).2
      = rng (@BGCP mean_lib ex_gap ex_sparse 5 1 ex_factor ex_world).2.
Proof.
  split; [exact ex_dense_wf |]. split; [exact ex_gap_wf |].
  split; [exact ex_sparse_wf |]. split; [exact ex_factor_shapes |].
  apply (@BGCP_ignores_dense_tensor mean_lib 2 2 3 2 ex_dense ex_gap ex_sparse 5 1
           ex_factor ex_world);
    [exact ex_dense_wf | exact ex_gap_wf | exact ex_sparse_wf | exact ex_factor_shapes].
Defined.

Lemma counted_run_returns :
  exists res,
    (@BGCP (counted const_lib) ex_dense ex_sparse 5 1 [ex_U; ex_V; ex_X]
       counted_world).1 = Ok res.
Proof.
  destruct (@BGCP (counted const_lib) ex_dense ex_sparse 5 1 [ex_U; ex_V; ex_X]
              counted_world).1 as [res | e] eqn:Hrun; [by exists res |].
  exfalso. vm_compute in Hrun. discriminate.
Qed.

Lemma BGCP_draw_count_witness :
  exists res,
    (@BGCP (counted const_lib) ex_dense ex_sparse 5 1 [ex_U; ex_V; ex_X]
       counted_world).1 = Ok res
    /\ draws (@BGCP (counted const_lib) ex_dense ex_sparse 5 1 [ex_U; ex_V; ex_X]
                counted_world).2 =
       draws counted_world + (5 + 1) * (7 + nrows ex_U + nrows ex_V + nrows ex_X).
Proof.
  destruct counted_run_returns as (res & Hrun). exists res.
  split; [exact Hrun |].
  exact (BGCP_draw_count const_lib ex_dense ex_sparse 5 1 ex_U ex_V ex_X []
           counted_world res Hrun).
Defined.

(** ** The posteriors at the examples *)

Lemma inv_small_wf r A : wf_mat r r A -> wf_mat r r (inv_small A).
Proof.
  intros HA.
  destruct A as [|[|a [|b [|? ?]]] [|[|c [|d [|? ?]]] [|? ?]]]; try exact HA.
  - destruct HA as [<- _]. split; [done |]. by repeat constructor.
  - destruct HA as [<- _]. split; [done |]. by repeat constructor.
Qed.

Lemma mean_lib_laws : @shape_laws mean_lib.
Proof.
  split; [exact inv_small_wf |]. split; [by intros r mean cov g Hmean |].
  intros r df scale g Hscale. cbn. by apply wf_mmap.
Qed.



Lemma sample_hyperparameter_posterior_witness :
  @shape_laws mean_lib
  /\ wf_mat 2 2 ex_U /\ 0 < 2 /\ wf_vec 2 ex_mu2 /\ wf_mat 2 2 ex_Lambda
  /\ @sample_hyperparameter mean_lib ex_U ex_mu2 (Qz 3) ex_Lambda (Qn 2) ex_world =
     (Lambda ← @draw mean_lib _
        (@wishart_rvs mean_lib (Qn 2 + Qn 2)%Qc
           (@inv mean_lib
              (mk_mat 2 2 (@wishart_precision_entry mean_lib 2 2 ex_U ex_mu2 (Qz 3)
                             ex_Lambda))));
      mu ← @draw mean_lib _
        (@mvnrnd mean_lib
           (mk_vec 2 (fun j =>
              ((Qn 2 * vget (row_mean 2 2 ex_U) j + Qz 3 * vget ex_mu2 j)
               / (Qn 2 + Qz 3))%Qc))
           (@inv mean_lib (mk_mat 2 2 (fun a b =>
                             ((Qn 2 + Qz 3) * mget Lambda a b)%Qc))));
      mret (mu, Lambda)) ex_world.
Proof.
  split; [exact mean_lib_laws |].
  split; [exact ex_U_wf |]. split; [lia |]. split; [reflexivity |].
  split; [exact ex_Lambda_wf |].
  apply (@sample_hyperparameter_posterior mean_lib 2 2 ex_U ex_mu2 (Qz 3)
           ex_Lambda (Qn 2) ex_world);
    [exact mean_lib_laws | exact ex_U_wf | lia | reflexivity | exact ex_Lambda_wf].
Defined.


Lemma compute_mape_zero_truth_witness :
  0 < 1
  /\ exists ls,
       stdout (@BGCP const_lib ex_dense ex_sparse 5 1 ex_factor const_world).2
         = stdout const_world ++ ls
       /\ Forall (mape_over_test ex_dense ex_sparse) ls.
Proof.
  split; [lia |].
  apply (proj2 (proj2 (@compute_mape_zero_truth const_lib ex_dense ex_sparse 5 1
                         ex_factor const_world))).
  lia.
Defined.
